(** * The read path of the TileDB storage engine (tiledb/sm/query/reader.cc)

    A shallow embedding of [Reader] and of the algorithms it runs on one
    subarray partition: the dense range merger, the coordinate
    deduplication, the cell copiers, the legacy partition planner and the
    read loop.  Unsigned 64-bit quantities are integers of [Z] with the
    wrap-around written out; vectors are lists read and updated by index;
    [std::unordered_map] is a [gmap]; caller memory is an explicit store. *)

From Stdlib Require Import ZArith QArith Qround Lia Bool.
From stdpp Require Import gmap strings list fin_maps.

Local Open Scope Z_scope.

Set Warnings "-clear-no-such-hyp".

(** ** Machine integers *)

Definition u64_mod : Z := 2 ^ 64.

(** Reduction of an integer to [uint64_t]. *)
Definition u64 (z : Z) : Z := z mod u64_mod.

(** The [MIN] macro. *)
Definition MIN (a b : Z) : Z := if a <? b then a else b.

(** ** The dense range merger: [Reader::compute_dense_cell_ranges] *)

Module DenseMerge.

(** [DenseCellRange<T>]: the fragment index ([-1] for an empty range), the
    coordinates of the tile and the global start and end positions.  The
    two coordinate pointers of the structure are null in every range the
    merger emits and, when the layout is the cell order, in every range it
    queues. *)
Record DenseCellRange := mkDCR {
  fragment_idx_ : Z;
  tile_coords_ : list Z;
  start_ : Z;
  end_ : Z
}.

(** [DenseCellRangeIter<T>] as seen by the merger: the ranges it has still
    to yield, the current one first. *)
Definition DenseCellRangeIter := list (Z * Z).

Definition iter_end (it : DenseCellRangeIter) : bool :=
  match it with [] => true | _ => false end.

(** [++it] *)
Definition iter_advance (it : DenseCellRangeIter) : DenseCellRangeIter := tl it.

(** Modelled from the spec: the comparator [DenseCellRangeCmp] of
    misc/comparators.h.  The queue is a min-heap keyed by the range start,
    and for equal starts the higher fragment index pops first;
    [cmp_less a b] is the comparator's call operator, true when [a] has to
    leave the queue after [b]. *)
Definition cmp_less (a b : DenseCellRange) : bool :=
  (start_ b <? start_ a)
  || ((start_ a =? start_ b) && (fragment_idx_ a <? fragment_idx_ b)).

(** Modelled from the spec: [comp.precedes(r, pos, RANGE_END)], the range
    ends before the position. *)
Definition precedes_end (r : DenseCellRange) (pos : Z) : bool := end_ r <? pos.

(** Modelled from the spec: [comp.succeeds(r, pos, RANGE_START)], the range
    starts after the position. *)
Definition succeeds_start (r : DenseCellRange) (pos : Z) : bool := pos <? start_ r.

(** [std::priority_queue]: the content as a list, with [pq_top] for
    [top()] and [pq_pop] for [pop()]. *)
Definition PQ := list DenseCellRange.

Fixpoint pq_best (best : DenseCellRange) (rest : PQ) : DenseCellRange :=
  match rest with
  | [] => best
  | x :: rest' => pq_best (if cmp_less best x then x else best) rest'
  end.

Definition pq_top (pq : PQ) : option DenseCellRange :=
  match pq with
  | [] => None
  | x :: rest => Some (pq_best x rest)
  end.

Definition dcr_eqb (a b : DenseCellRange) : bool :=
  (fragment_idx_ a =? fragment_idx_ b) && (start_ a =? start_ b)
  && (end_ a =? end_ b).

Fixpoint pq_remove (t : DenseCellRange) (pq : PQ) : PQ :=
  match pq with
  | [] => []
  | x :: rest => if dcr_eqb x t then rest else x :: pq_remove t rest
  end.

Definition pq_pop (pq : PQ) : PQ :=
  match pq_top pq with
  | None => pq
  | Some t => pq_remove t pq
  end.

(** [pq.emplace(fidx, tile_coords, frag_its[fidx].range_start(), ...)],
    guarded by [!frag_its[fidx].end()]. *)
Definition push_current (tc : list Z) (frag_its : list DenseCellRangeIter)
    (fidx : Z) (pq : PQ) : PQ :=
  match frag_its !! Z.to_nat fidx with
  | Some ((s, e) :: _) => mkDCR fidx tc s e :: pq
  | _ => pq
  end.

(** [++frag_its[fidx]] *)
Definition advance (frag_its : list DenseCellRangeIter) (fidx : Z) :
    list DenseCellRangeIter :=
  alter iter_advance (Z.to_nat fidx) frag_its.

(** The queue as first populated: one range per fragment whose iterator has
    not ended. *)
Fixpoint populate (tc : list Z) (frag_its : list DenseCellRangeIter)
    (i : nat) (n : nat) (pq : PQ) : PQ :=
  match n with
  | O => pq
  | S n' => populate tc frag_its (S i) n' (push_current tc frag_its (Z.of_nat i) pq)
  end.

(** The inner loop that drops the ranges of older fragments lying inside
    the popped one. *)
Fixpoint ignore_older (fuel : nat) (popped : DenseCellRange) (pq : PQ) : PQ :=
  match fuel with
  | O => pq
  | S fuel' =>
    match pq_top pq with
    | None => pq
    | Some top =>
      if (fragment_idx_ top <? fragment_idx_ popped)
         && (start_ popped <=? start_ top) && (end_ top <=? end_ popped)
      then ignore_older fuel' popped (pq_pop pq)
      else pq
    end
  end.

(** The state of the main loop. *)
Record MergeState := mkMS {
  ms_its : list DenseCellRangeIter;
  ms_pq : PQ;
  ms_start : Z;
  ms_out : list DenseCellRange
}.

Inductive Flow :=
| Continue (s : MergeState)   (* next iteration *)
| Break (s : MergeState)      (* leave the loop, run the trailing padding *)
| Return (s : MergeState).    (* return from the function *)

Definition empty_range (tc : list Z) (s e : Z) : DenseCellRange := mkDCR (-1) tc s e.

(** One iteration of [while (!pq.empty())], the queue being non-empty. *)
Definition merge_step (tc : list Z) (e : Z) (popped : DenseCellRange)
    (s : MergeState) : Flow :=
  let fidx := fragment_idx_ popped in
  let pq := pq_pop (ms_pq s) in
  let start := ms_start s in
  if precedes_end popped start then
    let its := advance (ms_its s) fidx in
    Continue (mkMS its (push_current tc its fidx pq) start (ms_out s))
  else if succeeds_start popped e then
    Return (mkMS (ms_its s) pq start (ms_out s ++ [empty_range tc start e]))
  else
    (* Need to pad an empty range *)
    let padded :=
      if start <? start_ popped then
        let new_end := MIN e (u64 (start_ popped - 1)) in
        (u64 (new_end + 1), ms_out s ++ [empty_range tc start new_end])
      else (start, ms_out s) in
    let start := fst padded in
    let out := snd padded in
    if (ms_start s <? start_ popped) && (e <? start) then
      Break (mkMS (ms_its s) pq start out)
    else
      (* Check if popped intersects with top *)
      let pq := ignore_older (length pq) popped pq in
      match pq_top pq with
      | Some top =>
        if (start_ top <=? e) && (start_ popped <? start_ top)
           && (start_ top <=? end_ popped)
        then
          let new_end := u64 (start_ top - 1) in
          let out := out ++ [mkDCR fidx tc start new_end] in
          let start := u64 (new_end + 1) in
          if e <? start then Break (mkMS (ms_its s) pq start out)
          else
            Continue (mkMS (ms_its s)
                        (mkDCR fidx tc (start_ top) (end_ popped) :: pq)
                        start out)
        else
          let new_end := MIN e (end_ popped) in
          let out := out ++ [mkDCR fidx tc start new_end] in
          let start := u64 (new_end + 1) in
          let its := if new_end =? end_ popped then advance (ms_its s) fidx
                     else ms_its s in
          let pq := if new_end =? end_ popped then push_current tc its fidx pq
                    else pq in
          if e <? start then Break (mkMS its pq start out)
          else Continue (mkMS its pq start out)
      | None =>
        let new_end := MIN e (end_ popped) in
        let out := out ++ [mkDCR fidx tc start new_end] in
        let start := u64 (new_end + 1) in
        let its := if new_end =? end_ popped then advance (ms_its s) fidx
                   else ms_its s in
        let pq := if new_end =? end_ popped then push_current tc its fidx pq
                  else pq in
        if e <? start then Break (mkMS its pq start out)
        else Continue (mkMS its pq start out)
      end.

(** The code after the loop: pad what is left of the window. *)
Definition finish (tc : list Z) (e : Z) (s : MergeState) : MergeState :=
  if ms_start s <=? e
  then mkMS (ms_its s) (ms_pq s) (ms_start s)
            (ms_out s ++ [empty_range tc (ms_start s) e])
  else s.

Fixpoint merge_loop (fuel : nat) (tc : list Z) (e : Z) (s : MergeState) :
    option MergeState :=
  match fuel with
  | O => None
  | S fuel' =>
    match pq_top (ms_pq s) with
    | None => Some (finish tc e s)
    | Some popped =>
      match merge_step tc e popped s with
      | Continue s' => merge_loop fuel' tc e s'
      | Break s' => Some (finish tc e s')
      | Return s' => Some s'
      end
    end
  end.

(** [Reader::compute_dense_cell_ranges]: the iterators as left by the call
    and the ranges appended to [dense_cell_ranges]; [None] when the fuel
    does not suffice. *)
Definition compute_dense_cell_ranges (fuel : nat) (tile_coords : list Z)
    (frag_its : list DenseCellRangeIter) (start e : Z) :
    option (list DenseCellRangeIter * list DenseCellRange) :=
  let pq := populate tile_coords frag_its 0 (length frag_its) [] in
  match merge_loop fuel tile_coords e (mkMS frag_its pq start []) with
  | Some s => Some (ms_its s, ms_out s)
  | None => None
  end.

(** What the merger is meant to deliver.  [covers_exactly s e out]: the
    ranges of [out] are non-empty, consecutive and tile the window
    [s..e]. *)
Fixpoint covers_exactly (s e : Z) (out : list DenseCellRange) : bool :=
  match out with
  | [] => s =? e + 1
  | r :: rest =>
    (start_ r =? s) && (start_ r <=? end_ r) && (end_ r <=? e)
    && covers_exactly (end_ r + 1) e rest
  end.

Definition iter_covers (it : DenseCellRangeIter) (p : Z) : bool :=
  existsb (fun r => (fst r <=? p) && (p <=? snd r)) it.

(** The highest fragment index whose iterator yields a range over [p],
    [-1] when there is none. *)
Fixpoint winner_from (i : Z) (frag_its : list DenseCellRangeIter) (p : Z) : Z :=
  match frag_its with
  | [] => -1
  | it :: rest =>
    let w := winner_from (i + 1) rest p in
    if 0 <=? w then w else if iter_covers it p then i else -1
  end.

Definition winner (frag_its : list DenseCellRangeIter) (p : Z) : Z :=
  winner_from 0 frag_its p.

(** The ranges an iterator yields are sorted and disjoint. *)
Fixpoint iter_sorted (it : DenseCellRangeIter) : bool :=
  match it with
  | [] => true
  | (s, e) :: rest =>
    (s <=? e)
    && match rest with
       | [] => true
       | (s', _) :: _ => e <? s'
       end
    && iter_sorted rest
  end.

(** Every position of every emitted range carries the winning fragment. *)
Definition annotated_with_winner (frag_its : list DenseCellRangeIter)
    (out : list DenseCellRange) : bool :=
  forallb (fun r =>
    forallb (fun p => fragment_idx_ r =? winner frag_its p)
            (seqZ (start_ r) (end_ r - start_ r + 1))) out.

(** Three dense fragments over the window [0..9]: fragment 0 covers it
    all, fragment 1 the cells 2..5 and fragment 2 the cells 0..3. *)
Definition three_writes : list DenseCellRangeIter :=
  [ [(0, 9)]; [(2, 5)]; [(0, 3)] ].

(** Two dense fragments over the window [0..9]: the older one yields two
    ranges, the first of them inside the range of the newer one. *)
Definition two_slabs : list DenseCellRangeIter :=
  [ [(0, 1); (5, 9)]; [(0, 2)] ].

End DenseMerge.

(** ** Shared data of the read path *)

(** A tile of one attribute: its bytes, and the number of cells it holds. *)
Record Tile := mkTile {
  tile_data : list Z;
  tile_cell_num : Z
}.

Definition tile_size (t : Tile) : Z := Z.of_nat (length (tile_data t)).

(** [OverlappingTile]: the fragment, the tile index in the fragment, the
    overlap flag and the tiles of the attributes, a pair per attribute (the
    second one holds the values of a var-sized attribute). *)
Record OverlappingTile := mkOT {
  ot_fragment_idx_ : Z;
  ot_tile_idx_ : Z;
  ot_full_overlap_ : bool;
  ot_attr_tiles_ : gmap string (Tile * Tile)
}.

(** ** Coordinate deduplication: [Reader::dedup_coords] *)

Module Dedup.

(** [OverlappingCoords<T>]: the tile the cell comes from, the bytes of its
    coordinate tuple, its position in the tile and the validity flag. *)
Record OverlappingCoords := mkOC {
  tile_ : OverlappingTile;
  coords_ : list Z;
  pos_ : Z;
  valid_ : bool
}.

Definition invalidate (c : OverlappingCoords) : OverlappingCoords :=
  mkOC (tile_ c) (coords_ c) (pos_ c) false.

(** The bytes [std::memcmp(_, _, coords_size)] looks at. *)
Definition key (coords_size : nat) (c : OverlappingCoords) : list Z :=
  take coords_size (coords_ c).

(** [!std::memcmp(a->coords_, b->coords_, coords_size)] *)
Definition same_coords (coords_size : nat) (a b : OverlappingCoords) : bool :=
  bool_decide (key coords_size a = key coords_size b).

(** [skip_invalid_elements] on the elements from the iterator on: how far
    the iterator moves. *)
Fixpoint skip_count (l : list OverlappingCoords) : nat :=
  match l with
  | [] => O
  | c :: l' => if valid_ c then O else S (skip_count l')
  end.

(** [skip_invalid_elements(it, end)]; the iterator is an index and [end] is
    the length of the vector. *)
Definition skip_invalid_elements (v : list OverlappingCoords) (it : nat) : nat :=
  (it + skip_count (drop it v))%nat.

(** The loop of [dedup_coords]; [None] when the fuel runs out. *)
Fixpoint dedup_loop (fuel : nat) (coords_size : nat)
    (v : list OverlappingCoords) (it : nat) : option (list OverlappingCoords) :=
  match fuel with
  | O => None
  | S fuel' =>
    match v !! it with
    | None => Some v
    | Some c =>
      let next_it := skip_invalid_elements v (S it) in
      match v !! next_it with
      | Some n =>
        if same_coords coords_size c n then
          if ot_fragment_idx_ (tile_ c) <? ot_fragment_idx_ (tile_ n) then
            let v' := <[it := invalidate c]> v in
            dedup_loop fuel' coords_size v' (skip_invalid_elements v' (S it))
          else
            dedup_loop fuel' coords_size (<[next_it := invalidate n]> v) it
        else dedup_loop fuel' coords_size v (skip_invalid_elements v (S it))
      | None => dedup_loop fuel' coords_size v (skip_invalid_elements v (S it))
      end
    end
  end.

(** [Reader::dedup_coords] *)
Definition dedup_coords (fuel : nat) (coords_size : nat)
    (v : list OverlappingCoords) : option (list OverlappingCoords) :=
  dedup_loop fuel coords_size v (skip_invalid_elements v 0).

(** Modelled from the spec: the row-major comparator [RowCmp] of
    misc/comparators.h, the lexicographic order of the coordinate tuples. *)
Fixpoint RowCmp (a b : list Z) : bool :=
  match a, b with
  | [], [] => false
  | [], _ :: _ => true
  | _ :: _, [] => false
  | x :: a', y :: b' => (x <? y) || ((x =? y) && RowCmp a' b')
  end.

(** The fragment a coordinate comes from: [c.tile_->fragment_idx_]. *)
Definition frag (c : OverlappingCoords) : Z := ot_fragment_idx_ (tile_ c).

(** The vector is sorted by the comparator [lt] of the layout, as
    [parallel_sort] leaves it: no element precedes an earlier one. *)
Fixpoint sorted_by (lt : list Z -> list Z -> bool) (coords_size : nat)
    (v : list OverlappingCoords) : bool :=
  match v with
  | [] => true
  | a :: rest =>
    forallb (fun b => negb (lt (key coords_size b) (key coords_size a))) rest
    && sorted_by lt coords_size rest
  end.

(** The number of valid elements. *)
Fixpoint nvalid (l : list OverlappingCoords) : nat :=
  match l with
  | [] => O
  | c :: l' => if valid_ c then S (nvalid l') else nvalid l'
  end.

(** [shape v0 v]: [v] is [v0] with some validity flags cleared. *)
Definition shape (v0 v : list OverlappingCoords) : Prop :=
  length v = length v0 /\
  forall i c, v !! i = Some c ->
    exists c0, v0 !! i = Some c0 /\ tile_ c = tile_ c0 /\ coords_ c = coords_ c0
               /\ pos_ c = pos_ c0 /\ (valid_ c = true -> valid_ c0 = true).

(** Scenario S4 of the specification: the cell (1,1) written by fragments
    0 and 1, the cell (2,2) by fragment 0. *)
Definition s4_coords : list OverlappingCoords :=
  [ mkOC (mkOT 0 0 true ∅) [1; 1] 0 true;
    mkOC (mkOT 1 0 true ∅) [1; 1] 0 true;
    mkOC (mkOT 0 0 true ∅) [2; 2] 1 true ].

(** The invariant of the loop of [dedup_coords] when its iterator is at
    [it] in the vector [v] that began as [v0]: only validity flags have
    changed, the element at [it] is valid, no valid element before [it] has
    the tuple of a later valid one, and each element invalidated has a valid
    element of the same tuple from a fragment at least as recent. *)
Record Inv (csz : nat) (v0 v : list OverlappingCoords) (it : nat) : Prop := mkInv {
  inv_shape : shape v0 v;
  inv_le : (it <= length v)%nat;
  inv_cur : forall c, v !! it = Some c -> valid_ c = true;
  inv_uniq : forall i j a b, (i < it)%nat -> (i < j)%nat ->
    v !! i = Some a -> v !! j = Some b ->
    valid_ a = true -> valid_ b = true -> key csz a <> key csz b;
  inv_dom : forall j c0 c, v0 !! j = Some c0 -> valid_ c0 = true ->
    v !! j = Some c -> valid_ c = false ->
    exists k d, v !! k = Some d /\ valid_ d = true
                /\ key csz d = key csz c0 /\ (frag c0 <= frag d)%Z
}.

End Dedup.

(** ** The reader: data *)

Module ReaderModel.

Inductive Layout := ROW_MAJOR | COL_MAJOR | GLOBAL_ORDER | UNORDERED.

Inductive Datatype :=
| INT32 | INT64 | FLOAT32 | FLOAT64 | CHAR | INT8 | UINT8 | INT16 | UINT16
| UINT32 | UINT64 | STRING_ASCII | ANY.

Definition Layout_eqb (a b : Layout) : bool :=
  match a, b with
  | ROW_MAJOR, ROW_MAJOR | COL_MAJOR, COL_MAJOR
  | GLOBAL_ORDER, GLOBAL_ORDER | UNORDERED, UNORDERED => true
  | _, _ => false
  end.

(** Modelled from the spec: [datatype_size] of enums/datatype.h, the byte
    width of a value of the type. *)
Definition datatype_size (t : Datatype) : Z :=
  match t with
  | INT32 | UINT32 | FLOAT32 => 4
  | INT64 | UINT64 | FLOAT64 => 8
  | INT16 | UINT16 => 2
  | CHAR | INT8 | UINT8 | STRING_ASCII | ANY => 1
  end.

(** [constants::coords], [constants::cell_var_offset_size] *)
Definition coords : string := "__coords".
Definition cell_var_offset_size : Z := 8.

(** [Status]: success, or an error of some kind with its message. *)
Inductive StatusCode := ReaderError | WriterError | QueryError | CollaboratorError.

Inductive Status := Ok | Err (code : StatusCode) (msg : string).

Definition ok (st : Status) : bool :=
  match st with Ok => true | Err _ _ => false end.

(** The ways a call ends: it returns, it is aborted by a failed [assert]
    or by a null dereference, or the fuel of the model runs out. *)
Inductive Run (A : Type) :=
| Ret (a : A)
| Aborted
| OutOfFuel.
Arguments Ret {A} a.
Arguments Aborted {A}.
Arguments OutOfFuel {A}.

Definition bind {A B : Type} (m : Run A) (k : A -> Run B) : Run B :=
  match m with
  | Ret a => k a
  | Aborted => Aborted
  | OutOfFuel => OutOfFuel
  end.

#[global] Instance Run_bind : MBind Run := fun A B k m => bind m k.
#[global] Instance Run_ret : MRet Run := fun A a => Ret a.

(** *** Caller memory *)

(** A pointer is null or names an object of the caller. *)
Definition loc := positive.
Definition ptr := option loc.

(** The caller's memory: the [uint64_t] objects the size pointers refer
    to and the byte buffers.  [written] is a ghost counter: the bytes
    [memcpy] has put into each buffer since the partition attempt
    began. *)
Record Mem := mkMem {
  sizes : gmap loc Z;
  bytes : gmap loc (list Z);
  written : gmap loc Z
}.

Definition load (m : Mem) (p : loc) : Z := default 0 (sizes m !! p).

Definition store (m : Mem) (p : loc) (z : Z) : Mem :=
  mkMem (<[p := z]> (sizes m)) (bytes m) (written m).

Definition written_to (m : Mem) (p : loc) : Z := default 0 (written m !! p).

(** The bytes of a buffer after [src] has been copied to its offset [off]. *)
Definition splice (old : list Z) (off : Z) (src : list Z) : list Z :=
  take (Z.to_nat off) old ++ src ++ drop (Z.to_nat off + length src) old.

(** [std::memcpy(buffer + off, src, n)]: [src] holds the bytes at the
    source address, of which the first [n] are copied. *)
Definition memcpy (m : Mem) (buffer : loc) (off : Z) (src : list Z) (n : Z) : Mem :=
  mkMem (sizes m)
        (<[buffer := splice (default [] (bytes m !! buffer)) off (take (Z.to_nat n) src)]>
           (bytes m))
        (<[buffer := written_to m buffer + n]> (written m)).

(** The ghost counters are cleared when a partition attempt begins. *)
Definition begin_attempt (m : Mem) : Mem := mkMem (sizes m) (bytes m) ∅.

(** The little-endian bytes of an [n]-byte integer. *)
Fixpoint le_bytes (n : nat) (z : Z) : list Z :=
  match n with
  | O => []
  | S n' => (z mod 256) :: le_bytes n' (z / 256)
  end.

(** The integer a little-endian byte string stands for. *)
Fixpoint le_value (l : list Z) : Z :=
  match l with
  | [] => 0
  | b :: l' => b + 256 * le_value l'
  end.

(** [((uint64_t* )data)[i]] *)
Definition u64_at (data : list Z) (i : Z) : Z :=
  le_value (take 8 (drop (Z.to_nat (8 * i)) data)).

(** *** Schema, fragments, buffers *)

Record Attribute := mkAttr {
  attr_type : Datatype;
  attr_var_size : bool;
  attr_cell_val_num : Z
}.

(** A subarray: the low and the high end of each dimension. *)
Definition Subarray := list Z.

(** [ArraySchema] as the reader queries it. *)
Record ArraySchema := mkSchema {
  schema_dense : bool;
  schema_is_kv : bool;
  schema_coords_type : Datatype;
  schema_dim_num : Z;
  schema_cell_order : Layout;
  schema_domain : Subarray;
  schema_attributes : gmap string Attribute
}.

(** [array_schema_->attribute(name)] *)
Definition attribute (s : ArraySchema) (name : string) : option Attribute :=
  schema_attributes s !! name.

(** [array_schema_->var_size(name)] *)
Definition var_size (s : ArraySchema) (name : string) : bool :=
  match attribute s name with
  | Some a => attr_var_size a
  | None => false
  end.

(** [array_schema_->coords_size()] *)
Definition coords_size (s : ArraySchema) : Z :=
  schema_dim_num s * datatype_size (schema_coords_type s).

(** [array_schema_->type(name)] *)
Definition type (s : ArraySchema) (name : string) : Datatype :=
  if String.eqb name coords then schema_coords_type s
  else match attribute s name with
       | Some a => attr_type a
       | None => ANY
       end.

(** [array_schema_->cell_size(name)] *)
Definition cell_size (s : ArraySchema) (name : string) : Z :=
  if String.eqb name coords then coords_size s
  else match attribute s name with
       | Some a => attr_cell_val_num a * datatype_size (attr_type a)
       | None => 0
       end.

Record FragmentMetadata := mkFrag {
  frag_dense : bool
}.

(** [AttributeBuffer]: the two buffers, the two size pointers and the
    sizes the pointers referred to when the buffer was set. *)
Record AttributeBuffer := mkBuf {
  buffer_ : ptr;
  buffer_var_ : ptr;
  buffer_size_ : ptr;
  buffer_var_size_ : ptr;
  original_buffer_size_ : Z;
  original_buffer_var_size_ : Z
}.

(** The constructor reads the sizes through the pointers. *)
Definition AttributeBuffer_new (m : Mem) (buffer buffer_var buffer_size buffer_var_size : ptr) :
    AttributeBuffer :=
  mkBuf buffer buffer_var buffer_size buffer_var_size
        (match buffer_size with Some p => load m p | None => 0 end)
        (match buffer_var_size with Some p => load m p | None => 0 end).

(** [OverlappingCellRange]: a tile (null for an empty range) and the
    first and last cell of the range in it. *)
Record CellRange := mkCR {
  cr_tile_ : option OverlappingTile;
  cr_start_ : Z;
  cr_end_ : Z
}.

(** A cell slab of [DenseCellRangeIter]: the coordinates of its first cell
    and its first and last position. *)
Record Slab := mkSlab {
  slab_coords_start : list Z;
  slab_range_start : Z;
  slab_range_end : Z
}.

(** *** Read states *)

(** [ReadState], the legacy state. *)
Record ReadState := mkRS {
  cur_subarray_partition_ : option Subarray;
  subarray_ : option Subarray;
  subarray_partitions_ : list Subarray;
  initialized_ : bool;
  overflowed_ : bool;
  unsplittable_ : bool
}.

(** Modelled from the spec: [SubarrayPartitioner], of which no source is
    at hand.  It holds the current partition, the pending partitions and
    the result budgets; it is done when nothing is pending. *)
Record SubarrayPartitioner := mkSP {
  sp_current : option Subarray;
  sp_pending : list Subarray;
  sp_budget : gmap string (Z * Z);
  sp_memory_budget : Z * Z
}.

(** [ReadState2], the state of the new path. *)
Record ReadState2 := mkRS2 {
  set_ : bool;
  overflowed_2 : bool;
  unsplittable_2 : bool;
  partitioner_ : SubarrayPartitioner
}.

(** [Reader], with the memory of the caller and the answers the storage
    manager will give when polled for cancellation. *)
Record Reader := mkReader {
  array_schema_ : option ArraySchema;
  storage_manager_ : bool;
  attr_buffers_ : gmap string AttributeBuffer;
  attributes_ : list string;
  fragment_metadata_ : list FragmentMetadata;
  layout_ : Layout;
  read_state_ : ReadState;
  read_state_2_ : ReadState2;
  sparse_mode_ : bool;
  memory_budget_ : Z;
  memory_budget_var_ : Z;
  mem_ : Mem;
  cancel_ : list bool
}.


(** *** The collaborators *)

(** The stages of the pipeline that run before the cells are copied, each
    under [RETURN_CANCEL_OR_ERROR]: the calls of [dense_read<T>], of
    [sparse_read<T>] and of [sparse_read_2<T>], with the arguments that
    tell two calls of one function apart. *)
Inductive Stage :=
  | stage_compute_overlapping_tiles
  | stage_read_all_tiles (ensure_coords : bool)
  | stage_filter_all_tiles (ensure_coords : bool)
  | stage_compute_overlapping_coords
  | stage_compute_tile_coords
  | stage_sort_coords
  | stage_dedup_coords
  | stage_compute_cell_ranges
  | stage_init_tile_fragment_dense_cell_range_iters
  | stage_compute_dense_cell_ranges (slab : Slab)
  | stage_compute_dense_overlapping_tiles_and_cell_ranges
  | stage_compute_overlapping_tiles_2
  | stage_read_tiles (attr : string)
  | stage_filter_tiles (attr : string)
  | stage_compute_range_coords
  | stage_compute_subarray_coords.

(** What the reader asks of the domain, of the storage manager and of the
    stages of the pipeline that run before the cells are copied; and the
    facts of the build and of the process the code depends on. *)
Record Env := mkEnv {
  (** whether [assert] is compiled in *)
  env_assertions : bool;
  (** whether [std::malloc] succeeds *)
  env_malloc : bool;
  (** [config.get(param, &value)] and [utils::parse::convert(value, &n)] *)
  env_config_get : string -> Status * string;
  env_convert : string -> Status * Z;
  (** [Domain::split_subarray]: the status and the two halves, null when
      the subarray cannot be split *)
  env_split_subarray : Subarray -> Layout -> Status * (option Subarray * option Subarray);
  (** [StorageManager::array_compute_est_read_buffer_sizes]: the status and
      the estimated sizes of the fixed and of the var-sized part of every
      attribute *)
  env_est_read_buffer_sizes : list FragmentMetadata -> Subarray -> Status * (string -> Q * Q);
  (** the cell ranges [compute_cell_ranges] delivers in [sparse_read<T>] *)
  env_sparse_cell_ranges : Layout -> list FragmentMetadata -> Subarray -> list CellRange;
  (** the overlapping cell ranges
      [compute_dense_overlapping_tiles_and_cell_ranges] delivers in
      [dense_read<T>] *)
  env_dense_cell_ranges : Layout -> list FragmentMetadata -> Subarray -> list CellRange;
  (** [DenseCellRangeIter<T>] over the partition: the status of [begin()]
      and the cell slabs *)
  env_dense_slabs : Layout -> Subarray -> Status * list Slab;
  (** the cell ranges [compute_cell_ranges] delivers in [sparse_read_2<T>],
      on the current partition of the partitioner *)
  env_sparse_cell_ranges_2 : Layout -> list FragmentMetadata -> option Subarray
                             -> list CellRange;
  (** the status a stage returns on a partition *)
  env_stage : Layout -> list FragmentMetadata -> option Subarray -> Stage -> Status;
  (** [constants::fill_value(type)]: the address of the fill value *)
  env_fill_value : Datatype -> Z;
  (** the bytes stored at an address of the process *)
  env_deref : Z -> list Z
}.

(** *** Field updates *)

Definition rs_set_cur (s : ReadState) (p : option Subarray) : ReadState :=
  mkRS p (subarray_ s) (subarray_partitions_ s) (initialized_ s) (overflowed_ s)
       (unsplittable_ s).

Definition rs_set_subarray (s : ReadState) (p : option Subarray) : ReadState :=
  mkRS (cur_subarray_partition_ s) p (subarray_partitions_ s) (initialized_ s)
       (overflowed_ s) (unsplittable_ s).

Definition rs_set_partitions (s : ReadState) (l : list Subarray) : ReadState :=
  mkRS (cur_subarray_partition_ s) (subarray_ s) l (initialized_ s) (overflowed_ s)
       (unsplittable_ s).

Definition rs_set_initialized (s : ReadState) (b : bool) : ReadState :=
  mkRS (cur_subarray_partition_ s) (subarray_ s) (subarray_partitions_ s) b
       (overflowed_ s) (unsplittable_ s).

Definition rs_set_overflowed (s : ReadState) (b : bool) : ReadState :=
  mkRS (cur_subarray_partition_ s) (subarray_ s) (subarray_partitions_ s)
       (initialized_ s) b (unsplittable_ s).

Definition rs_set_unsplittable (s : ReadState) (b : bool) : ReadState :=
  mkRS (cur_subarray_partition_ s) (subarray_ s) (subarray_partitions_ s)
       (initialized_ s) (overflowed_ s) b.

Definition rs2_set_overflowed (s : ReadState2) (b : bool) : ReadState2 :=
  mkRS2 (set_ s) b (unsplittable_2 s) (partitioner_ s).

Definition rs2_set_unsplittable (s : ReadState2) (b : bool) : ReadState2 :=
  mkRS2 (set_ s) (overflowed_2 s) b (partitioner_ s).

Definition rs2_set_partitioner (s : ReadState2) (p : SubarrayPartitioner) : ReadState2 :=
  mkRS2 (set_ s) (overflowed_2 s) (unsplittable_2 s) p.

Definition with_read_state (r : Reader) (s : ReadState) : Reader :=
  mkReader (array_schema_ r) (storage_manager_ r) (attr_buffers_ r) (attributes_ r)
           (fragment_metadata_ r) (layout_ r) s (read_state_2_ r) (sparse_mode_ r)
           (memory_budget_ r) (memory_budget_var_ r) (mem_ r) (cancel_ r).

Definition with_read_state_2 (r : Reader) (s : ReadState2) : Reader :=
  mkReader (array_schema_ r) (storage_manager_ r) (attr_buffers_ r) (attributes_ r)
           (fragment_metadata_ r) (layout_ r) (read_state_ r) s (sparse_mode_ r)
           (memory_budget_ r) (memory_budget_var_ r) (mem_ r) (cancel_ r).

Definition with_layout (r : Reader) (l : Layout) : Reader :=
  mkReader (array_schema_ r) (storage_manager_ r) (attr_buffers_ r) (attributes_ r)
           (fragment_metadata_ r) l (read_state_ r) (read_state_2_ r) (sparse_mode_ r)
           (memory_budget_ r) (memory_budget_var_ r) (mem_ r) (cancel_ r).

Definition with_mem (r : Reader) (m : Mem) : Reader :=
  mkReader (array_schema_ r) (storage_manager_ r) (attr_buffers_ r) (attributes_ r)
           (fragment_metadata_ r) (layout_ r) (read_state_ r) (read_state_2_ r)
           (sparse_mode_ r) (memory_budget_ r) (memory_budget_var_ r) m (cancel_ r).

Definition with_cancel (r : Reader) (c : list bool) : Reader :=
  mkReader (array_schema_ r) (storage_manager_ r) (attr_buffers_ r) (attributes_ r)
           (fragment_metadata_ r) (layout_ r) (read_state_ r) (read_state_2_ r)
           (sparse_mode_ r) (memory_budget_ r) (memory_budget_var_ r) (mem_ r) c.

Definition with_buffers (r : Reader) (b : gmap string AttributeBuffer)
    (a : list string) : Reader :=
  mkReader (array_schema_ r) (storage_manager_ r) b a
           (fragment_metadata_ r) (layout_ r) (read_state_ r) (read_state_2_ r)
           (sparse_mode_ r) (memory_budget_ r) (memory_budget_var_ r) (mem_ r)
           (cancel_ r).

Definition with_budgets (r : Reader) (b bv : Z) : Reader :=
  mkReader (array_schema_ r) (storage_manager_ r) (attr_buffers_ r) (attributes_ r)
           (fragment_metadata_ r) (layout_ r) (read_state_ r) (read_state_2_ r)
           (sparse_mode_ r) b bv (mem_ r) (cancel_ r).

(** Both overflow flags are raised by the copiers. *)
Definition set_overflowed_both (r : Reader) : Reader :=
  with_read_state_2 (with_read_state r (rs_set_overflowed (read_state_ r) true))
                    (rs2_set_overflowed (read_state_2_ r) true).

(** *** The partitioner of the new path *)

(** [ReadState2::done()] *)
Definition done (s : ReadState2) : bool :=
  match sp_pending (partitioner_ s) with [] => true | _ => false end.

(** Modelled from the spec: [SubarrayPartitioner::set_result_budget]. *)
Definition set_result_budget (p : SubarrayPartitioner) (attr : string) (b bv : Z) :
    SubarrayPartitioner :=
  mkSP (sp_current p) (sp_pending p) (<[attr := (b, bv)]> (sp_budget p))
       (sp_memory_budget p).

(** Modelled from the spec: [SubarrayPartitioner::set_memory_budget]. *)
Definition set_memory_budget (p : SubarrayPartitioner) (b bv : Z) : SubarrayPartitioner :=
  mkSP (sp_current p) (sp_pending p) (sp_budget p) (b, bv).

(** Modelled from the spec: [ReadState2::next()], the top of the pending
    stack becomes the current partition. *)
Definition next (s : ReadState2) : Status * ReadState2 :=
  let p := partitioner_ s in
  match sp_pending p with
  | [] => (Ok, rs2_set_partitioner s (mkSP None [] (sp_budget p) (sp_memory_budget p)))
  | x :: rest =>
    (Ok, rs2_set_partitioner s (mkSP (Some x) rest (sp_budget p) (sp_memory_budget p)))
  end.

(** Modelled from the spec: [ReadState2::split_current<T>()], the current
    partition is replaced by its first half and the second half is pushed;
    a partition that cannot be split is marked unsplittable. *)
Definition split_current (E : Env) (layout : Layout) (s : ReadState2) :
    Status * ReadState2 :=
  let p := partitioner_ s in
  match sp_current p with
  | None => (Ok, rs2_set_unsplittable s true)
  | Some cur =>
    match env_split_subarray E cur layout with
    | (Ok, (Some s1, Some s2)) =>
      (Ok, rs2_set_unsplittable
             (rs2_set_partitioner s
                (mkSP (Some s1) (s2 :: sp_pending p) (sp_budget p) (sp_memory_budget p)))
             false)
    | (Ok, _) => (Ok, rs2_set_unsplittable s true)
    | (st, _) => (st, s)
    end
  end.

(** *** The interface of the reader *)

(** [Reader::Reader()], with the memory of the caller. *)
Definition Reader_new (m : Mem) (cancel : list bool) : Reader :=
  mkReader None false ∅ [] [] ROW_MAJOR
           (mkRS None None [] false false false)
           (mkRS2 false false false (mkSP None [] ∅ (0, 0)))
           false 0 0 m cancel.

(** [Reader::incomplete] *)
Definition incomplete (r : Reader) : bool :=
  if set_ (read_state_2_ r)
  then overflowed_2 (read_state_2_ r) || negb (done (read_state_2_ r))
  else overflowed_ (read_state_ r)
       || bool_decide (cur_subarray_partition_ (read_state_ r) <> None).

(** [Reader::set_layout] *)
Definition set_layout (r : Reader) (layout : Layout) : Status * Reader :=
  (Ok, with_layout r layout).

(** [Reader::has_coords] *)
Definition has_coords (r : Reader) : bool :=
  bool_decide (is_Some (attr_buffers_ r !! coords)).

(** [Reader::no_results] *)
Definition no_results (r : Reader) : bool :=
  forallb (fun kv => match buffer_size_ (snd kv) with
                     | Some p => load (mem_ r) p =? 0
                     | None => true
                     end)
          (map_to_list (attr_buffers_ r)).

(** One step of the loop of [zero_out_buffer_sizes]. *)
Definition zero_out_one (m : Mem) (b : AttributeBuffer) : Mem :=
  let m1 := match buffer_size_ b with Some p => store m p 0 | None => m end in
  match buffer_var_size_ b with Some p => store m1 p 0 | None => m1 end.

(** [Reader::zero_out_buffer_sizes] *)
Definition zero_out_buffer_sizes (r : Reader) : Reader :=
  with_mem r (foldl (fun m kv => zero_out_one m (snd kv)) (mem_ r)
                    (map_to_list (attr_buffers_ r))).

(** One step of the loop of [reset_buffer_sizes]. *)
Definition reset_one (m : Mem) (b : AttributeBuffer) : Mem :=
  let m1 := match buffer_size_ b with
            | Some p => store m p (original_buffer_size_ b)
            | None => m
            end in
  match buffer_var_size_ b with
  | Some p => store m1 p (original_buffer_var_size_ b)
  | None => m1
  end.

(** [Reader::reset_buffer_sizes] *)
Definition reset_buffer_sizes (r : Reader) : Reader :=
  with_mem r (foldl (fun m kv => reset_one m (snd kv)) (mem_ r)
                    (map_to_list (attr_buffers_ r))).

(** [Reader::set_buffer] for a fixed-sized attribute *)
Definition set_buffer (r : Reader) (attr : string) (buffer buffer_size : ptr) :
    Status * Reader :=
  if bool_decide (buffer = None) || bool_decide (buffer_size = None) then
    (Err ReaderError "Cannot set buffer; Buffer or buffer size is null", r)
  else match array_schema_ r with
  | None => (Err ReaderError "Cannot set buffer; Array schema not set", r)
  | Some schema =>
    if negb (String.eqb attr coords) && bool_decide (attribute schema attr = None) then
      (Err ReaderError "Cannot set buffer; Invalid attribute", r)
    else if negb (String.eqb attr coords) && var_size schema attr then
      (Err WriterError ("Cannot set buffer; Input attribute '" +:+ attr +:+ "' is var-sized"), r)
    else
      let attr_exists := bool_decide (is_Some (attr_buffers_ r !! attr)) in
      if initialized_ (read_state_ r) && negb attr_exists then
        (Err ReaderError
             ("Cannot set buffer for new attribute '" +:+ attr +:+ "' after initialization"), r)
      else
        let attrs := if attr_exists then attributes_ r else attributes_ r ++ [attr] in
        let rs2 := if set_ (read_state_2_ r)
                   then rs2_set_partitioner (read_state_2_ r)
                          (set_result_budget (partitioner_ (read_state_2_ r)) attr
                             (match buffer_size with Some p => load (mem_ r) p | None => 0 end)
                             0)
                   else read_state_2_ r in
        (Ok, with_read_state_2
               (with_buffers r
                  (<[attr := AttributeBuffer_new (mem_ r) buffer None buffer_size None]>
                     (attr_buffers_ r))
                  attrs)
               rs2)
  end.

(** [Reader::set_buffer] for a var-sized attribute *)
Definition set_buffer_var (r : Reader) (attr : string)
    (buffer_off buffer_off_size buffer_val buffer_val_size : ptr) : Status * Reader :=
  if bool_decide (buffer_off = None) || bool_decide (buffer_off_size = None)
     || bool_decide (buffer_val = None) || bool_decide (buffer_val_size = None) then
    (Err ReaderError "Cannot set buffer; Buffer or buffer size is null", r)
  else match array_schema_ r with
  | None => (Err ReaderError "Cannot set buffer; Array schema not set", r)
  | Some schema =>
    if negb (String.eqb attr coords) && bool_decide (attribute schema attr = None) then
      (Err WriterError "Cannot set buffer; Invalid attribute", r)
    else if negb (negb (String.eqb attr coords) && var_size schema attr) then
      (Err WriterError ("Cannot set buffer; Input attribute '" +:+ attr +:+ "' is fixed-sized"), r)
    else
      let attr_exists := bool_decide (is_Some (attr_buffers_ r !! attr)) in
      if initialized_ (read_state_ r) && negb attr_exists then
        (Err ReaderError
             ("Cannot set buffer for new attribute '" +:+ attr +:+ "' after initialization"), r)
      else
        let attrs := if attr_exists then attributes_ r else attributes_ r ++ [attr] in
        let rs2 := if set_ (read_state_2_ r)
                   then rs2_set_partitioner (read_state_2_ r)
                          (set_result_budget (partitioner_ (read_state_2_ r)) attr
                             (match buffer_off_size with Some p => load (mem_ r) p | None => 0 end)
                             (match buffer_val_size with Some p => load (mem_ r) p | None => 0 end))
                   else read_state_2_ r in
        (Ok, with_read_state_2
               (with_buffers r
                  (<[attr := AttributeBuffer_new (mem_ r) buffer_off buffer_val
                               buffer_off_size buffer_val_size]>
                     (attr_buffers_ r))
                  attrs)
               rs2)
  end.

(** [Reader::clear_read_state] *)
Definition clear_read_state (r : Reader) : Reader :=
  with_read_state r (mkRS None None [] false false (unsplittable_ (read_state_ r))).

(** [Reader::set_subarray(const void* )]: the legacy subarray; a null
    argument stands for the whole domain.  Without a schema the call
    dereferences a null pointer. *)
Definition set_subarray (E : Env) (r : Reader) (subarray : option Subarray) :
    Run (Status * Reader) :=
  let r := if bool_decide (subarray_ (read_state_ r) <> None)
           then clear_read_state r else r in
  match array_schema_ r with
  | None => Aborted
  | Some schema =>
    if negb (env_malloc E) then
      Ret (Err ReaderError "Memory allocation for read state subarray failed", r)
    else
      Ret (Ok, with_read_state r
                 (rs_set_subarray (read_state_ r)
                    (Some (match subarray with
                           | Some s => s
                           | None => schema_domain schema
                           end))))
  end.

(** [Reader::set_subarray(const Subarray&)]: the subarray of the new path,
    handed to a fresh partitioner, and its layout. *)
Definition set_subarray_2 (r : Reader) (subarray : Subarray) (layout : Layout) :
    Status * Reader :=
  (Ok, with_layout
         (with_read_state_2 r (mkRS2 true false false (mkSP None [subarray] ∅ (0, 0))))
         layout).

(** [Reader::optimize_layout_for_1D] *)
Definition optimize_layout_for_1D (r : Reader) : Run Reader :=
  match array_schema_ r with
  | None => Aborted
  | Some schema =>
    if schema_dim_num schema =? 1 then Ret (with_layout r GLOBAL_ORDER) else Ret r
  end.

(** *** The legacy planner: [Reader::next_subarray_partition] *)

(** [round(x)] of <cmath>, half away from zero. *)
Definition round (x : Q) : Z :=
  if Qle_bool 0 x then Qfloor (x + (1 # 2)) else - Qfloor (- x + (1 # 2)).

(** "Handle case of no results": the estimate of the fixed part is zero
    for every attribute. *)
Definition est_no_results (est : string -> Q * Q)
    (buffer_sizes_map : gmap string AttributeBuffer) : bool :=
  forallb (fun kv => Qeq_bool (fst (est (fst kv))) 0) (map_to_list buffer_sizes_map).

(** "Handle case of split": for some attribute the rounded estimate
    exceeds the original size of its buffer. *)
Definition est_must_split (schema : ArraySchema) (est : string -> Q * Q)
    (buffer_sizes_map : gmap string AttributeBuffer) : bool :=
  existsb (fun kv =>
             (original_buffer_size_ (snd kv) <? u64 (round (fst (est (fst kv)))))
             || (var_size schema (fst kv)
                 && (original_buffer_var_size_ (snd kv)
                     <? u64 (round (snd (est (fst kv)))))))
          (map_to_list buffer_sizes_map).

(** How the search for the next partition ends. *)
Inductive Search :=
| Found (next_partition : Subarray) (unsplittable : bool) (pending : list Subarray)
| NotFound
| Failed (st : Status).

(** The [do ... while (!found && !subarray_partitions_.empty())] loop;
    the list is not empty when the loop is entered. *)
Fixpoint search_partition (fuel : nat) (E : Env) (schema : ArraySchema) (r : Reader)
    (pending : list Subarray) : Run Search :=
  match fuel with
  | O => OutOfFuel
  | S fuel' =>
    match pending with
    | [] => Aborted
    | next_partition :: rest =>
      match env_est_read_buffer_sizes E (fragment_metadata_ r) next_partition with
      | (Ok, est) =>
        if est_no_results est (attr_buffers_ r) then
          match rest with
          | [] => Ret NotFound
          | _ => search_partition fuel' E schema r rest
          end
        else if est_must_split schema est (attr_buffers_ r) then
          match env_split_subarray E next_partition (layout_ r) with
          | (Ok, (Some subarray_1, Some subarray_2)) =>
            search_partition fuel' E schema r (subarray_1 :: subarray_2 :: rest)
          | (Ok, _) => Ret (Found next_partition true rest)
          | (st, _) => Ret (Failed st)
          end
        else Ret (Found next_partition false rest)
      | (st, _) => Ret (Failed st)
      end
    end
  end.

(** [Reader::next_subarray_partition] *)
Definition next_subarray_partition (fuel : nat) (E : Env) (r : Reader) :
    Run (Status * Reader) :=
  match array_schema_ r with
  | None => Aborted
  | Some schema =>
    let rs := rs_set_unsplittable (read_state_ r) false in
    (* Handle case of overflow - the current partition must be split *)
    let split :=
      if overflowed_ rs then
        match cur_subarray_partition_ rs with
        | None => Aborted
        | Some cur =>
          match snd (env_split_subarray E cur (layout_ r)) with
          | (Some subarray_1, Some subarray_2) =>
            Ret (Some (rs_set_partitions rs
                         (subarray_1 :: subarray_2 :: subarray_partitions_ rs)))
          | _ => Ret None
          end
        end
      else Ret (Some rs) in
    o ← split;
    match o with
    | None => Ret (Ok, with_read_state r (rs_set_unsplittable rs true))
    | Some rs =>
      match subarray_partitions_ rs with
      | [] => Ret (Ok, with_read_state r (rs_set_cur rs None))
      | pending =>
        found ← search_partition fuel E schema r pending;
        match found with
        | Failed st => Ret (st, clear_read_state (with_read_state r rs))
        | NotFound => Ret (Ok, with_read_state r (rs_set_cur (rs_set_partitions rs []) None))
        | Found next_partition unsplittable rest =>
          match cur_subarray_partition_ rs with
          | None => Aborted
          | Some _ =>
            Ret (Ok, with_read_state r
                       (rs_set_cur
                          (rs_set_partitions
                             (if unsplittable then rs_set_unsplittable rs true else rs)
                             rest)
                          (Some next_partition)))
          end
        end
      end
    end
  end.

(** *** The cell copiers *)

(** Modelled from the spec: the macro [RETURN_CANCEL_OR_ERROR] of
    query_macros.h.  An error is returned as it is; after a success the
    storage manager is polled, and a cancellation in progress is returned
    as an error. *)
Definition RETURN_CANCEL_OR_ERROR (res : Run (Status * Reader))
    (k : Reader -> Run (Status * Reader)) : Run (Status * Reader) :=
  '(st, r) ← res;
  if ok st then
    match cancel_ r with
    | true :: rest => Ret (Err QueryError "Query cancelled.", with_cancel r rest)
    | false :: rest => k (with_cancel r rest)
    | [] => k r
    end
  else Ret (st, r).

(** A cell range with the tiles of the attribute looked up: no tiles for
    an empty range. *)
Record RangeTiles := mkRT {
  rt_tiles : option (Tile * Tile);
  rt_start : Z;
  rt_end : Z
}.

(** [cr.tile_->attr_tiles_.find(attribute)->second]; the iterator is
    dereferenced unchecked, so a missing entry leaves no result. *)
Definition range_tiles (attr : string) (cr : CellRange) : option RangeTiles :=
  match cr_tile_ cr with
  | None => Some (mkRT None (cr_start_ cr) (cr_end_ cr))
  | Some t =>
    match ot_attr_tiles_ t !! attr with
    | Some tiles => Some (mkRT (Some tiles) (cr_start_ cr) (cr_end_ cr))
    | None => None
    end
  end.

(** [(cr.end_ - cr.start_ + 1) * cell_size] *)
Definition bytes_to_copy (cell_size : Z) (cr : CellRange) : Z :=
  u64 (u64 (u64 (cr_end_ cr - cr_start_ cr) + 1) * cell_size).

(** "Precompute the cell range destination offsets in the buffer": the
    offsets and the final [buffer_offset]. *)
Fixpoint fixed_offsets (cell_size : Z) (crs : list CellRange) (buffer_offset : Z) :
    list Z * Z :=
  match crs with
  | [] => ([], buffer_offset)
  | cr :: rest =>
    let res := fixed_offsets cell_size rest (u64 (buffer_offset + bytes_to_copy cell_size cr)) in
    (buffer_offset :: fst res, snd res)
  end.

(** The loop that writes the fill value [fill_num] times. *)
Fixpoint fill_loop (fill_num : nat) (m : Mem) (buffer : loc) (offset : Z)
    (fill_value : list Z) (fill_size : Z) : Mem :=
  match fill_num with
  | O => m
  | S n =>
    fill_loop n (memcpy m buffer offset fill_value fill_size) buffer
              (u64 (offset + fill_size)) fill_value fill_size
  end.

(** The body of the parallel loop of [copy_fixed_cells] for one range;
    the buffer and the tile are dereferenced unchecked. *)
Definition copy_fixed_range (E : Env) (attr : string) (buffer : ptr) (buffer_size : Z)
    (cell_size fill_size : Z) (fill_value : list Z) (m : Mem) (cr : CellRange)
    (offset : Z) : Run Mem :=
  let n := bytes_to_copy cell_size cr in
  if env_assertions E && (buffer_size <? u64 (offset + n)) then Aborted
  else match buffer, range_tiles attr cr with
  | Some buffer, Some (mkRT None _ _) =>
    Ret (fill_loop (Z.to_nat (n / fill_size)) m buffer offset fill_value fill_size)
  | Some buffer, Some (mkRT (Some (tile, _)) _ _) =>
    Ret (memcpy m buffer offset
                (drop (Z.to_nat (u64 (cr_start_ cr * cell_size))) (tile_data tile)) n)
  | _, _ => Aborted
  end.

(** The parallel loop, its tasks one after the other: they write to
    disjoint parts of the buffer. *)
Fixpoint copy_fixed_ranges (E : Env) (attr : string) (buffer : ptr) (buffer_size : Z)
    (cell_size fill_size : Z) (fill_value : list Z) (m : Mem)
    (crs : list CellRange) (cr_offsets : list Z) : Run Mem :=
  match crs, cr_offsets with
  | cr :: crs', offset :: offsets' =>
    m' ← copy_fixed_range E attr buffer buffer_size cell_size fill_size fill_value m cr offset;
    copy_fixed_ranges E attr buffer buffer_size cell_size fill_size fill_value m' crs' offsets'
  | _, _ => Ret m
  end.

(** [Reader::copy_fixed_cells] *)
Definition copy_fixed_cells (E : Env) (r : Reader) (attr : string)
    (cell_ranges : list CellRange) : Run (Status * Reader) :=
  match attr_buffers_ r !! attr, array_schema_ r with
  | Some ab, Some schema =>
    let cell_size := cell_size schema attr in
    let type := type schema attr in
    let fill_size := datatype_size type in
    let fill_value := env_fill_value E type in
    if env_assertions E && (fill_value =? 0) then Aborted
    else
      let offs := fixed_offsets cell_size cell_ranges 0 in
      let buffer_offset := snd offs in
      match buffer_size_ ab with
      | None => Aborted
      | Some buffer_size =>
        (* Handle overflow *)
        if load (mem_ r) buffer_size <? buffer_offset then
          Ret (Ok, set_overflowed_both r)
        else
          m ← copy_fixed_ranges E attr (buffer_ ab) (load (mem_ r) buffer_size) cell_size
                fill_size (env_deref E fill_value) (mem_ r) cell_ranges (fst offs);
          (* Update buffer offsets *)
          Ret (Ok, with_mem r (store m buffer_size buffer_offset))
      end
  | _, _ => Aborted
  end.

(** The size of a var-sized cell, from the offsets of its tile. *)
Definition cell_var_size (fill_size : Z) (cr : RangeTiles) (cell_idx : Z) : Z :=
  match rt_tiles cr with
  | None => fill_size
  | Some (tile, tile_var) =>
    let tile_offsets := u64_at (tile_data tile) in
    if negb (cell_idx =? u64 (tile_cell_num tile - 1))
    then u64 (tile_offsets (cell_idx + 1) - tile_offsets cell_idx)
    else u64 (tile_size tile_var - u64 (tile_offsets cell_idx - tile_offsets 0))
  end.

(** The cells [cr.start_ .. cr.end_] of a range. *)
Definition cells (cr : RangeTiles) : list Z :=
  seqZ (rt_start cr) (rt_end cr - rt_start cr + 1).

(** The destinations of the cells of one range: the two offset vectors and
    the totals so far. *)
Fixpoint cell_destinations (fill_size : Z) (cr : RangeTiles) (idxs : list Z)
    (total_offset_size total_var_size : Z) : list Z * list Z * Z * Z :=
  match idxs with
  | [] => ([], [], total_offset_size, total_var_size)
  | cell_idx :: rest =>
    let '(oo, vo, t1, t2) :=
      cell_destinations fill_size cr rest
        (u64 (total_offset_size + cell_var_offset_size))
        (u64 (total_var_size + cell_var_size fill_size cr cell_idx)) in
    (total_offset_size :: oo, total_var_size :: vo, t1, t2)
  end.

(** The loop of [compute_var_cell_destinations] over the ranges. *)
Fixpoint var_cell_destinations (fill_size : Z) (crs : list RangeTiles)
    (total_offset_size total_var_size : Z) :
    list (list Z) * list (list Z) * Z * Z :=
  match crs with
  | [] => ([], [], total_offset_size, total_var_size)
  | cr :: rest =>
    let '(oo, vo, t1, t2) :=
      cell_destinations fill_size cr (cells cr) total_offset_size total_var_size in
    let '(ooo, vvo, t1', t2') := var_cell_destinations fill_size rest t1 t2 in
    (oo :: ooo, vo :: vvo, t1', t2')
  end.

(** [Reader::compute_var_cell_destinations]; its status is always
    success. *)
Definition compute_var_cell_destinations (schema : ArraySchema) (attr : string)
    (crs : list RangeTiles) : list (list Z) * list (list Z) * Z * Z :=
  var_cell_destinations (datatype_size (type schema attr)) crs 0 0.

(** The copy of one cell: its offset goes to the offsets buffer, its
    value to the values buffer.  For an empty range the source of the
    value is [&fill_value], the pointer object itself: [fill_ptr] holds
    its eight bytes. *)
Definition copy_var_cell (buffer buffer_var : loc) (fill_size : Z) (fill_ptr : list Z)
    (cr : RangeTiles) (offset_offsets var_offsets : list Z) (m : Mem) (cell_idx : Z) : Mem :=
  let dest_vec_idx := Z.to_nat (u64 (cell_idx - rt_start cr)) in
  let offset_dest := default 0 (offset_offsets !! dest_vec_idx) in
  let var_offset := default 0 (var_offsets !! dest_vec_idx) in
  (* Copy offset *)
  let m := memcpy m buffer offset_dest (le_bytes 8 var_offset) cell_var_offset_size in
  (* Copy variable-sized value *)
  match rt_tiles cr with
  | None => memcpy m buffer_var var_offset fill_ptr fill_size
  | Some (tile, tile_var) =>
    let tile_offsets := u64_at (tile_data tile) in
    memcpy m buffer_var var_offset
           (drop (Z.to_nat (u64 (tile_offsets cell_idx - tile_offsets 0))) (tile_data tile_var))
           (cell_var_size fill_size cr cell_idx)
  end.

(** The parallel loop of [copy_var_cells], its tasks one after the other. *)
Fixpoint copy_var_ranges (buffer buffer_var : loc) (fill_size : Z) (fill_ptr : list Z)
    (m : Mem) (crs : list RangeTiles) (offset_offsets_per_cr var_offsets_per_cr : list (list Z)) :
    Mem :=
  match crs, offset_offsets_per_cr, var_offsets_per_cr with
  | cr :: crs', oo :: ooo, vo :: vvo =>
    copy_var_ranges buffer buffer_var fill_size fill_ptr
      (foldl (copy_var_cell buffer buffer_var fill_size fill_ptr cr oo vo) m (cells cr))
      crs' ooo vvo
  | _, _, _ => m
  end.

(** [Reader::copy_var_cells] *)
Definition copy_var_cells (E : Env) (r : Reader) (attr : string)
    (cell_ranges : list CellRange) : Run (Status * Reader) :=
  match attr_buffers_ r !! attr, array_schema_ r with
  | Some ab, Some schema =>
    let type := type schema attr in
    let fill_size := datatype_size type in
    let fill_value := env_fill_value E type in
    if env_assertions E && (fill_value =? 0) then Aborted
    else
      match mapM (range_tiles attr) cell_ranges, buffer_size_ ab, buffer_var_size_ ab with
      | Some crs, Some buffer_size, Some buffer_var_size =>
        let '(offset_offsets_per_cr, var_offsets_per_cr, total_offset_size, total_var_size) :=
          compute_var_cell_destinations schema attr crs in
        (* Check for overflow and return early (without copying) in that case *)
        if (load (mem_ r) buffer_size <? total_offset_size)
           || (load (mem_ r) buffer_var_size <? total_var_size) then
          Ret (Ok, set_overflowed_both r)
        else
          match buffer_ ab, buffer_var_ ab with
          | Some buffer, Some buffer_var =>
            let m := copy_var_ranges buffer buffer_var fill_size (le_bytes 8 fill_value)
                       (mem_ r) crs offset_offsets_per_cr var_offsets_per_cr in
            (* Update buffer offsets *)
            Ret (Ok, with_mem r (store (store m buffer_size total_offset_size)
                                       buffer_var_size total_var_size))
          | _, _ => Aborted
          end
      | _, _, _ => Aborted
      end
  | _, _ => Aborted
  end.

(** [Reader::copy_cells] *)
Definition copy_cells (E : Env) (r : Reader) (attr : string)
    (cell_ranges : list CellRange) : Run (Status * Reader) :=
  match cell_ranges with
  | [] => Ret (Ok, zero_out_buffer_sizes r)
  | _ =>
    match array_schema_ r with
    | None => Aborted
    | Some schema =>
      if var_size schema attr then copy_var_cells E r attr cell_ranges
      else copy_fixed_cells E r attr cell_ranges
    end
  end.

(** *** The reads *)

(** The coordinate types [dense_read] dispatches on. *)
Definition integral (t : Datatype) : bool :=
  match t with
  | INT8 | UINT8 | INT16 | UINT16 | INT32 | UINT32 | INT64 | UINT64 => true
  | _ => false
  end.

(** The bytes of a coordinate tuple of [T] values. *)
Definition coords_bytes (sizeof_T : Z) (cs : list Z) : list Z :=
  concat (map (le_bytes (Z.to_nat sizeof_T)) cs).

(** [Reader::fill_coords_row_slab], from the cell [i] of the slab on. *)
Fixpoint fill_coords_row_slab (dim_num sizeof_T : Z) (start : list Z) (i : Z) (num : nat)
    (m : Mem) (buff : loc) (offset : Z) : Mem * Z :=
  match num with
  | O => (m, offset)
  | S n =>
    (* First dim-1 dimensions are copied as they are *)
    let '(m, offset) :=
      if 1 <? dim_num
      then (memcpy m buff offset (coords_bytes sizeof_T start) ((dim_num - 1) * sizeof_T),
            u64 (offset + (dim_num - 1) * sizeof_T))
      else (m, offset) in
    (* Last dimension is incremented by `i` *)
    let new_coord := default 0 (start !! Z.to_nat (dim_num - 1)) + i in
    fill_coords_row_slab dim_num sizeof_T start (i + 1) n
      (memcpy m buff offset (le_bytes (Z.to_nat sizeof_T) new_coord) sizeof_T)
      buff (u64 (offset + sizeof_T))
  end.

(** [Reader::fill_coords_col_slab], from the cell [i] of the slab on. *)
Fixpoint fill_coords_col_slab (dim_num sizeof_T : Z) (start : list Z) (i : Z) (num : nat)
    (m : Mem) (buff : loc) (offset : Z) : Mem * Z :=
  match num with
  | O => (m, offset)
  | S n =>
    (* First dimension is incremented by `i` *)
    let new_coord := default 0 (start !! O) + i in
    let m := memcpy m buff offset (le_bytes (Z.to_nat sizeof_T) new_coord) sizeof_T in
    let offset := u64 (offset + sizeof_T) in
    (* Last dim-1 dimensions are copied as they are *)
    let '(m, offset) :=
      if 1 <? dim_num
      then (memcpy m buff offset (coords_bytes sizeof_T (tl start)) ((dim_num - 1) * sizeof_T),
            u64 (offset + (dim_num - 1) * sizeof_T))
      else (m, offset) in
    fill_coords_col_slab dim_num sizeof_T start (i + 1) n m buff offset
  end.

(** The loop of [fill_coords] over the cell slabs: the memory, the offset
    reached, and whether the buffer overflowed. *)
Fixpoint fill_coords_slabs (schema : ArraySchema) (layout : Layout) (coords_buff : loc)
    (coords_buff_size : Z) (slabs : list Slab) (m : Mem) (coords_buff_offset : Z) :
    Mem * Z * bool :=
  match slabs with
  | [] => (m, coords_buff_offset, false)
  | cell_it :: rest =>
    let coords_num := u64 (u64 (slab_range_end cell_it - slab_range_start cell_it) + 1) in
    (* Check for overflow *)
    if coords_buff_size <? u64 (u64 (coords_num * coords_size schema) + coords_buff_offset)
    then (m, coords_buff_offset, true)
    else
      let sizeof_T := datatype_size (schema_coords_type schema) in
      let '(m, offset) :=
        if Layout_eqb layout ROW_MAJOR
           || (Layout_eqb layout GLOBAL_ORDER
               && Layout_eqb (schema_cell_order schema) ROW_MAJOR)
        then fill_coords_row_slab (schema_dim_num schema) sizeof_T
               (slab_coords_start cell_it) 0 (Z.to_nat coords_num) m coords_buff
               coords_buff_offset
        else fill_coords_col_slab (schema_dim_num schema) sizeof_T
               (slab_coords_start cell_it) 0 (Z.to_nat coords_num) m coords_buff
               coords_buff_offset in
      fill_coords_slabs schema layout coords_buff coords_buff_size rest m offset
  end.

(** [Reader::fill_coords<T>] *)
Definition fill_coords (E : Env) (r : Reader) : Run (Status * Reader) :=
  match attr_buffers_ r !! coords, array_schema_ r,
        cur_subarray_partition_ (read_state_ r) with
  | Some ab, Some schema, Some subarray =>
    match buffer_ ab, buffer_size_ ab with
    | Some coords_buff, Some size_ptr =>
      let coords_buff_size := load (mem_ r) size_ptr in
      RETURN_CANCEL_OR_ERROR (Ret (fst (env_dense_slabs E (layout_ r) subarray), r))
        (fun r =>
           let '(m, coords_buff_offset, overflow) :=
             fill_coords_slabs schema (layout_ r) coords_buff coords_buff_size
               (snd (env_dense_slabs E (layout_ r) subarray)) (mem_ r) 0 in
           if overflow then
             Ret (Ok, with_read_state (with_mem r m)
                        (rs_set_overflowed (read_state_ r) true))
           else
             (* Update the coords buffer size *)
             Ret (Ok, with_mem r (store m size_ptr coords_buff_offset)))
    | _, _ => Aborted
    end
  | _, _, _ => Aborted
  end.

(** The loop "Copy cells" of [dense_read<T>]. *)
Fixpoint dense_copy_cells (E : Env) (attrs : list string) (cell_ranges : list CellRange)
    (r : Reader) : Run (Status * Reader) :=
  match attrs with
  | [] => Ret (Ok, r)
  | attr :: rest =>
    if overflowed_ (read_state_ r) then Ret (Ok, r)
    else if String.eqb attr coords then dense_copy_cells E rest cell_ranges r
    else RETURN_CANCEL_OR_ERROR (copy_cells E r attr cell_ranges)
           (fun r => dense_copy_cells E rest cell_ranges r)
  end.

(** The stages of a read run one after the other, each under
    [RETURN_CANCEL_OR_ERROR]: the first that fails ends the read with its
    status, and the storage manager is polled after each that succeeds. *)
Fixpoint run_stages (status_of : Stage -> Status) (stages : list Stage)
    (k : Reader -> Run (Status * Reader)) (r : Reader) : Run (Status * Reader) :=
  match stages with
  | [] => k r
  | stage :: rest =>
    RETURN_CANCEL_OR_ERROR (Ret (status_of stage, r)) (run_stages status_of rest k)
  end.

(** "Sort and dedup the coordinates (not applicable to the global order
    layout for a single fragment)" *)
Definition sort_and_dedup (r : Reader) : list Stage :=
  if negb ((length (fragment_metadata_ r) =? 1)%nat && Layout_eqb (layout_ r) GLOBAL_ORDER)
  then [stage_sort_coords; stage_dedup_coords]
  else [].

(** [Reader::dense_read<T>] for an integral [T] *)
Definition dense_read_T (E : Env) (r : Reader) : Run (Status * Reader) :=
  match array_schema_ r, cur_subarray_partition_ (read_state_ r) with
  | Some schema, Some subarray =>
    let status_of := env_stage E (layout_ r) (fragment_metadata_ r) (Some subarray) in
    let it := env_dense_slabs E (layout_ r) subarray in
    run_stages status_of
      ([stage_compute_overlapping_tiles; stage_read_all_tiles true;
        stage_filter_all_tiles true; stage_compute_overlapping_coords;
        stage_compute_tile_coords]
       ++ sort_and_dedup r
       ++ [stage_init_tile_fragment_dense_cell_range_iters])
      (fun r =>
         (* Get the cell ranges *)
         RETURN_CANCEL_OR_ERROR (Ret (fst it, r))
           (run_stages status_of
              (map stage_compute_dense_cell_ranges (snd it)
               ++ [stage_compute_dense_overlapping_tiles_and_cell_ranges;
                   stage_read_all_tiles false; stage_filter_all_tiles false])
              (fun r =>
                 let overlapping_cell_ranges :=
                   env_dense_cell_ranges E (layout_ r) (fragment_metadata_ r) subarray in
                 '(st, r) ← dense_copy_cells E (attributes_ r) overlapping_cell_ranges r;
                 if negb (ok st) then Ret (st, r)
                 else
                   (* Fill coordinates if the user requested them *)
                   if negb (overflowed_ (read_state_ r)) && has_coords r
                   then RETURN_CANCEL_OR_ERROR (fill_coords E r) (fun r => Ret (Ok, r))
                   else Ret (Ok, r))))
      r
  | _, _ => Aborted
  end.

(** [Reader::dense_read()]: the dispatch on the coordinate type. *)
Definition dense_read (E : Env) (r : Reader) : Run (Status * Reader) :=
  match array_schema_ r with
  | None => Aborted
  | Some schema =>
    if integral (schema_coords_type schema) then dense_read_T E r
    else Ret (Err ReaderError "Cannot read; Unsupported domain type", r)
  end.

(** The loop "Copy cells" of [sparse_read<T>]. *)
Fixpoint sparse_copy_cells (E : Env) (attrs : list string) (cell_ranges : list CellRange)
    (r : Reader) : Run (Status * Reader) :=
  match attrs with
  | [] => Ret (Ok, r)
  | attr :: rest =>
    if overflowed_ (read_state_ r) then Ret (Ok, r)
    else RETURN_CANCEL_OR_ERROR (copy_cells E r attr cell_ranges)
           (fun r => sparse_copy_cells E rest cell_ranges r)
  end.

(** [Reader::sparse_read<T>] *)
Definition sparse_read_T (E : Env) (r : Reader) : Run (Status * Reader) :=
  match cur_subarray_partition_ (read_state_ r) with
  | Some subarray =>
    run_stages (env_stage E (layout_ r) (fragment_metadata_ r) (Some subarray))
      ([stage_compute_overlapping_tiles; stage_read_all_tiles true;
        stage_filter_all_tiles true; stage_compute_overlapping_coords;
        stage_compute_tile_coords]
       ++ sort_and_dedup r
       ++ [stage_compute_cell_ranges])
      (fun r =>
         let cell_ranges :=
           env_sparse_cell_ranges E (layout_ r) (fragment_metadata_ r) subarray in
         sparse_copy_cells E (attributes_ r) cell_ranges r)
      r
  | None => Aborted
  end.

(** [Reader::sparse_read()]: the dispatch on the coordinate type. *)
Definition sparse_read (E : Env) (r : Reader) : Run (Status * Reader) :=
  match array_schema_ r with
  | None => Aborted
  | Some schema =>
    match schema_coords_type schema with
    | INT8 | UINT8 | INT16 | UINT16 | INT32 | UINT32 | INT64 | UINT64
    | FLOAT32 | FLOAT64 => sparse_read_T E r
    | _ => Ret (Err ReaderError "Cannot read; Unsupported domain type", r)
    end
  end.

(** What a partition attempt starts with: the overflow flag is cleared and
    the buffer sizes are reset; the ghost counters of the memory are
    cleared. *)
Definition start_attempt (r : Reader) : Reader :=
  let r := reset_buffer_sizes
             (with_read_state r (rs_set_overflowed (read_state_ r) false)) in
  with_mem r (begin_attempt (mem_ r)).

(** The [do ... while] loop of the legacy [read]. *)
Fixpoint read_loop (fuel : nat) (E : Env) (r : Reader) : Run (Status * Reader) :=
  match fuel with
  | O => OutOfFuel
  | S fuel' =>
    let r := start_attempt r in
    match array_schema_ r with
    | None => Aborted
    | Some schema =>
      (* Perform dense or sparse read if there are fragments *)
      '(st, r) ← (if schema_dense schema && negb (sparse_mode_ r)
                  then dense_read E r else sparse_read E r);
      if negb (ok st) then Ret (st, r)
      else
        (* Zero out the buffer sizes if this partition led to an overflow *)
        let r := if overflowed_ (read_state_ r) then zero_out_buffer_sizes r else r in
        (* Advance to the next subarray partition *)
        '(st, r) ← next_subarray_partition fuel' E r;
        if negb (ok st) then Ret (st, r)
        else if unsplittable_ (read_state_ r) && overflowed_ (read_state_ r) then
          Ret (Ok, zero_out_buffer_sizes r)
        else if no_results r
                && bool_decide (cur_subarray_partition_ (read_state_ r) <> None)
        then read_loop fuel' E r
        else Ret (Ok, r)
    end
  end.

(** [Reader::dense_read_2<T>]: the two specializations for the real types
    assert false; the generic body is that of [dense_read<T>]. *)
Definition dense_read_2 (E : Env) (T : Datatype) (r : Reader) : Run (Status * Reader) :=
  match T with
  | FLOAT32 | FLOAT64 => if env_assertions E then Aborted else Ret (Ok, r)
  | _ => dense_read_T E r
  end.

(** The loop "Copy cells" of [sparse_read_2<T>]. *)
Fixpoint sparse_copy_cells_2 (E : Env) (attrs : list string) (cell_ranges : list CellRange)
    (r : Reader) : Run (Status * Reader) :=
  match attrs with
  | [] => Ret (Ok, r)
  | attr :: rest =>
    if overflowed_2 (read_state_2_ r) then Ret (Ok, r)
    else if String.eqb attr coords then sparse_copy_cells_2 E rest cell_ranges r
    else
      run_stages
        (env_stage E (layout_ r) (fragment_metadata_ r)
           (sp_current (partitioner_ (read_state_2_ r))))
        [stage_read_tiles attr; stage_filter_tiles attr]
        (fun r => RETURN_CANCEL_OR_ERROR (copy_cells E r attr cell_ranges)
                    (fun r => sparse_copy_cells_2 E rest cell_ranges r))
        r
  end.

(** [Reader::sparse_read_2<T>] *)
Definition sparse_read_2 (E : Env) (r : Reader) : Run (Status * Reader) :=
  let partition := sp_current (partitioner_ (read_state_2_ r)) in
  run_stages (env_stage E (layout_ r) (fragment_metadata_ r) partition)
    [stage_compute_overlapping_tiles_2; stage_read_tiles coords;
     stage_filter_tiles coords; stage_compute_range_coords;
     stage_compute_subarray_coords; stage_compute_cell_ranges]
    (fun r =>
       let cell_ranges :=
         env_sparse_cell_ranges_2 E (layout_ r) (fragment_metadata_ r) partition in
       (* Copy coordinates first and clean up coordinate tiles *)
       '(st, r) ← (if bool_decide (coords ∈ attributes_ r)
                   then RETURN_CANCEL_OR_ERROR (copy_cells E r coords cell_ranges)
                          (fun r => Ret (Ok, r))
                   else Ret (Ok, r));
       if negb (ok st) then Ret (st, r)
       else sparse_copy_cells_2 E (attributes_ r) cell_ranges r)
    r.

(** The [do ... while (true)] loop of [read_2<T>]; the status of the read
    of the partition is dropped. *)
Fixpoint read_2_loop (fuel : nat) (E : Env) (T : Datatype) (r : Reader) :
    Run (Status * Reader) :=
  match fuel with
  | O => OutOfFuel
  | S fuel' =>
    let r := reset_buffer_sizes
               (with_read_state_2 r (rs2_set_overflowed (read_state_2_ r) false)) in
    let r := with_mem r (begin_attempt (mem_ r)) in
    match array_schema_ r with
    | None => Aborted
    | Some schema =>
      '(_, r) ← (if schema_dense schema then dense_read_2 E T r else sparse_read_2 E r);
      if overflowed_2 (read_state_2_ r) then
        let r := zero_out_buffer_sizes r in
        let '(st, rs2) := split_current E (layout_ r) (read_state_2_ r) in
        let r := with_read_state_2 r rs2 in
        if negb (ok st) then Ret (st, r)
        else if unsplittable_2 rs2 then Ret (Ok, r)
        else read_2_loop fuel' E T r
      else
        if negb (no_results r) || done (read_state_2_ r) then Ret (Ok, r)
        else
          let '(st, rs2) := next (read_state_2_ r) in
          let r := with_read_state_2 r rs2 in
          if negb (ok st) then Ret (st, r) else read_2_loop fuel' E T r
    end
  end.

(** [Reader::read_2<T>] *)
Definition read_2_T (fuel : nat) (E : Env) (T : Datatype) (r : Reader) :
    Run (Status * Reader) :=
  (* Get next partition *)
  let '(st, rs2) := if negb (unsplittable_2 (read_state_2_ r))
                    then next (read_state_2_ r) else (Ok, read_state_2_ r) in
  let r := with_read_state_2 r rs2 in
  if negb (ok st) then Ret (st, r)
  else if bool_decide (fragment_metadata_ r = []) then Ret (Ok, zero_out_buffer_sizes r)
  else read_2_loop fuel E T r.

(** [Reader::read_2()]: the dispatch on the coordinate type. *)
Definition read_2 (fuel : nat) (E : Env) (r : Reader) : Run (Status * Reader) :=
  match array_schema_ r with
  | None => Aborted
  | Some schema =>
    match schema_coords_type schema with
    | INT8 | UINT8 | INT16 | UINT16 | INT32 | UINT32 | INT64 | UINT64
    | FLOAT32 | FLOAT64 => read_2_T fuel E (schema_coords_type schema) r
    | _ => Ret (Err ReaderError "Cannot read; Unsupported domain type", r)
    end
  end.

(** [Reader::read] *)
Definition read (fuel : nat) (E : Env) (r : Reader) : Run (Status * Reader) :=
  if set_ (read_state_2_ r) then read_2 fuel E r
  else if bool_decide (fragment_metadata_ r = [])
          || bool_decide (cur_subarray_partition_ (read_state_ r) = None)
  then Ret (Ok, zero_out_buffer_sizes r)
  else read_loop fuel E r.

(** *** Initialization *)

(** [Reader::init_read_state] *)
Definition init_read_state (fuel : nat) (E : Env) (r : Reader) : Run (Status * Reader) :=
  if negb (env_malloc E) then
    Ret (Err ReaderError "Cannot initialize read state; Memory allocation failed", r)
  else
    match subarray_ (read_state_ r) with
    | None => Aborted
    | Some first_partition =>
      let rs := rs_set_cur (read_state_ r) (Some []) in
      let rs := rs_set_partitions rs (subarray_partitions_ rs ++ [first_partition]) in
      '(st, r) ← next_subarray_partition fuel E (with_read_state r rs);
      if negb (ok st) then Ret (st, r)
      else Ret (Ok, with_read_state r (rs_set_initialized (read_state_ r) true))
    end.

(** One step of the loop "Set result size budget". *)
Definition init_budget (schema : ArraySchema) (m : Mem) (p : SubarrayPartitioner)
    (kv : string * AttributeBuffer) : SubarrayPartitioner :=
  let size := match buffer_size_ (snd kv) with Some q => load m q | None => 0 end in
  let size_var := match buffer_var_size_ (snd kv) with Some q => load m q | None => 0 end in
  if negb (var_size schema (fst kv)) then set_result_budget p (fst kv) size 0
  else set_result_budget p (fst kv) size size_var.

(** [Reader::init_read_state_2] *)
Definition init_read_state_2 (r : Reader) : Run (Status * Reader) :=
  match array_schema_ r with
  | None => Aborted
  | Some schema =>
    let p := foldl (init_budget schema (mem_ r)) (partitioner_ (read_state_2_ r))
                   (map_to_list (attr_buffers_ r)) in
    let p := set_memory_budget p (memory_budget_ r) (memory_budget_var_ r) in
    Ret (Ok, with_read_state_2 r (mkRS2 (set_ (read_state_2_ r)) false false p))
  end.

(** "Get configuration parameters": each budget is stored as soon as it
    is parsed. *)
Definition init_config (E : Env) (r : Reader) : Status * Reader :=
  match env_config_get E "sm.memory_budget" with
  | (Ok, memory_budget) =>
    match env_config_get E "sm.memory_budget_var" with
    | (Ok, memory_budget_var) =>
      match env_convert E memory_budget with
      | (Ok, b) =>
        let r := with_budgets r b (memory_budget_var_ r) in
        match env_convert E memory_budget_var with
        | (Ok, bv) => (Ok, with_budgets r b bv)
        | (st, _) => (st, r)
        end
      | (st, _) => (st, r)
      end
    | (st, _) => (st, r)
    end
  | (st, _) => (st, r)
  end.

(** [Reader::init] *)
Definition init (fuel : nat) (E : Env) (r : Reader) : Run (Status * Reader) :=
  (* Sanity checks *)
  if negb (storage_manager_ r) then
    Ret (Err ReaderError "Cannot initialize reader; Storage manager not set", r)
  else if bool_decide (array_schema_ r = None) then
    Ret (Err ReaderError "Cannot initialize reader; Array metadata not set", r)
  else if bool_decide (attr_buffers_ r = ∅) then
    Ret (Err ReaderError "Cannot initialize reader; Buffers not set", r)
  else if bool_decide (attributes_ r = []) then
    Ret (Err ReaderError "Cannot initialize reader; Attributes not set", r)
  else
    let '(st, r) := init_config E r in
    if negb (ok st) then Ret (st, r)
    else if set_ (read_state_2_ r) then
      if negb (bool_decide (fragment_metadata_ r = [])) then init_read_state_2 r
      else Ret (Ok, r)
    else
      '(st, r) ← (if bool_decide (subarray_ (read_state_ r) = None)
                  then set_subarray E r None else Ret (Ok, r));
      if negb (ok st) then Ret (st, r)
      else
        r ← optimize_layout_for_1D r;
        if negb (bool_decide (fragment_metadata_ r = [])) then
          init_read_state fuel E r
        else Ret (Ok, r).

(** *** More of the interface *)

(** [Reader::get_buffer] for a fixed-sized attribute: the status and what
    it stores through [buffer] and [buffer_size]. *)
Definition get_buffer (r : Reader) (attr : string) : Status * (ptr * ptr) :=
  match attr_buffers_ r !! attr with
  | None => (Ok, (None, None))
  | Some ab => (Ok, (buffer_ ab, buffer_size_ ab))
  end.

(** [Reader::get_buffer] for a var-sized attribute: the status and what it
    stores through [buffer_off], [buffer_off_size], [buffer_val] and
    [buffer_val_size]. *)
Definition get_buffer_var (r : Reader) (attr : string) :
    Status * (ptr * ptr * ptr * ptr) :=
  match attr_buffers_ r !! attr with
  | None => (Ok, (None, None, None, None))
  | Some ab => (Ok, (buffer_ ab, buffer_size_ ab, buffer_var_ ab, buffer_var_size_ ab))
  end.

Definition with_sparse_mode (r : Reader) (b : bool) : Reader :=
  mkReader (array_schema_ r) (storage_manager_ r) (attr_buffers_ r) (attributes_ r)
           (fragment_metadata_ r) (layout_ r) (read_state_ r) (read_state_2_ r) b
           (memory_budget_ r) (memory_budget_var_ r) (mem_ r) (cancel_ r).

(** [Reader::set_sparse_mode]; the schema is dereferenced unchecked. *)
Definition set_sparse_mode (r : Reader) (sparse_mode : bool) : Run (Status * Reader) :=
  match array_schema_ r with
  | None => Aborted
  | Some schema =>
    if negb (schema_dense schema) then
      Ret (Err ReaderError "Cannot set sparse mode; Only applicable to dense arrays", r)
    else
      let all_sparse := forallb (fun f => negb (frag_dense f)) (fragment_metadata_ r) in
      if negb all_sparse then
        Ret (Err ReaderError
                 "Cannot set sparse mode; Only applicable to opened dense arrays having only sparse fragments",
             r)
      else Ret (Ok, with_sparse_mode r sparse_mode)
  end.

(** The attributes queried are those with a buffer, each listed once. *)
Definition attributes_wf (r : Reader) : Prop :=
  NoDup (attributes_ r)
  /\ forall a, a ∈ attributes_ r <-> is_Some (attr_buffers_ r !! a).

(** *** What the copiers are meant to write *)

Definition sumZ (l : list Z) : Z := foldr Z.add 0 l.

(** The sizes of the var-sized cells of a list of ranges, in the order in
    which the cells are copied. *)
Definition var_cell_sizes (fill_size : Z) (crs : list RangeTiles) : list Z :=
  concat (map (fun cr => map (cell_var_size fill_size cr) (cells cr)) crs).

(** The bytes of the cells [s..e] of a tile whose cells have [cell_size]
    bytes. *)
Definition tile_cells (data : list Z) (cell_size s e : Z) : list Z :=
  take (Z.to_nat ((e - s + 1) * cell_size)) (drop (Z.to_nat (s * cell_size)) data).

(** What the copy of a range of fixed-sized cells is meant to put in the
    buffer: the cells of the tile, or, for an empty range, the fill value
    once for every value of every cell. *)
Definition fixed_range_bytes (attr : string) (cell_size fill_size : Z) (fill : list Z)
    (cr : CellRange) : list Z :=
  match cr_tile_ cr with
  | None =>
    concat (replicate (Z.to_nat ((cr_end_ cr - cr_start_ cr + 1) * cell_size / fill_size))
                      (take (Z.to_nat fill_size) fill))
  | Some t =>
    match ot_attr_tiles_ t !! attr with
    | Some (tile, _) => tile_cells (tile_data tile) cell_size (cr_start_ cr) (cr_end_ cr)
    | None => []
    end
  end.

(** A cell range the copier can be given: its cells are in order and, for
    a range of a tile, the tile of the attribute is loaded and holds them. *)
Definition fixed_range_ok (attr : string) (cell_size : Z) (cr : CellRange) : Prop :=
  0 <= cr_start_ cr <= cr_end_ cr
  /\ (cr_end_ cr + 1) * cell_size < u64_mod
  /\ match cr_tile_ cr with
     | None => True
     | Some t =>
       exists tile tile_var,
         ot_attr_tiles_ t !! attr = Some (tile, tile_var)
         /\ (cr_end_ cr + 1) * cell_size <= tile_size tile
     end.

(** The bytes of all the cells of the ranges. *)
Definition fixed_total (cell_size : Z) (crs : list CellRange) : Z :=
  sumZ (map (fun cr => (cr_end_ cr - cr_start_ cr + 1) * cell_size) crs).

(** The part of [next_subarray_partition] from the loop on: the search
    through the pending partitions [pending] and the update of the read
    state [rs] with what it finds. *)
Definition search_and_update (fuel : nat) (E : Env) (schema : ArraySchema) (r : Reader)
    (rs : ReadState) (pending : list Subarray) : Run (Status * Reader) :=
  found ← search_partition fuel E schema r pending;
  match found with
  | Failed st => Ret (st, clear_read_state (with_read_state r rs))
  | NotFound => Ret (Ok, with_read_state r (rs_set_cur (rs_set_partitions rs []) None))
  | Found next_partition unsplittable rest =>
    match cur_subarray_partition_ rs with
    | None => Aborted
    | Some _ =>
      Ret (Ok, with_read_state r
                 (rs_set_cur
                    (rs_set_partitions
                       (if unsplittable then rs_set_unsplittable rs true else rs)
                       rest)
                    (Some next_partition)))
    end
  end.

(** The pending partitions the loop of [next_subarray_partition] is
    entered with: after an overflow the two halves of the current
    partition have been pushed to the front.  [None] when the call returns
    before the loop. *)
Definition loop_entry (E : Env) (r : Reader) : option (list Subarray) :=
  if overflowed_ (read_state_ r) then
    match cur_subarray_partition_ (read_state_ r) with
    | None => None
    | Some cur =>
      match snd (env_split_subarray E cur (layout_ r)) with
      | (Some subarray_1, Some subarray_2) =>
        Some (subarray_1 :: subarray_2 :: subarray_partitions_ (read_state_ r))
      | _ => None
      end
    end
  else
    match subarray_partitions_ (read_state_ r) with
    | [] => None
    | pending => Some pending
    end.

(** *** Notions the statements on the reader use *)

(** The attribute can be given a buffer by the fixed-sized [set_buffer]:
    it is the coordinates or a fixed-sized attribute of the schema. *)
Definition fixed_attribute (schema : ArraySchema) (attr : string) : Prop :=
  attr = coords \/ exists a, attribute schema attr = Some a /\ attr_var_size a = false.

(** The attribute can be given buffers by the var-sized [set_buffer]. *)
Definition var_attribute (schema : ArraySchema) (attr : string) : Prop :=
  attr <> coords /\ exists a, attribute schema attr = Some a /\ attr_var_size a = true.

(** The comparators of misc/comparators.h. *)
Inductive Comparator := GlobalCmp | RowCmp | ColCmp.

(** [Reader::sort_coords<T>]: the comparator the coordinates are sorted
    with, none for the unordered layout. *)
Definition sort_coords_comparator (r : Reader) : option Comparator :=
  match layout_ r with
  | GLOBAL_ORDER => Some GlobalCmp
  | ROW_MAJOR => Some RowCmp
  | COL_MAJOR => Some ColCmp
  | UNORDERED => None
  end.

(** What no read changes: the schema, the buffers, the attributes, the
    fragments, the layout, the sparse mode and the path taken. *)
Definition frame (r r' : Reader) : Prop :=
  array_schema_ r' = array_schema_ r
  /\ attr_buffers_ r' = attr_buffers_ r
  /\ attributes_ r' = attributes_ r
  /\ fragment_metadata_ r' = fragment_metadata_ r
  /\ layout_ r' = layout_ r
  /\ sparse_mode_ r' = sparse_mode_ r
  /\ set_ (read_state_2_ r') = set_ (read_state_2_ r).

(** The readers reached from [r] by calls of [read]. *)
Inductive after_reads (E : Env) (r : Reader) : Reader -> Prop :=
| after_none : after_reads E r r
| after_read (fuel : nat) (st : Status) (r1 r2 : Reader) :
    after_reads E r r1 -> read fuel E r1 = Ret (st, r2) -> after_reads E r r2.

(** The buffers and the size objects an attribute buffer points to. *)
Definition data_locs (ab : AttributeBuffer) : list loc :=
  match buffer_ ab with Some b => [b] | None => [] end
  ++ match buffer_var_ ab with Some b => [b] | None => [] end.

Definition size_locs (ab : AttributeBuffer) : list loc :=
  match buffer_size_ ab with Some p => [p] | None => [] end
  ++ match buffer_var_size_ ab with Some p => [p] | None => [] end.

(** No two pointers of the attribute buffers refer to the same buffer, or
    to the same size object. *)
Definition no_alias (bufs : gmap string AttributeBuffer) : Prop :=
  (forall a1 a2 ab1 ab2 l, bufs !! a1 = Some ab1 -> bufs !! a2 = Some ab2 ->
     l ∈ data_locs ab1 -> l ∈ data_locs ab2 -> a1 = a2)
  /\ (forall a ab, bufs !! a = Some ab -> NoDup (data_locs ab))
  /\ (forall a1 a2 ab1 ab2 l, bufs !! a1 = Some ab1 -> bufs !! a2 = Some ab2 ->
        l ∈ size_locs ab1 -> l ∈ size_locs ab2 -> a1 = a2)
  /\ (forall a ab, bufs !! a = Some ab -> NoDup (size_locs ab)).

(** The state [set_buffer] builds: the attributes listed are those with a
    buffer, each once, the pointers do not alias, and the coordinates are
    not a var-sized attribute. *)
Definition wf_buffers (schema : ArraySchema) (r : Reader) : Prop :=
  no_alias (attr_buffers_ r)
  /\ NoDup (attributes_ r)
  /\ (forall a, a ∈ attributes_ r <-> is_Some (attr_buffers_ r !! a))
  /\ var_size schema coords = false.


(** The sizes of an attribute are zero. *)
Definition sizes_zero (m : Mem) (ab : AttributeBuffer) : Prop :=
  forall p, p ∈ size_locs ab -> load m p = 0.


(** A call leaves the frame of [r0] as it is, if it returns. *)
Definition keeps (r0 : Reader) (run : Run (Status * Reader)) : Prop :=
  forall st r', run = Ret (st, r') -> frame r0 r'.

(** What a run of copies does to the counters and to the sizes: it adds
    [delta] to the counter of [buf] and leaves the rest as it is. *)
Definition adds (buf : loc) (delta : Z) (m m' : Mem) : Prop :=
  sizes m' = sizes m
  /\ (forall b, b <> buf -> written_to m' b = written_to m b)
  /\ written_to m' buf = written_to m buf + delta.

(** What a call of a copier changes in the memory: counters of the
    buffers [bs] and sizes at [ps] at most. *)
Definition touches (bs ps : list loc) (m m' : Mem) : Prop :=
  (forall b, b ∉ bs -> written_to m' b = written_to m b)
  /\ (forall p, p ∉ ps -> load m' p = load m p).



(** *** A small array for the examples *)

(** A dense array over the cells 0..9 of one [int32] dimension, with a
    fixed-sized attribute [a] and a var-sized attribute [s], both of
    [int32] values. *)
Definition ex_schema (coords_type : Datatype) : ArraySchema :=
  mkSchema true false coords_type 1 ROW_MAJOR [0; 9]
           (<["a" := mkAttr INT32 false 1]> (<["s" := mkAttr INT32 true 1]> ∅)).

(** The address of the fill value of a type and the bytes stored there:
    the fill value of [int32] is [INT_MIN]. *)
Definition ex_fill_address : Z := 6295616.

(** The tile of the only fragment: the cell [i] holds [10 + i] in [a]. *)
Definition ex_tile : OverlappingTile :=
  mkOT 0 0 true
       (<["a" := (mkTile (concat (map (fun i => le_bytes 4 (10 + i)) (seqZ 0 10))) 10,
                  mkTile [] 0)]> ∅).

(** An interval of more than one cell is split in the middle. *)
Definition ex_split (s : Subarray) (layout : Layout) :
    Status * (option Subarray * option Subarray) :=
  match s with
  | [lo; hi] =>
    if lo <? hi then (Ok, (Some [lo; (lo + hi) / 2], Some [(lo + hi) / 2 + 1; hi]))
    else (Ok, (None, None))
  | _ => (Ok, (None, None))
  end.

(** Four bytes are estimated for every cell of the interval. *)
Definition ex_est (frags : list FragmentMetadata) (s : Subarray) :
    Status * (string -> Q * Q) :=
  (Ok, fun _ => match s with
                | [lo; hi] => (inject_Z ((hi - lo + 1) * 4), 0%Q)
                | _ => (0%Q, 0%Q)
                end).

(** The cells of the interval come from the tile of the fragment. *)
Definition ex_ranges (layout : Layout) (frags : list FragmentMetadata) (s : Subarray) :
    list CellRange :=
  match s with
  | [lo; hi] => [mkCR (Some ex_tile) lo hi]
  | _ => []
  end.

Definition ex_slabs (layout : Layout) (s : Subarray) : Status * list Slab :=
  match s with
  | [lo; hi] => (Ok, [mkSlab [lo] lo hi])
  | _ => (Ok, [])
  end.

Definition ex_env (assertions : bool) : Env :=
  mkEnv assertions true
        (fun _ => (Ok, "5368709120"%string))
        (fun _ => (Ok, 5368709120))
        ex_split ex_est ex_ranges ex_ranges ex_slabs
        (fun layout frags s => match s with
                               | Some s => ex_ranges layout frags s
                               | None => []
                               end)
        (fun _ _ _ _ => Ok)
        (fun _ => ex_fill_address)
        (fun a => if a =? ex_fill_address then [0; 0; 0; 128] else []).


(** The memory of the caller: the buffer 1 of [n] bytes with its size at
    2, for [a]; the buffers 3 and 5 of 16 and [n] bytes with their sizes at
    4 and 6, for [s]. *)
Definition ex_mem (n : Z) : Mem :=
  mkMem (<[2%positive := n]> (<[4%positive := 16]> (<[6%positive := n]> ∅)))
        (<[1%positive := replicate (Z.to_nat n) 0]>
           (<[3%positive := replicate 16 0]>
              (<[5%positive := replicate (Z.to_nat n) 0]> ∅)))
        ∅.

(** A reader on the legacy path with a buffer of [n] bytes for [a], before
    [init]. *)
Definition ex_reader (coords_type : Datatype) (n : Z) : Reader :=
  mkReader (Some (ex_schema coords_type)) true
           (<["a" := mkBuf (Some 1%positive) None (Some 2%positive) None n 0]> ∅)
           ["a"] [mkFrag true] ROW_MAJOR
           (mkRS None None [] false false false)
           (mkRS2 false false false (mkSP None [] ∅ (0, 0)))
           false 0 0 (ex_mem n) [].

(** The same reader with buffers for [a] and for [s]. *)
Definition ex_reader_var (n : Z) : Reader :=
  mkReader (Some (ex_schema INT32)) true
           (<["a" := mkBuf (Some 1%positive) None (Some 2%positive) None n 0]>
              (<["s" := mkBuf (Some 3%positive) (Some 5%positive) (Some 4%positive)
                              (Some 6%positive) 16 n]> ∅))
           ["a"; "s"] [mkFrag true] ROW_MAJOR
           (mkRS None None [] false false false)
           (mkRS2 false false false (mkSP None [] ∅ (0, 0)))
           false 0 0 (ex_mem n) [].

(** The reader once its legacy read state holds the partition [lo..hi]
    as the current one. *)
Definition ex_started (r : Reader) (lo hi : Z) : Reader :=
  with_read_state r (mkRS (Some [lo; hi]) (Some [0; 9]) [] true false false).

(** The reader on the new path, the subarray [lo..hi] pending. *)
Definition ex_reader_2 (coords_type : Datatype) (n : Z) (lo hi : Z) : Reader :=
  with_read_state_2 (ex_reader coords_type n)
    (mkRS2 true false false (mkSP None [[lo; hi]] ∅ (0, 0))).


(** The reader with the partition [cur] as the current one and the
    partitions [pending] still to attempt. *)
Definition ex_pending (r : Reader) (cur : Subarray) (pending : list Subarray) : Reader :=
  with_read_state r (mkRS (Some cur) (Some [0; 9]) pending true false false).

(** The reader a call returns, [r] if it does not return. *)
Definition returned (run : Run (Status * Reader)) (r : Reader) : Reader :=
  match run with
  | Ret (_, r') => r'
  | _ => r
  end.

(** *** More examples *)

(** Collaborators of which the storage manager cannot estimate a result
    size. *)
Definition ex_env_no_estimate : Env :=
  mkEnv false true (fun _ => (Ok, "5368709120"%string)) (fun _ => (Ok, 5368709120))
        ex_split
        (fun _ _ => (Err CollaboratorError "Cannot load fragment metadata",
                     fun _ => (0%Q, 0%Q)))
        ex_ranges ex_ranges ex_slabs (fun _ _ _ => [])
        (fun _ _ _ _ => Ok) (fun _ => ex_fill_address) (fun _ => []).

End ReaderModel.

(** ** From coordinates to cell ranges: [Reader::compute_cell_ranges] *)

Module CellRanges.
Import Dedup.
Import ReaderModel.

Section TilePointers.

(** [a == b] on two pointers to overlapping tiles. *)
Variable same_tile : OverlappingTile -> OverlappingTile -> bool.

(** The loop "Scan the coordinates and compute ranges" from the iterator
    on: [l] holds the elements the iterator has still to pass, and an
    invalid one is passed over as [skip_invalid_elements] does; the range
    in the making is [start_pos..end_pos] of [tile]. *)
Fixpoint scan_coords (l : list OverlappingCoords) (tile : OverlappingTile)
    (start_pos end_pos : Z) (cell_ranges : list CellRange) : list CellRange :=
  match l with
  | [] =>
    (* Append the last range *)
    cell_ranges ++ [mkCR (Some tile) start_pos end_pos]
  | it :: l' =>
    if negb (valid_ it) then scan_coords l' tile start_pos end_pos cell_ranges
    else if same_tile (tile_ it) tile && (pos_ it =? u64 (end_pos + 1)) then
      (* Same range - advance end position *)
      scan_coords l' tile start_pos (pos_ it) cell_ranges
    else
      (* New range - append previous range *)
      scan_coords l' (tile_ it) (pos_ it) (pos_ it)
                  (cell_ranges ++ [mkCR (Some tile) start_pos end_pos])
  end.

(** [Reader::compute_cell_ranges]: the status and the list of cell ranges
    after the call. *)
Definition compute_cell_ranges (coords : list OverlappingCoords)
    (cell_ranges : list CellRange) : Status * list CellRange :=
  match coords with
  | [] => (Ok, cell_ranges)
  | _ =>
    (* Initialize the first range *)
    match drop (skip_invalid_elements coords 0) coords with
    | [] => (Err ReaderError "Unexpected empty cell range.", cell_ranges)
    | it :: l => (Ok, scan_coords l (tile_ it) (pos_ it) (pos_ it) cell_ranges)
    end
  end.

End TilePointers.

(** The cells of a range, each with the tile it is in. *)
Definition range_cells (cr : CellRange) : list (option OverlappingTile * Z) :=
  map (fun p => (cr_tile_ cr, p)) (seqZ (cr_start_ cr) (cr_end_ cr - cr_start_ cr + 1)).

(** The cell of a coordinate. *)
Definition coords_cell (c : OverlappingCoords) : option OverlappingTile * Z :=
  (Some (tile_ c), pos_ c).

(** The valid coordinates. *)
Definition valid_coords (coords : list OverlappingCoords) : list OverlappingCoords :=
  filter (fun c => valid_ c = true) coords.

(** Two ranges that follow one another could not have been one. *)
Definition not_mergeable (same_tile : OverlappingTile -> OverlappingTile -> bool)
    (a b : CellRange) : Prop :=
  match cr_tile_ a, cr_tile_ b with
  | Some ta, Some tb => same_tile tb ta && (cr_start_ b =? u64 (cr_end_ a + 1)) = false
  | _, _ => False
  end.

(** Every two neighbours of the list are in the relation. *)
Fixpoint neighbours {A : Type} (R : A -> A -> Prop) (l : list A) : Prop :=
  match l with
  | a :: ((b :: _) as l') => R a b /\ neighbours R l'
  | _ => True
  end.

(** Coordinates of the tile 7 of fragment 0, the cells 3, 4 and 6, with an
    invalid one in between. *)
Definition ex_coords : list OverlappingCoords :=
  [ mkOC (mkOT 0 7 true ∅) [3] 3 true;
    mkOC (mkOT 0 7 true ∅) [4] 4 true;
    mkOC (mkOT 0 7 true ∅) [5] 5 false;
    mkOC (mkOT 0 7 true ∅) [6] 6 true ].

#[global] Instance Tile_eq_dec : EqDecision Tile.
Proof. solve_decision. Defined.

#[global] Instance OverlappingTile_eq_dec : EqDecision OverlappingTile.
Proof. solve_decision. Defined.

(** Tile pointers compared through the tiles they point to. *)
Definition ex_same_tile (a b : OverlappingTile) : bool :=
  bool_decide (a = b).

End CellRanges.

(** ** A tile that one fragment alone intersects *)

Module SingleFragment.
Import DenseMerge.

(** The iterators of [i + 1 + k] fragments of which only the fragment [i]
    has ranges in the tile: the iterators of the others are at their end
    from the start. *)
Definition only_fragment (i k : nat) (it : DenseCellRangeIter) :
    list DenseCellRangeIter :=
  replicate i [] ++ it :: replicate k [].

(** Every cell of every range carries the fragment [i] where the iterator
    [it] covers it, and [-1] elsewhere. *)
Definition annotated_by (i : Z) (it : DenseCellRangeIter) (r : DenseCellRange) : Prop :=
  forall p, start_ r <= p <= end_ r ->
    fragment_idx_ r = if iter_covers it p then i else -1.

End SingleFragment.

(** ** The coordinates a dense read delivers *)

Module CoordsContent.
Import ReaderModel.

(** The coordinate tuples of the cells of a slab of [num] cells that begins
    at [start]: in a row-major walk the last coordinate runs. *)
Definition row_slab_coords (dim_num : Z) (start : list Z) (num : Z) : list (list Z) :=
  map (fun j => take (Z.to_nat (dim_num - 1)) start
                ++ [default 0 (start !! Z.to_nat (dim_num - 1)) + j])
      (seqZ 0 num).

(** In a column-major walk the first coordinate runs. *)
Definition col_slab_coords (start : list Z) (num : Z) : list (list Z) :=
  map (fun j => (default 0 (start !! O) + j) :: tl start) (seqZ 0 num).

(** The walk [fill_coords] chooses for the layout. *)
Definition row_major_walk (schema : ArraySchema) (layout : Layout) : bool :=
  Layout_eqb layout ROW_MAJOR
  || (Layout_eqb layout GLOBAL_ORDER && Layout_eqb (schema_cell_order schema) ROW_MAJOR).

Definition slab_cells_num (s : Slab) : Z := slab_range_end s - slab_range_start s + 1.

Definition slab_coords (schema : ArraySchema) (layout : Layout) (s : Slab) :
    list (list Z) :=
  if row_major_walk schema layout
  then row_slab_coords (schema_dim_num schema) (slab_coords_start s) (slab_cells_num s)
  else col_slab_coords (slab_coords_start s) (slab_cells_num s).

(** A slab has a start tuple of one coordinate per dimension and at least
    one cell. *)
Definition slab_ok (schema : ArraySchema) (s : Slab) : Prop :=
  Z.of_nat (length (slab_coords_start s)) = schema_dim_num schema
  /\ 0 <= slab_range_start s <= slab_range_end s
  /\ slab_range_end s < u64_mod - 1.

(** The bytes the coordinates of all cells of the slabs take. *)
Definition coords_total (schema : ArraySchema) (slabs : list Slab) : Z :=
  sumZ (map (fun s => slab_cells_num s * coords_size schema) slabs).

(** A dense array of two dimensions of [int32] coordinates, and the slabs
    of a row-major walk over its cells (1,2), (1,3), (2,2), (2,3). *)
Definition ex_schema_2d : ArraySchema :=
  mkSchema true false INT32 2 ROW_MAJOR [0; 3; 0; 3] (schema_attributes (ex_schema INT32)).

Definition ex_slabs_2d (layout : Layout) (s : Subarray) : Status * list Slab :=
  (Ok, [mkSlab [1; 2] 6 7; mkSlab [2; 2] 10 11]).

Definition ex_env_2d : Env :=
  mkEnv false true
        (fun _ => (Ok, "5368709120"%string))
        (fun _ => (Ok, 5368709120))
        ex_split ex_est ex_ranges ex_ranges ex_slabs_2d
        (fun layout frags s => [])
        (fun _ _ _ _ => Ok)
        (fun _ => ex_fill_address)
        (fun a => if a =? ex_fill_address then [0; 0; 0; 128] else []).

(** A reader with a buffer of [n] bytes for the coordinates, the
    partition of these four cells being the current one. *)
Definition ex_coords_reader (n : Z) : Reader :=
  mkReader (Some ex_schema_2d) true
           (<[coords := mkBuf (Some 1%positive) None (Some 2%positive) None n 0]> ∅)
           [coords] [mkFrag true] ROW_MAJOR
           (mkRS (Some [1; 2; 2; 3]) (Some [0; 3; 0; 3]) [] true false false)
           (mkRS2 false false false (mkSP None [] ∅ (0, 0)))
           false 0 0 (ex_mem n) [].

End CoordsContent.

(** ** Sparse coordinates inside a dense cell range:
       [Reader::handle_coords_in_dense_cell_range] *)

Module DenseCoords.
Import Dedup.
Import ReaderModel.

(** What the caller keeps about the coordinate its iterator is at: the
    iterator, a position in the vector, and the cell position, the fragment
    and the tile coordinates last computed for it. *)
Record Cursor := mkCursor {
  coords_it : nat;
  coords_pos : Z;
  coords_fidx : Z;
  coords_tile_coords : list Z
}.

(** What a call leaves behind.  After an error the caller returns at once,
    so that of all the objects written through the pointer arguments only
    the list of cell ranges is seen again. *)
Inductive Handled :=
| Done (start : Z) (c : Cursor) (overlapping_cell_ranges : list CellRange)
| Failed (st : Status) (overlapping_cell_ranges : list CellRange).

Section Domain.

(** [domain->get_tile_coords(coords, tile_coords)]: the bytes of the
    coordinates of the tile a cell lies in. *)
Variable get_tile_coords : list Z -> list Z.

(** [domain->get_cell_pos<T>(coords, &pos)]: the status and the position
    of the cell in its tile. *)
Variable get_cell_pos : list Z -> Status * Z.

(** [*coords_it = skip_invalid_elements(++( *coords_it), coords_end)] and
    the update of what is kept for the coordinate, which is left as it was
    at the end of the vector. *)
Definition advance_coords (coords : list OverlappingCoords) (c : Cursor) :
    Status * Cursor :=
  let it := skip_invalid_elements coords (S (coords_it c)) in
  match coords !! it with
  | Some x =>
    let tile_coords := get_tile_coords (coords_ x) in
    let '(st, pos) := get_cell_pos (coords_ x) in
    if ok st then (Ok, mkCursor it pos (frag x) tile_coords)
    else (st, mkCursor it (coords_pos c) (coords_fidx c) tile_coords)
  | None => (Ok, mkCursor it (coords_pos c) (coords_fidx c) (coords_tile_coords c))
  end.

(** [Reader::handle_coords_in_dense_cell_range]; [None] when the fuel runs
    out. *)
Fixpoint handle_coords_in_dense_cell_range (fuel : nat)
    (cur_tile : option OverlappingTile) (cur_tile_coords : list Z)
    (start e : Z) (coords_size : nat) (coords : list OverlappingCoords)
    (c : Cursor) (overlapping_cell_ranges : list CellRange) : option Handled :=
  match fuel with
  | O => None
  | S fuel' =>
    match coords !! coords_it c with
    | None => Some (Done start c overlapping_cell_ranges)
    | Some x =>
      (* While the coords are within the same dense cell range *)
      if bool_decide (take coords_size (coords_tile_coords c)
                      = take coords_size cur_tile_coords)
         && (start <=? coords_pos c) && (coords_pos c <=? e)
      then
        if match cur_tile with
           | Some t => coords_fidx c <? ot_fragment_idx_ t
           | None => false
           end
        then
          (* the coords must be skipped *)
          match advance_coords coords c with
          | (Ok, c') =>
            handle_coords_in_dense_cell_range fuel' cur_tile cur_tile_coords
              start e coords_size coords c' overlapping_cell_ranges
          | (st, _) => Some (Failed st overlapping_cell_ranges)
          end
        else
          (* Break dense range *)
          let out :=
            (* Left range *)
            if start <? coords_pos c
            then overlapping_cell_ranges ++ [mkCR cur_tile start (u64 (coords_pos c - 1))]
            else overlapping_cell_ranges in
          (* Coords unary range *)
          let out := out ++ [mkCR (Some (tile_ x)) (pos_ x) (pos_ x)] in
          (* Update start *)
          let start := u64 (coords_pos c + 1) in
          (* Advance coords *)
          match advance_coords coords c with
          | (Ok, c') =>
            handle_coords_in_dense_cell_range fuel' cur_tile cur_tile_coords
              start e coords_size coords c' out
          | (st, _) => Some (Failed st out)
          end
      else Some (Done start c overlapping_cell_ranges)
    end
  end.

(** What is kept for the coordinate at the iterator is what the domain
    says of it, and the coordinate is valid. *)
Definition cursor_ok (coords : list OverlappingCoords) (c : Cursor) : Prop :=
  forall x, coords !! coords_it c = Some x ->
    valid_ x = true
    /\ get_cell_pos (coords_ x) = (Ok, coords_pos c)
    /\ coords_fidx c = frag x
    /\ coords_tile_coords c = get_tile_coords (coords_ x).

(** The coordinate [x] lies at the position [p] of the dense tile whose
    coordinates are [cur_tile_coords], as the domain says. *)
Definition lies_at (coords_size : nat) (cur_tile_coords : list Z)
    (x : OverlappingCoords) (p : Z) : Prop :=
  get_cell_pos (coords_ x) = (Ok, p)
  /\ take coords_size (get_tile_coords (coords_ x)) = take coords_size cur_tile_coords.

(** [split cur_tile coords_size cur_tile_coords e s xs pieces s']: what
    the coordinates [xs], taken one after the other, make of the dense
    range [s .. e] of the tile [cur_tile].  Every coordinate lies in what
    is left of the range.  A coordinate of a fragment older than the tile
    is dropped.  Any other coordinate, at the position [p], cuts the range:
    the stretch [s .. p - 1] of the tile, if it is not empty, and the unary
    range of the coordinate are emitted, and [p + 1 .. e] is left.  [pieces]
    are the ranges emitted and [s'] is where what is left begins. *)
Inductive split (cur_tile : option OverlappingTile) (coords_size : nat)
    (cur_tile_coords : list Z) (e : Z) :
    Z -> list OverlappingCoords -> list CellRange -> Z -> Prop :=
| split_nil (s : Z) : split cur_tile coords_size cur_tile_coords e s [] [] s
| split_skip (s s' p : Z) (x : OverlappingCoords) (xs : list OverlappingCoords)
    (pieces : list CellRange) (t : OverlappingTile) :
    lies_at coords_size cur_tile_coords x p -> s <= p <= e ->
    cur_tile = Some t -> frag x < ot_fragment_idx_ t ->
    split cur_tile coords_size cur_tile_coords e s xs pieces s' ->
    split cur_tile coords_size cur_tile_coords e s (x :: xs) pieces s'
| split_emit (s s' p : Z) (x : OverlappingCoords) (xs : list OverlappingCoords)
    (pieces : list CellRange) :
    lies_at coords_size cur_tile_coords x p -> s <= p <= e ->
    (forall t, cur_tile = Some t -> ot_fragment_idx_ t <= frag x) ->
    split cur_tile coords_size cur_tile_coords e (p + 1) xs pieces s' ->
    split cur_tile coords_size cur_tile_coords e s (x :: xs)
          ((if s <? p then [mkCR cur_tile s (p - 1)] else [])
           ++ mkCR (Some (tile_ x)) (pos_ x) (pos_ x) :: pieces) s'.

End Domain.

(** The valid coordinates the iterator passes on its way from [it] to
    [it']. *)
Definition passed (coords : list OverlappingCoords) (it it' : nat) :
    list OverlappingCoords :=
  filter (fun c => valid_ c = true) (take (it' - it) (drop it coords)).

(** A domain of one dimension whose tiles all have the coordinates [0]:
    the position of a cell is its coordinate. *)
Definition ex_get_tile_coords (coords : list Z) : list Z := [0].

Definition ex_get_cell_pos (coords : list Z) : Status * Z :=
  (Ok, default 0 (head coords)).

(** Sparse coordinates: the cells 3 and 6 of fragment 2, the cell 5 of
    fragment 0, an invalid entry, and the cell 12 of fragment 2. *)
Definition ex_sparse_coords : list OverlappingCoords :=
  [ mkOC (mkOT 2 0 false ∅) [3] 0 true;
    mkOC (mkOT 0 0 false ∅) [5] 0 true;
    mkOC (mkOT 2 0 false ∅) [6] 1 true;
    mkOC (mkOT 2 0 false ∅) [7] 2 false;
    mkOC (mkOT 2 0 false ∅) [12] 3 true ].

End DenseCoords.

(** ** What the copy of var-sized cells writes *)

Module VarContent.
Import ReaderModel.

(** The bytes [copy_var_cells] copies for a cell: the cell's stretch of
    the tile of values or, for an empty range, the first [fill_size] bytes
    at the source [&fill_value], which [fill_ptr] holds. *)
Definition var_cell_value (fill_size : Z) (fill_ptr : list Z) (cr : RangeTiles)
    (cell_idx : Z) : list Z :=
  match rt_tiles cr with
  | None => take (Z.to_nat fill_size) fill_ptr
  | Some (tile, tile_var) =>
    take (Z.to_nat (cell_var_size fill_size cr cell_idx))
         (drop (Z.to_nat (u64 (u64_at (tile_data tile) cell_idx - u64_at (tile_data tile) 0)))
               (tile_data tile_var))
  end.

(** The values of the cells of the ranges, in the order of the ranges and
    of the cells in each. *)
Definition var_values (fill_size : Z) (fill_ptr : list Z) (crs : list RangeTiles) :
    list (list Z) :=
  concat (map (fun cr => map (var_cell_value fill_size fill_ptr cr) (cells cr)) crs).

(** The offset of each value among the values: the sizes of the values
    before it. *)
Definition var_offsets (sizes : list Z) : list Z :=
  map (fun i => sumZ (take i sizes)) (seq 0 (length sizes)).

(** A range the copier can be given: its cells are in order and the source
    holds every cell in full. *)
Definition var_range_ok (fill_size : Z) (fill_ptr : list Z) (cr : RangeTiles) : Prop :=
  0 <= rt_start cr <= rt_end cr
  /\ rt_end cr < u64_mod - 1
  /\ forall cell_idx, rt_start cr <= cell_idx <= rt_end cr ->
       Z.of_nat (length (var_cell_value fill_size fill_ptr cr cell_idx))
       = cell_var_size fill_size cr cell_idx.

(** A tile of three var-sized cells of 4, 8 and 4 bytes: the offsets 0, 4
    and 12, and the sixteen bytes 100 .. 115 of the values. *)
Definition ex_var_tile : OverlappingTile :=
  mkOT 0 0 true
       (<["s" := (mkTile (le_bytes 8 0 ++ le_bytes 8 4 ++ le_bytes 8 12) 3,
                  mkTile (map (fun i => 100 + i) (seqZ 0 16)) 16)]> ∅).

End VarContent.

(** ** Coordinates of a real type in the deduplication *)

Module DedupFloat.
Import Dedup.
Import ReaderModel.

(** Modelled from the spec: the comparators of misc/comparators.h order
    two tuples by the values of their coordinates, [a[i] < b[i]] on the
    coordinate type.  For [float] values that are no NaN this is the order
    of sign and magnitude, in which [+0.0] (bytes 00 00 00 00) and [-0.0]
    (bytes 00 00 00 80) are equal: [float32_order k] is the place of the
    value with the little-endian bytes [k] in that order. *)
Definition float32_order (k : list Z) : Z :=
  let bits := le_value k in
  if bits <? 2 ^ 31 then bits else 2 ^ 31 - bits.

(** The comparator of a one-dimensional [float] domain. *)
Definition Float32Cmp (a b : list Z) : bool := float32_order a <? float32_order b.

(** A sparse array with one [float] dimension: fragment 0 wrote the cell
    [+0.0]; fragment 1 wrote the cells [-0.0] and [+0.0].  The three
    coordinates compare equal, so that the sort may leave them in this
    order. *)
Definition signed_zero_coords : list OverlappingCoords :=
  [ mkOC (mkOT 0 0 false ∅) [0; 0; 0; 0] 0 true;
    mkOC (mkOT 1 0 false ∅) [0; 0; 0; 128] 0 true;
    mkOC (mkOT 1 0 false ∅) [0; 0; 0; 0] 1 true ].

End DedupFloat.

(** ** Facts on the dense range merger *)

Module DenseMergeFacts.
Import DenseMerge.

(** C1.  The merger run on three dense fragments whose ranges are sorted
    and disjoint within each fragment, fragment 0 over 0..9, fragment 1
    over 2..5 and fragment 2 over 0..3, for the window 0..9.  After the
    range of fragment 2 the range of fragment 0 is popped with the window
    start at 4 and cut at the start of the queued range of fragment 1,
    which lies before the window start: the range 4..1 is emitted for
    fragment 0 and the window start moves back to 2.  The emitted list
    does not tile the window, and the cells 2 and 3 are emitted a second
    time for fragment 1 although fragment 2 covers them. *)
Theorem merge_three_writes :
  forallb iter_sorted three_writes = true
  /\ compute_dense_cell_ranges 4 [0] three_writes 0 9
     = Some ([ []; []; [] ],
             [ mkDCR 2 [0] 0 3; mkDCR 0 [0] 4 1; mkDCR 1 [0] 2 5; mkDCR 0 [0] 6 9 ])
  /\ covers_exactly 0 9
       [ mkDCR 2 [0] 0 3; mkDCR 0 [0] 4 1; mkDCR 1 [0] 2 5; mkDCR 0 [0] 6 9 ] = false
  /\ annotated_with_winner three_writes
       [ mkDCR 2 [0] 0 3; mkDCR 0 [0] 4 1; mkDCR 1 [0] 2 5; mkDCR 0 [0] 6 9 ] = false
  /\ winner three_writes 2 = 2
  /\ covers_exactly 0 9 [ mkDCR 2 [0] 0 3; mkDCR 1 [0] 4 5; mkDCR 0 [0] 6 9 ] = true
  /\ annotated_with_winner three_writes
       [ mkDCR 2 [0] 0 3; mkDCR 1 [0] 4 5; mkDCR 0 [0] 6 9 ] = true.
Proof. repeat split; vm_compute; reflexivity. Qed.

(** A range of an older fragment that lies inside the popped range is
    dropped from the queue without its iterator being advanced: the later
    ranges of that fragment are never queued, and the cells 5..9 that
    fragment 0 covers are emitted as empty. *)
Lemma merge_two_slabs :
  forallb iter_sorted two_slabs = true
  /\ compute_dense_cell_ranges 4 [0] two_slabs 0 9
     = Some ([ [(0, 1); (5, 9)]; [] ], [ mkDCR 1 [0] 0 2; mkDCR (-1) [0] 3 9 ])
  /\ winner two_slabs 5 = 0
  /\ annotated_with_winner two_slabs [ mkDCR 1 [0] 0 2; mkDCR (-1) [0] 3 9 ] = false.
Proof. repeat split; vm_compute; reflexivity. Qed.

(** With one range per fragment and the newer range inside the older one
    the merger delivers the tiling with the winners. *)
Lemma merge_nested :
  compute_dense_cell_ranges 4 [0] [ [(0, 9)]; [(3, 5)] ] 0 9
  = Some ([ []; [] ], [ mkDCR 0 [0] 0 2; mkDCR 1 [0] 3 5; mkDCR 0 [0] 6 9 ])
  /\ covers_exactly 0 9 [ mkDCR 0 [0] 0 2; mkDCR 1 [0] 3 5; mkDCR 0 [0] 6 9 ] = true
  /\ annotated_with_winner [ [(0, 9)]; [(3, 5)] ]
       [ mkDCR 0 [0] 0 2; mkDCR 1 [0] 3 5; mkDCR 0 [0] 6 9 ] = true.
Proof. repeat split; vm_compute; reflexivity. Qed.

(** Fragments that leave gaps: the gaps are emitted with fragment index -1. *)
Lemma merge_gaps :
  compute_dense_cell_ranges 6 [0] [ [(2, 3)]; []; [(6, 7)] ] 0 9
  = Some ([ []; []; [] ],
          [ mkDCR (-1) [0] 0 1; mkDCR 0 [0] 2 3; mkDCR (-1) [0] 4 5;
            mkDCR 2 [0] 6 7; mkDCR (-1) [0] 8 9 ]).
Proof. vm_compute; reflexivity. Qed.

End DenseMergeFacts.

(** ** Facts on the coordinate deduplication *)

Module DedupFacts.
Import Dedup.
Local Open Scope nat_scope.

Lemma skip_count_le (l : list OverlappingCoords) : skip_count l <= length l.
Proof.
  induction l as [|c l IH]; simpl; [lia|].
  destruct (valid_ c); lia.
Qed.

Lemma skip_count_invalid (l : list OverlappingCoords) (k : nat) :
  k < skip_count l -> exists c, l !! k = Some c /\ valid_ c = false.
Proof.
  revert k. induction l as [|c l IH]; simpl; intros k Hk; [lia|].
  destruct (valid_ c) eqn:Hc; [lia|].
  destruct k as [|k]; simpl.
  - exists c. split; [reflexivity | exact Hc].
  - apply IH. lia.
Qed.

Lemma skip_count_valid (l : list OverlappingCoords) (c : OverlappingCoords) :
  l !! skip_count l = Some c -> valid_ c = true.
Proof.
  induction l as [|d l IH]; simpl; [discriminate|].
  destruct (valid_ d) eqn:Hd; simpl.
  - intros [= <-]. exact Hd.
  - exact IH.
Qed.

Lemma skip_bounds (v : list OverlappingCoords) (it : nat) :
  it <= length v ->
  it <= skip_invalid_elements v it /\ skip_invalid_elements v it <= length v.
Proof.
  intros Hit. unfold skip_invalid_elements.
  pose proof (skip_count_le (drop it v)) as H.
  rewrite length_drop in H. lia.
Qed.

Lemma skip_between (v : list OverlappingCoords) (it k : nat) :
  it <= k -> k < skip_invalid_elements v it ->
  exists c, v !! k = Some c /\ valid_ c = false.
Proof.
  unfold skip_invalid_elements. intros H1 H2.
  destruct (skip_count_invalid (drop it v) (k - it)) as (c & Hc & Hv); [lia|].
  rewrite lookup_drop in Hc.
  replace (it + (k - it)) with k in Hc by lia.
  exists c. split; assumption.
Qed.

Lemma skip_at (v : list OverlappingCoords) (it : nat) (c : OverlappingCoords) :
  v !! skip_invalid_elements v it = Some c -> valid_ c = true.
Proof.
  unfold skip_invalid_elements. intros H.
  apply (skip_count_valid (drop it v)). rewrite lookup_drop. exact H.
Qed.

Lemma skip_insert_lt (v : list OverlappingCoords) (i it : nat) (x : OverlappingCoords) :
  i < it -> skip_invalid_elements (<[i:=x]> v) it = skip_invalid_elements v it.
Proof.
  intros H. unfold skip_invalid_elements. rewrite drop_insert_lt; [reflexivity | exact H].
Qed.

Lemma nvalid_le (l : list OverlappingCoords) : nvalid l <= length l.
Proof.
  induction l as [|c l IH]; simpl; [lia|]. destruct (valid_ c); lia.
Qed.

Lemma nvalid_drop_S (v : list OverlappingCoords) (it : nat) (c : OverlappingCoords) :
  v !! it = Some c ->
  nvalid (drop it v) = (if valid_ c then 1 else 0) + nvalid (drop (S it) v).
Proof.
  revert it. induction v as [|d v IH]; intros it H; [discriminate|].
  destruct it as [|it]; simpl in *.
  - injection H as ->. rewrite drop_0. destruct (valid_ c); reflexivity.
  - apply IH. exact H.
Qed.

Lemma nvalid_drop_mono (v : list OverlappingCoords) (i j : nat) :
  i <= j -> nvalid (drop j v) <= nvalid (drop i v).
Proof.
  intros H. induction H as [|j H IH]; [lia|].
  destruct (v !! j) as [c|] eqn:Hc.
  - rewrite (nvalid_drop_S v j c Hc) in IH. lia.
  - apply lookup_ge_None_1 in Hc.
    rewrite (drop_ge v (S j)) by lia. simpl. lia.
Qed.

Lemma nvalid_insert_invalidate (l : list OverlappingCoords) (n : nat) (c : OverlappingCoords) :
  l !! n = Some c -> valid_ c = true ->
  S (nvalid (<[n:=invalidate c]> l)) = nvalid l.
Proof.
  revert n. induction l as [|d l IH]; intros n H Hv; [discriminate|].
  destruct n as [|n]; simpl in *.
  - injection H as ->. rewrite Hv. reflexivity.
  - destruct (valid_ d); rewrite <- (IH n H Hv); reflexivity.
Qed.

Lemma key_invalidate (csz : nat) (c : OverlappingCoords) :
  key csz (invalidate c) = key csz c.
Proof. reflexivity. Qed.

Lemma shape_refl (v : list OverlappingCoords) : shape v v.
Proof.
  split; [reflexivity|]. intros i c H. exists c. repeat split; auto.
Qed.

Lemma shape_invalidate (v0 v : list OverlappingCoords) (n : nat) (c : OverlappingCoords) :
  shape v0 v -> v !! n = Some c -> shape v0 (<[n:=invalidate c]> v).
Proof.
  intros [Hlen Hsh] Hn. split; [rewrite length_insert; exact Hlen|].
  intros i d Hd. destruct (decide (n = i)) as [->|Hne].
  - rewrite list_lookup_insert_eq in Hd by (eapply lookup_lt_Some; exact Hn).
    injection Hd as <-. destruct (Hsh i c Hn) as (c0 & H0 & Ht & Hc & Hp & _).
    exists c0. repeat split; auto. simpl. discriminate.
  - rewrite list_lookup_insert_ne in Hd by exact Hne. apply Hsh. exact Hd.
Qed.

Lemma shape_key (csz : nat) (v0 v : list OverlappingCoords) (i : nat)
    (c c0 : OverlappingCoords) :
  shape v0 v -> v !! i = Some c -> v0 !! i = Some c0 ->
  key csz c = key csz c0 /\ frag c = frag c0.
Proof.
  intros [_ Hsh] Hc H0. destruct (Hsh i c Hc) as (c0' & H0' & Ht & Hk & _).
  rewrite H0 in H0'. injection H0' as <-.
  unfold key, frag. rewrite Hk, Ht. split; reflexivity.
Qed.

Section Sorted.

Variable lt : list Z -> list Z -> bool.
Hypothesis lt_total : forall a b : list Z, a <> b -> lt a b = true \/ lt b a = true.
Variable csz : nat.

Lemma sorted_by_pairs (v : list OverlappingCoords) :
  sorted_by lt csz v = true ->
  forall i j a b, i < j -> v !! i = Some a -> v !! j = Some b ->
    lt (key csz b) (key csz a) = false.
Proof.
  induction v as [|x v IH]; intros Hs i j a b Hij Ha Hb; [discriminate|].
  simpl in Hs. apply andb_true_iff in Hs as [Hx Hs].
  destruct j as [|j]; [lia|]. simpl in Hb.
  destruct i as [|i]; simpl in Ha.
  - injection Ha as ->. rewrite forallb_forall in Hx.
    apply negb_true_iff. apply Hx. apply list_elem_of_In.
    eapply list_elem_of_lookup_2. exact Hb.
  - apply (IH Hs i j); [lia | exact Ha | exact Hb].
Qed.

(** Equal tuples are contiguous in a sorted vector. *)
Lemma sorted_contiguous (v0 v : list OverlappingCoords) :
  sorted_by lt csz v0 = true -> shape v0 v ->
  forall i j k a b c, i < j -> j < k ->
    v !! i = Some a -> v !! j = Some b -> v !! k = Some c ->
    key csz a = key csz c -> key csz b = key csz a.
Proof.
  intros Hs Hsh i j k a b c Hij Hjk Ha Hb Hc Hac.
  destruct (decide (key csz b = key csz a)) as [|Hne]; [assumption|exfalso].
  destruct (proj2 Hsh i a Ha) as (a0 & Ha0 & _).
  destruct (proj2 Hsh j b Hb) as (b0 & Hb0 & _).
  destruct (proj2 Hsh k c Hc) as (c0 & Hc0 & _).
  destruct (shape_key csz v0 v i a a0 Hsh Ha Ha0) as [Ka _].
  destruct (shape_key csz v0 v j b b0 Hsh Hb Hb0) as [Kb _].
  destruct (shape_key csz v0 v k c c0 Hsh Hc Hc0) as [Kc _].
  pose proof (sorted_by_pairs v0 Hs i j a0 b0 Hij Ha0 Hb0) as H1.
  pose proof (sorted_by_pairs v0 Hs j k b0 c0 Hjk Hb0 Hc0) as H2.
  rewrite <- Ka, <- Kb in H1. rewrite <- Kb, <- Kc, <- Hac in H2.
  destruct (lt_total _ _ Hne) as [H|H]; congruence.
Qed.

Lemma inv_init (v : list OverlappingCoords) : Inv csz v v (skip_invalid_elements v 0).
Proof.
  split.
  - apply shape_refl.
  - apply skip_bounds. lia.
  - intros c. apply skip_at.
  - intros i j a b Hi _ Ha _ Hva _.
    destruct (skip_between v 0 i) as (a' & Ha' & Hv); [lia | exact Hi |].
    congruence.
  - intros j c0 c H0 Hv0 Hc Hv. congruence.
Qed.

(** The iterator moves on, nothing is invalidated. *)
Lemma inv_advance (v0 v : list OverlappingCoords) (it : nat) (c : OverlappingCoords) :
  sorted_by lt csz v0 = true ->
  Inv csz v0 v it -> v !! it = Some c ->
  (forall n, v !! skip_invalid_elements v (S it) = Some n -> key csz c <> key csz n) ->
  Inv csz v0 v (skip_invalid_elements v (S it)).
Proof.
  intros Hs [Hsh Hle Hcur Hun Hdom] Hc Hnext.
  pose proof (lookup_lt_Some _ _ _ Hc) as Hlt.
  destruct (skip_bounds v (S it) Hlt) as [Hb1 Hb2].
  split; auto.
  - intros n. apply skip_at.
  - intros i j a b Hi Hij Ha Hb Hva Hvb.
    destruct (decide (i < it)) as [Hlt'|Hge];
      [exact (Hun i j a b Hlt' Hij Ha Hb Hva Hvb)|].
    destruct (decide (i = it)) as [->|Hne].
    + rewrite Hc in Ha. injection Ha as <-.
      destruct (decide (j < skip_invalid_elements v (S it))) as [Hj|Hj].
      * destruct (skip_between v (S it) j) as (b' & Hb' & Hv); [lia | exact Hj |].
        congruence.
      * destruct (v !! skip_invalid_elements v (S it)) as [n|] eqn:Hn.
        -- destruct (decide (j = skip_invalid_elements v (S it))) as [->|Hjn].
           ++ rewrite Hn in Hb. injection Hb as <-. exact (Hnext n eq_refl).
           ++ intros Heq. apply (Hnext n eq_refl). symmetry.
              apply (sorted_contiguous v0 v Hs Hsh it (skip_invalid_elements v (S it)) j c n b);
                [lia | lia | exact Hc | exact Hn | exact Hb | exact Heq].
        -- apply lookup_ge_None_1 in Hn. apply lookup_lt_Some in Hb. lia.
    + destruct (skip_between v (S it) i) as (a' & Ha' & Hv); [lia | exact Hi |].
      congruence.
Qed.

(** The current element is invalidated, the next one takes over. *)
Lemma inv_drop_cur (v0 v : list OverlappingCoords) (it : nat) (c n : OverlappingCoords) :
  Inv csz v0 v it -> v !! it = Some c ->
  v !! skip_invalid_elements v (S it) = Some n ->
  key csz c = key csz n -> (frag c < frag n)%Z ->
  Inv csz v0 (<[it:=invalidate c]> v) (skip_invalid_elements v (S it)).
Proof.
  intros [Hsh Hle Hcur Hun Hdom] Hc Hn Hk Hf.
  pose proof (lookup_lt_Some _ _ _ Hc) as Hlt.
  destruct (skip_bounds v (S it) Hlt) as [Hb1 Hb2].
  pose proof (skip_at v (S it) n Hn) as Hvn.
  set (next := skip_invalid_elements v (S it)) in *.
  assert (Hnn : <[it:=invalidate c]> v !! next = Some n).
  { rewrite list_lookup_insert_ne by lia. exact Hn. }
  split.
  - apply shape_invalidate; assumption.
  - rewrite length_insert. exact Hb2.
  - intros d Hd. rewrite Hnn in Hd. injection Hd as <-. exact Hvn.
  - intros i j a b Hi Hij Ha Hb Hva Hvb.
    destruct (decide (i = it)) as [->|Hne].
    { rewrite list_lookup_insert_eq in Ha by exact Hlt. injection Ha as <-. discriminate. }
    rewrite list_lookup_insert_ne in Ha by lia.
    destruct (decide (j = it)) as [->|Hje].
    { rewrite list_lookup_insert_eq in Hb by exact Hlt. injection Hb as <-. discriminate. }
    rewrite list_lookup_insert_ne in Hb by lia.
    destruct (decide (i < it)) as [Hlt'|Hge];
      [exact (Hun i j a b Hlt' Hij Ha Hb Hva Hvb)|].
    destruct (skip_between v (S it) i) as (a' & Ha' & Hv); [lia | exact Hi |].
    congruence.
  - intros j c0 d H0 Hv0 Hd Hvd.
    destruct (decide (j = it)) as [->|Hne].
    + exists next, n. destruct (shape_key csz v0 v it c c0 Hsh Hc H0) as [K F].
      repeat split; [exact Hnn | exact Hvn | congruence | lia].
    + rewrite list_lookup_insert_ne in Hd by lia.
      destruct (Hdom j c0 d H0 Hv0 Hd Hvd) as (k & x & Hx & Hvx & Kx & Fx).
      destruct (decide (k = it)) as [->|Hke].
      * rewrite Hc in Hx. injection Hx as <-.
        exists next, n. repeat split; [exact Hnn | exact Hvn | congruence | lia].
      * exists k, x. rewrite list_lookup_insert_ne by lia. repeat split; assumption.
Qed.

(** The next element is invalidated, the iterator stays. *)
Lemma inv_drop_next (v0 v : list OverlappingCoords) (it : nat) (c n : OverlappingCoords) :
  Inv csz v0 v it -> v !! it = Some c ->
  v !! skip_invalid_elements v (S it) = Some n ->
  key csz c = key csz n -> (frag n <= frag c)%Z ->
  Inv csz v0 (<[skip_invalid_elements v (S it):=invalidate n]> v) it.
Proof.
  intros [Hsh Hle Hcur Hun Hdom] Hc Hn Hk Hf.
  pose proof (lookup_lt_Some _ _ _ Hc) as Hlt.
  pose proof (lookup_lt_Some _ _ _ Hn) as Hltn.
  destruct (skip_bounds v (S it) Hlt) as [Hb1 Hb2].
  pose proof (Hcur c Hc) as Hvc.
  set (next := skip_invalid_elements v (S it)) in *.
  assert (Hcc : <[next:=invalidate n]> v !! it = Some c).
  { rewrite list_lookup_insert_ne by lia. exact Hc. }
  split.
  - apply shape_invalidate; assumption.
  - rewrite length_insert. exact Hle.
  - intros d Hd. rewrite Hcc in Hd. injection Hd as <-. exact Hvc.
  - intros i j a b Hi Hij Ha Hb Hva Hvb.
    rewrite list_lookup_insert_ne in Ha by lia.
    destruct (decide (j = next)) as [->|Hje].
    { rewrite list_lookup_insert_eq in Hb by exact Hltn. injection Hb as <-. discriminate. }
    rewrite list_lookup_insert_ne in Hb by lia.
    exact (Hun i j a b Hi Hij Ha Hb Hva Hvb).
  - intros j c0 d H0 Hv0 Hd Hvd.
    destruct (decide (j = next)) as [->|Hne].
    + exists it, c. destruct (shape_key csz v0 v next n c0 Hsh Hn H0) as [K F].
      repeat split; [exact Hcc | exact Hvc | congruence | lia].
    + rewrite list_lookup_insert_ne in Hd by lia.
      destruct (Hdom j c0 d H0 Hv0 Hd Hvd) as (k & x & Hx & Hvx & Kx & Fx).
      destruct (decide (k = next)) as [->|Hke].
      * rewrite Hn in Hx. injection Hx as <-.
        exists it, c. repeat split; [exact Hcc | exact Hvc | congruence | lia].
      * exists k, x. rewrite list_lookup_insert_ne by lia. repeat split; assumption.
Qed.

(** The loop returns, and what it returns satisfies the invariant at the
    end of the vector. *)
Lemma dedup_loop_inv (v0 : list OverlappingCoords) :
  sorted_by lt csz v0 = true ->
  forall fuel v it, Inv csz v0 v it -> nvalid (drop it v) < fuel ->
    exists v', dedup_loop fuel csz v it = Some v' /\ Inv csz v0 v' (length v').
Proof.
  intros Hs. induction fuel as [|fuel IH]; intros v it HI Hm; [lia|].
  simpl. destruct (v !! it) as [c|] eqn:Hc.
  2: { exists v. split; [reflexivity|].
       apply lookup_ge_None_1 in Hc. pose proof (inv_le _ _ _ _ HI) as Hle.
       replace (length v) with it by lia. exact HI. }
  pose proof (inv_cur _ _ _ _ HI c Hc) as Hvc.
  pose proof (nvalid_drop_S v it c Hc) as Hd. rewrite Hvc in Hd.
  pose proof (lookup_lt_Some _ _ _ Hc) as Hlt.
  destruct (skip_bounds v (S it) Hlt) as [Hb1 Hb2].
  pose proof (nvalid_drop_mono v (S it) (skip_invalid_elements v (S it)) Hb1) as Hmono.
  destruct (v !! skip_invalid_elements v (S it)) as [n|] eqn:Hn.
  - unfold same_coords. case_bool_decide as Hk.
    + destruct (Z.ltb_spec (ot_fragment_idx_ (tile_ c)) (ot_fragment_idx_ (tile_ n))) as [Hf|Hf].
      * rewrite skip_insert_lt by lia. apply IH.
        -- apply (inv_drop_cur v0 v it c n HI Hc Hn Hk Hf).
        -- rewrite drop_insert_lt by lia. lia.
      * apply IH.
        -- apply (inv_drop_next v0 v it c n HI Hc Hn Hk Hf).
        -- rewrite drop_insert_ge by lia.
           assert (Hn' : drop it v !! (skip_invalid_elements v (S it) - it) = Some n).
           { rewrite lookup_drop.
             replace (it + (skip_invalid_elements v (S it) - it))
               with (skip_invalid_elements v (S it)) by lia. exact Hn. }
           pose proof (nvalid_insert_invalidate _ _ n Hn' (skip_at v (S it) n Hn)).
           lia.
    + apply IH.
      * apply (inv_advance v0 v it c Hs HI Hc). intros n' Hn'.
        rewrite Hn in Hn'. injection Hn' as <-. exact Hk.
      * lia.
  - apply IH.
    + apply (inv_advance v0 v it c Hs HI Hc). intros n' Hn'. congruence.
    + lia.
Qed.

(** On a vector sorted by a comparator that orders every two
    byte-distinct tuples, as the comparators of the layouts do on
    coordinates of an integer type, [dedup_coords] returns, and clears
    validity flags only.  Afterwards no
    two valid entries have byte-equal coordinate tuples; of two valid
    entries of the input with byte-equal tuples the one from the lower
    fragment is invalid; and every valid entry of the input is represented
    by a valid entry with the same tuple from a fragment at least as
    high, so that the highest fragment of each tuple survives. *)
Theorem dedup_coords_newest_wins (v : list OverlappingCoords) :
  sorted_by lt csz v = true ->
  exists v', dedup_coords (S (length v)) csz v = Some v'
    /\ shape v v'
    /\ (forall i j a b, i <> j -> v' !! i = Some a -> v' !! j = Some b ->
          valid_ a = true -> valid_ b = true -> key csz a <> key csz b)
    /\ (forall i j a b, v !! i = Some a -> v !! j = Some b ->
          valid_ a = true -> valid_ b = true ->
          key csz a = key csz b -> (frag a < frag b)%Z ->
          exists a', v' !! i = Some a' /\ valid_ a' = false)
    /\ (forall j b, v !! j = Some b -> valid_ b = true ->
          exists k d, v' !! k = Some d /\ valid_ d = true
                      /\ key csz d = key csz b /\ (frag b <= frag d)%Z).
Proof.
  intros Hs.
  destruct (dedup_loop_inv v Hs (S (length v)) v (skip_invalid_elements v 0)
              (inv_init v)) as (v' & Hrun & HI).
  { pose proof (nvalid_le (drop (skip_invalid_elements v 0) v)) as H.
    rewrite length_drop in H. lia. }
  destruct HI as [Hsh Hle Hcur Hun Hdom].
  assert (Huniq : forall i j a b, i <> j -> v' !! i = Some a -> v' !! j = Some b ->
            valid_ a = true -> valid_ b = true -> key csz a <> key csz b).
  { intros i j a b Hij Ha Hb Hva Hvb.
    destruct (decide (i < j)) as [Hlt|Hge].
    - apply (Hun i j a b); auto. eapply lookup_lt_Some; exact Ha.
    - intros Heq. apply (Hun j i b a); auto; try lia.
      eapply lookup_lt_Some; exact Hb. }
  assert (Hsurv : forall j b, v !! j = Some b -> valid_ b = true ->
            exists k d, v' !! k = Some d /\ valid_ d = true
                        /\ key csz d = key csz b /\ (frag b <= frag d)%Z).
  { intros j b Hb Hvb.
    assert (Hj : j < length v') by (rewrite (proj1 Hsh); eapply lookup_lt_Some; exact Hb).
    destruct (lookup_lt_is_Some_2 _ _ Hj) as [b' Hb'].
    destruct (valid_ b') eqn:Hvb'.
    - exists j, b'. destruct (shape_key csz v v' j b' b Hsh Hb' Hb) as [K F].
      repeat split; auto. lia.
    - apply (Hdom j b b'); assumption. }
  exists v'. split; [exact Hrun|]. split; [exact Hsh|]. split; [exact Huniq|].
  split; [|exact Hsurv].
  intros i j a b Ha Hb Hva Hvb Hk Hf.
  assert (Hi : i < length v') by (rewrite (proj1 Hsh); eapply lookup_lt_Some; exact Ha).
  destruct (lookup_lt_is_Some_2 _ _ Hi) as [a' Ha'].
  exists a'. split; [exact Ha'|].
  destruct (valid_ a') eqn:Hva'; [exfalso|reflexivity].
  destruct (shape_key csz v v' i a' a Hsh Ha' Ha) as [Ka Fa].
  destruct (Hsurv j b Hb Hvb) as (k & d & Hd & Hvd & Kd & Fd).
  destruct (decide (i = k)) as [->|Hne].
  - rewrite Ha' in Hd. injection Hd as <-. lia.
  - apply (Huniq i k a' d Hne Ha' Hd Hva' Hvd). congruence.
Qed.

End Sorted.

Lemma RowCmp_total (a b : list Z) : a <> b -> RowCmp a b = true \/ RowCmp b a = true.
Proof.
  revert b. induction a as [|x a IH]; intros [|y b] Hne; simpl; auto.
  destruct (Z.ltb_spec x y) as [Hxy|Hxy]; [left; reflexivity|].
  destruct (Z.ltb_spec y x) as [Hyx|Hyx]; [right; reflexivity|].
  assert (x = y) as -> by lia. rewrite Z.eqb_refl. simpl.
  apply IH. congruence.
Qed.

Lemma dedup_coords_newest_wins_witness :
  sorted_by RowCmp 2 s4_coords = true /\
  exists v', dedup_coords 4 2 s4_coords = Some v'
    /\ shape s4_coords v'
    /\ (forall i j a b, i <> j -> v' !! i = Some a -> v' !! j = Some b ->
          valid_ a = true -> valid_ b = true -> key 2 a <> key 2 b)
    /\ (forall i j a b, s4_coords !! i = Some a -> s4_coords !! j = Some b ->
          valid_ a = true -> valid_ b = true ->
          key 2 a = key 2 b -> (frag a < frag b)%Z ->
          exists a', v' !! i = Some a' /\ valid_ a' = false)
    /\ (forall j b, s4_coords !! j = Some b -> valid_ b = true ->
          exists k d, v' !! k = Some d /\ valid_ d = true
                      /\ key 2 d = key 2 b /\ (frag b <= frag d)%Z).
Proof.
  split; [reflexivity|].
  apply (dedup_coords_newest_wins RowCmp RowCmp_total 2 s4_coords). reflexivity.
Defined.

Example dedup_s4 :
  dedup_coords 4 2 s4_coords =
  Some [ mkOC (mkOT 0 0 true ∅) [1; 1]%Z 0 false;
         mkOC (mkOT 1 0 true ∅) [1; 1]%Z 0 true;
         mkOC (mkOT 0 0 true ∅) [2; 2]%Z 1 true ].
Proof. reflexivity. Qed.

End DedupFacts.

(** ** The deduplication on coordinates of a real type *)

Module DedupFloatFacts.
Import Dedup.
Import DedupFloat.

(** C2.  The deduplication compares the tuples of neighbours byte by
    byte, while the sort in front of it compares the coordinates as
    values.  For a [float] dimension the two differ at [+0.0] and [-0.0]:
    the vector [+0.0] of fragment 0, [-0.0] of fragment 1, [+0.0] of
    fragment 1 is sorted by the comparator, no two neighbours in it are
    byte-equal, and [dedup_coords] returns it as it is.  The first and the
    third entry are both valid afterwards although their tuples are
    byte-equal and the first comes from the lower fragment. *)
Theorem dedup_coords_signed_zero :
  sorted_by Float32Cmp 4 signed_zero_coords = true
  /\ Float32Cmp [0; 0; 0; 0] [0; 0; 0; 128] = false
  /\ Float32Cmp [0; 0; 0; 128] [0; 0; 0; 0] = false
  /\ dedup_coords 4 4 signed_zero_coords = Some signed_zero_coords
  /\ exists a b,
       signed_zero_coords !! 0%nat = Some a /\ signed_zero_coords !! 2%nat = Some b
       /\ valid_ a = true /\ valid_ b = true
       /\ key 4 a = key 4 b /\ frag a < frag b.
Proof.
  split; [vm_compute; reflexivity|]. split; [vm_compute; reflexivity|].
  split; [vm_compute; reflexivity|]. split; [vm_compute; reflexivity|].
  eexists _, _. split; [reflexivity|]. split; [reflexivity|].
  repeat split.
Qed.

End DedupFloatFacts.

(** ** Facts on the reader *)

Module ReaderFacts.
Import ReaderModel.

#[local] Arguments RETURN_CANCEL_OR_ERROR : simpl never.

(** *** [incomplete] *)

(** C7.  [incomplete()] is true exactly when the overflow flag of the
    active read state is set or partitions remain: on the legacy path the
    current partition pointer is not null, on the new path the partitioner
    is not done. *)
Theorem incomplete_iff (r : Reader) :
  incomplete r = true <->
  if set_ (read_state_2_ r)
  then overflowed_2 (read_state_2_ r) = true \/ done (read_state_2_ r) = false
  else overflowed_ (read_state_ r) = true
       \/ cur_subarray_partition_ (read_state_ r) <> None.
Proof.
  unfold incomplete. destruct (set_ (read_state_2_ r)).
  - rewrite orb_true_iff, negb_true_iff. reflexivity.
  - rewrite orb_true_iff, bool_decide_eq_true. reflexivity.
Qed.

(** *** [set_buffer] after initialization *)

Lemma set_buffer_new_attribute (r : Reader) (attr : string) (buffer buffer_size : ptr) :
  initialized_ (read_state_ r) = true -> attr_buffers_ r !! attr = None ->
  exists code msg, set_buffer r attr buffer buffer_size = (Err code msg, r).
Proof.
  intros Hinit Hnew. unfold set_buffer.
  assert (Hex : bool_decide (is_Some (attr_buffers_ r !! attr)) = false).
  { apply bool_decide_eq_false_2. rewrite Hnew. intros [? ?]; discriminate. }
  rewrite Hinit, Hex. simpl.
  repeat case_match; eauto.
Qed.

Lemma set_buffer_var_new_attribute (r : Reader) (attr : string)
    (buffer_off buffer_off_size buffer_val buffer_val_size : ptr) :
  initialized_ (read_state_ r) = true -> attr_buffers_ r !! attr = None ->
  exists code msg,
    set_buffer_var r attr buffer_off buffer_off_size buffer_val buffer_val_size
    = (Err code msg, r).
Proof.
  intros Hinit Hnew. unfold set_buffer_var.
  assert (Hex : bool_decide (is_Some (attr_buffers_ r !! attr)) = false).
  { apply bool_decide_eq_false_2. rewrite Hnew. intros [? ?]; discriminate. }
  rewrite Hinit, Hex. simpl.
  repeat case_match; eauto.
Qed.

Lemma set_buffer_existing_attribute (r : Reader) (attr : string) (schema : ArraySchema)
    (ab : AttributeBuffer) (b bs : loc) :
  array_schema_ r = Some schema -> attr_buffers_ r !! attr = Some ab ->
  fixed_attribute schema attr ->
  exists r', set_buffer r attr (Some b) (Some bs) = (Ok, r')
    /\ attr_buffers_ r' = <[attr := AttributeBuffer_new (mem_ r) (Some b) None (Some bs) None]>
                            (attr_buffers_ r)
    /\ attributes_ r' = attributes_ r.
Proof.
  intros Hs Hab Hfix. unfold set_buffer. simpl. rewrite Hs.
  assert (Hex : bool_decide (is_Some (attr_buffers_ r !! attr)) = true).
  { apply bool_decide_eq_true_2. rewrite Hab. eauto. }
  rewrite Hex. rewrite andb_false_r.
  assert (H1 : negb (attr =? coords)%string && bool_decide (attribute schema attr = None) = false).
  { destruct Hfix as [->|(a & Ha & _)].
    - rewrite String.eqb_refl. reflexivity.
    - rewrite Ha. rewrite bool_decide_eq_false_2 by discriminate. apply andb_false_r. }
  assert (H2 : negb (attr =? coords)%string && var_size schema attr = false).
  { destruct Hfix as [->|(a & Ha & Hv)].
    - rewrite String.eqb_refl. reflexivity.
    - unfold var_size. rewrite Ha, Hv. apply andb_false_r. }
  rewrite H1, H2. eexists. split; [reflexivity|]. split; reflexivity.
Qed.

Lemma set_buffer_var_existing_attribute (r : Reader) (attr : string) (schema : ArraySchema)
    (ab : AttributeBuffer) (bo bos bv bvs : loc) :
  array_schema_ r = Some schema -> attr_buffers_ r !! attr = Some ab ->
  var_attribute schema attr ->
  exists r', set_buffer_var r attr (Some bo) (Some bos) (Some bv) (Some bvs) = (Ok, r')
    /\ attr_buffers_ r'
       = <[attr := AttributeBuffer_new (mem_ r) (Some bo) (Some bv) (Some bos) (Some bvs)]>
           (attr_buffers_ r)
    /\ attributes_ r' = attributes_ r.
Proof.
  intros Hs Hab (Hne & a & Ha & Hv). unfold set_buffer_var. simpl. rewrite Hs.
  assert (Hex : bool_decide (is_Some (attr_buffers_ r !! attr)) = true).
  { apply bool_decide_eq_true_2. rewrite Hab. eauto. }
  rewrite Hex. rewrite andb_false_r.
  assert (Hc : (attr =? coords)%string = false) by (apply String.eqb_neq; exact Hne).
  rewrite Hc. simpl. rewrite Ha. rewrite bool_decide_eq_false_2 by discriminate.
  unfold var_size. rewrite Ha, Hv. simpl.
  eexists. split; [reflexivity|]. split; reflexivity.
Qed.

Lemma set_buffer_frozen (r : Reader) (attr : string) (buffer buffer_size : ptr) :
  initialized_ (read_state_ r) = true ->
  attributes_ (snd (set_buffer r attr buffer buffer_size)) = attributes_ r
  /\ dom (attr_buffers_ (snd (set_buffer r attr buffer buffer_size))) = dom (attr_buffers_ r).
Proof.
  intros Hinit. unfold set_buffer. rewrite Hinit. simpl.
  destruct (bool_decide (is_Some (attr_buffers_ r !! attr))) eqn:Hex; simpl.
  - apply bool_decide_eq_true_1 in Hex.
    repeat case_match; simpl;
      (split; [reflexivity | try reflexivity; apply dom_insert_lookup_L; assumption]).
  - repeat case_match; simpl; split; reflexivity.
Qed.

Lemma set_buffer_var_frozen (r : Reader) (attr : string)
    (buffer_off buffer_off_size buffer_val buffer_val_size : ptr) :
  initialized_ (read_state_ r) = true ->
  attributes_ (snd (set_buffer_var r attr buffer_off buffer_off_size buffer_val
                      buffer_val_size)) = attributes_ r
  /\ dom (attr_buffers_ (snd (set_buffer_var r attr buffer_off buffer_off_size buffer_val
                                buffer_val_size))) = dom (attr_buffers_ r).
Proof.
  intros Hinit. unfold set_buffer_var. rewrite Hinit. simpl.
  destruct (bool_decide (is_Some (attr_buffers_ r !! attr))) eqn:Hex; simpl.
  - apply bool_decide_eq_true_1 in Hex.
    repeat case_match; simpl;
      (split; [reflexivity | try reflexivity; apply dom_insert_lookup_L; assumption]).
  - repeat case_match; simpl; split; reflexivity.
Qed.

(** C10.  Once the legacy read state is initialized, both overloads of
    [set_buffer] return an error and change nothing for an attribute that
    has no buffer yet; for an attribute that has one they succeed, given
    non-null pointers and an attribute the overload applies to, and
    replace its buffer; and whatever the arguments, the list of attributes
    and the set of attributes with a buffer stay as they are. *)
Theorem set_buffer_after_initialization (r : Reader) (attr : string) :
  initialized_ (read_state_ r) = true ->
  (attr_buffers_ r !! attr = None ->
     (forall buffer buffer_size, exists code msg,
        set_buffer r attr buffer buffer_size = (Err code msg, r))
     /\ (forall buffer_off buffer_off_size buffer_val buffer_val_size, exists code msg,
           set_buffer_var r attr buffer_off buffer_off_size buffer_val buffer_val_size
           = (Err code msg, r)))
  /\ (forall schema ab b bs,
        array_schema_ r = Some schema -> attr_buffers_ r !! attr = Some ab ->
        fixed_attribute schema attr ->
        exists r', set_buffer r attr (Some b) (Some bs) = (Ok, r')
          /\ attr_buffers_ r'
             = <[attr := AttributeBuffer_new (mem_ r) (Some b) None (Some bs) None]>
                 (attr_buffers_ r)
          /\ attributes_ r' = attributes_ r)
  /\ (forall schema ab bo bos bv bvs,
        array_schema_ r = Some schema -> attr_buffers_ r !! attr = Some ab ->
        var_attribute schema attr ->
        exists r', set_buffer_var r attr (Some bo) (Some bos) (Some bv) (Some bvs) = (Ok, r')
          /\ attr_buffers_ r'
             = <[attr := AttributeBuffer_new (mem_ r) (Some bo) (Some bv) (Some bos) (Some bvs)]>
                 (attr_buffers_ r)
          /\ attributes_ r' = attributes_ r)
  /\ (forall buffer buffer_size,
        attributes_ (snd (set_buffer r attr buffer buffer_size)) = attributes_ r
        /\ dom (attr_buffers_ (snd (set_buffer r attr buffer buffer_size)))
           = dom (attr_buffers_ r))
  /\ (forall buffer_off buffer_off_size buffer_val buffer_val_size,
        attributes_ (snd (set_buffer_var r attr buffer_off buffer_off_size buffer_val
                            buffer_val_size)) = attributes_ r
        /\ dom (attr_buffers_ (snd (set_buffer_var r attr buffer_off buffer_off_size
                                      buffer_val buffer_val_size)))
           = dom (attr_buffers_ r)).
Proof.
  intros Hinit. repeat split.
  - intros. apply set_buffer_new_attribute; assumption.
  - intros. apply set_buffer_var_new_attribute; assumption.
  - intros. eapply set_buffer_existing_attribute; eassumption.
  - intros. eapply set_buffer_var_existing_attribute; eassumption.
  - apply set_buffer_frozen; assumption.
  - apply set_buffer_frozen; assumption.
  - apply set_buffer_var_frozen; assumption.
  - apply set_buffer_var_frozen; assumption.
Qed.

(** *** What the reads leave as it is *)

Lemma frame_refl (r : Reader) : frame r r.
Proof. repeat split. Qed.

Lemma frame_trans (r1 r2 r3 : Reader) : frame r1 r2 -> frame r2 r3 -> frame r1 r3.
Proof.
  unfold frame. intros (A1 & A2 & A3 & A4 & A5 & A6 & A7) (B1 & B2 & B3 & B4 & B5 & B6 & B7).
  repeat split; congruence.
Qed.

Lemma frame_with_mem (r : Reader) (m : Mem) : frame r (with_mem r m).
Proof. repeat split. Qed.

Lemma frame_with_cancel (r : Reader) (c : list bool) : frame r (with_cancel r c).
Proof. repeat split. Qed.

Lemma frame_with_read_state (r : Reader) (s : ReadState) : frame r (with_read_state r s).
Proof. repeat split. Qed.

Lemma frame_with_read_state_2 (r : Reader) (s : ReadState2) :
  set_ s = set_ (read_state_2_ r) -> frame r (with_read_state_2 r s).
Proof. intros H. repeat split. exact H. Qed.

Lemma frame_set_overflowed_both (r : Reader) : frame r (set_overflowed_both r).
Proof. repeat split. Qed.

Lemma frame_zero_out (r : Reader) : frame r (zero_out_buffer_sizes r).
Proof. apply frame_with_mem. Qed.

Lemma frame_start_attempt (r : Reader) : frame r (start_attempt r).
Proof. repeat split. Qed.

Lemma frame_clear_read_state (r : Reader) : frame r (clear_read_state r).
Proof. repeat split. Qed.

Lemma keeps_ret (r0 r : Reader) (st : Status) : frame r0 r -> keeps r0 (Ret (st, r)).
Proof. intros H st' r' [= <- <-]. exact H. Qed.

Lemma keeps_aborted (r0 : Reader) : keeps r0 Aborted.
Proof. intros st r' H. discriminate. Qed.

Lemma keeps_out_of_fuel (r0 : Reader) : keeps r0 OutOfFuel.
Proof. intros st r' H. discriminate. Qed.

Lemma keeps_bind (r0 : Reader) (run : Run (Status * Reader))
    (k : Status * Reader -> Run (Status * Reader)) :
  keeps r0 run -> (forall st r, frame r0 r -> keeps r0 (k (st, r))) ->
  keeps r0 (run ≫= k).
Proof.
  intros Hrun Hk st r' H. destruct run as [[st1 r1]| |]; simpl in H; try discriminate.
  apply (Hk st1 r1 (Hrun st1 r1 eq_refl) st r' H).
Qed.

Lemma keeps_cancel_or_error (r0 : Reader) (res : Run (Status * Reader))
    (k : Reader -> Run (Status * Reader)) :
  keeps r0 res -> (forall r, frame r0 r -> keeps r0 (k r)) ->
  keeps r0 (RETURN_CANCEL_OR_ERROR res k).
Proof.
  intros Hres Hk. unfold RETURN_CANCEL_OR_ERROR. apply keeps_bind; [exact Hres|].
  intros st r Hf. destruct (ok st).
  - destruct (cancel_ r) as [|[] rest].
    + apply Hk. exact Hf.
    + apply keeps_ret. eapply frame_trans; [exact Hf | apply frame_with_cancel].
    + apply Hk. eapply frame_trans; [exact Hf | apply frame_with_cancel].
  - apply keeps_ret. exact Hf.
Qed.

Lemma keeps_run_stages (r0 : Reader) (status_of : Stage -> Status)
    (stages : list Stage) (k : Reader -> Run (Status * Reader)) (r : Reader) :
  frame r0 r -> (forall r1, frame r0 r1 -> keeps r0 (k r1)) ->
  keeps r0 (run_stages status_of stages k r).
Proof.
  intros Hf Hk. revert r Hf. induction stages as [|stage stages IH]; intros r Hf; simpl.
  - apply Hk. exact Hf.
  - apply keeps_cancel_or_error; [apply keeps_ret; exact Hf|].
    intros r1 Hf1. apply IH. exact Hf1.
Qed.

Lemma keeps_copy_fixed_cells (E : Env) (r0 r : Reader) (attr : string)
    (crs : list CellRange) :
  frame r0 r -> keeps r0 (copy_fixed_cells E r attr crs).
Proof.
  intros Hf st r' H. unfold copy_fixed_cells in H.
  repeat case_match; try discriminate.
  - injection H as <- <-. eapply frame_trans; [exact Hf | apply frame_set_overflowed_both].
  - destruct (copy_fixed_ranges _ _ _ _ _ _ _ _ _ _) as [m| |]; simpl in H; try discriminate.
    injection H as <- <-. eapply frame_trans; [exact Hf | apply frame_with_mem].
Qed.

Lemma keeps_copy_var_cells (E : Env) (r0 r : Reader) (attr : string)
    (crs : list CellRange) :
  frame r0 r -> keeps r0 (copy_var_cells E r attr crs).
Proof.
  intros Hf st r' H. unfold copy_var_cells in H.
  repeat case_match; try discriminate; injection H as <- <-.
  - eapply frame_trans; [exact Hf | apply frame_set_overflowed_both].
  - eapply frame_trans; [exact Hf | apply frame_with_mem].
Qed.

Lemma keeps_copy_cells (E : Env) (r0 r : Reader) (attr : string) (crs : list CellRange) :
  frame r0 r -> keeps r0 (copy_cells E r attr crs).
Proof.
  intros Hf. unfold copy_cells. destruct crs as [|cr crs].
  - apply keeps_ret. eapply frame_trans; [exact Hf | apply frame_zero_out].
  - destruct (array_schema_ r); [|apply keeps_aborted].
    destruct (var_size _ _);
      [apply keeps_copy_var_cells | apply keeps_copy_fixed_cells]; exact Hf.
Qed.

Lemma keeps_fill_coords (E : Env) (r0 r : Reader) :
  frame r0 r -> keeps r0 (fill_coords E r).
Proof.
  intros Hf. unfold fill_coords.
  repeat case_match; try apply keeps_aborted.
  apply keeps_cancel_or_error; [apply keeps_ret; exact Hf|].
  intros r1 Hf1. repeat case_match; apply keeps_ret.
  - eapply frame_trans; [exact Hf1|].
    eapply frame_trans; [apply frame_with_mem | apply frame_with_read_state].
  - eapply frame_trans; [exact Hf1 | apply frame_with_mem].
Qed.

Lemma keeps_dense_copy_cells (E : Env) (r0 : Reader) (attrs : list string)
    (crs : list CellRange) (r : Reader) :
  frame r0 r -> keeps r0 (dense_copy_cells E attrs crs r).
Proof.
  revert r. induction attrs as [|a attrs IH]; intros r Hf; simpl.
  - apply keeps_ret. exact Hf.
  - destruct (overflowed_ (read_state_ r)); [apply keeps_ret; exact Hf|].
    destruct (String.eqb a coords); [apply IH; exact Hf|].
    apply keeps_cancel_or_error; [apply keeps_copy_cells; exact Hf|].
    intros r1 Hf1. apply IH. exact Hf1.
Qed.

Lemma keeps_dense_read_T (E : Env) (r0 r : Reader) :
  frame r0 r -> keeps r0 (dense_read_T E r).
Proof.
  intros Hf. unfold dense_read_T.
  destruct (array_schema_ r); [|apply keeps_aborted].
  destruct (cur_subarray_partition_ (read_state_ r)); [|apply keeps_aborted].
  apply keeps_run_stages; [exact Hf|]. intros ra Hfa.
  apply keeps_cancel_or_error; [apply keeps_ret; exact Hfa|]. intros rb Hfb.
  apply keeps_run_stages; [exact Hfb|]. intros rc Hfc.
  apply keeps_bind; [apply keeps_dense_copy_cells; exact Hfc|].
  intros st1 r1 Hf1. destruct (negb (ok st1)); [apply keeps_ret; exact Hf1|].
  destruct (_ && _); [|apply keeps_ret; exact Hf1].
  apply keeps_cancel_or_error; [apply keeps_fill_coords; exact Hf1|].
  intros r2 Hf2. apply keeps_ret. exact Hf2.
Qed.

Lemma keeps_dense_read (E : Env) (r0 r : Reader) :
  frame r0 r -> keeps r0 (dense_read E r).
Proof.
  intros Hf. unfold dense_read.
  repeat case_match; try apply keeps_aborted; try (apply keeps_ret; exact Hf).
  apply keeps_dense_read_T. exact Hf.
Qed.

Lemma keeps_sparse_copy_cells (E : Env) (r0 : Reader) (attrs : list string)
    (crs : list CellRange) (r : Reader) :
  frame r0 r -> keeps r0 (sparse_copy_cells E attrs crs r).
Proof.
  revert r. induction attrs as [|a attrs IH]; intros r Hf; simpl.
  - apply keeps_ret. exact Hf.
  - destruct (overflowed_ (read_state_ r)); [apply keeps_ret; exact Hf|].
    apply keeps_cancel_or_error; [apply keeps_copy_cells; exact Hf|].
    intros r1 Hf1. apply IH. exact Hf1.
Qed.

Lemma keeps_sparse_read (E : Env) (r0 r : Reader) :
  frame r0 r -> keeps r0 (sparse_read E r).
Proof.
  intros Hf. unfold sparse_read, sparse_read_T.
  repeat case_match; try apply keeps_aborted; try (apply keeps_ret; exact Hf).
  all: apply keeps_run_stages; [exact Hf|]; intros r1 Hf1.
  all: apply keeps_sparse_copy_cells; exact Hf1.
Qed.

Lemma keeps_next_subarray_partition (fuel : nat) (E : Env) (r0 r : Reader) :
  frame r0 r -> keeps r0 (next_subarray_partition fuel E r).
Proof.
  intros Hf st r' H. unfold next_subarray_partition in H.
  destruct (array_schema_ r); [|discriminate].
  match type of H with (?m ≫= _) = _ => destruct m as [o| |] end;
    simpl in H; try discriminate.
  destruct o as [rs|].
  2: { injection H as <- <-. eapply frame_trans; [exact Hf | apply frame_with_read_state]. }
  destruct (subarray_partitions_ rs) as [|p ps].
  { injection H as <- <-. eapply frame_trans; [exact Hf | apply frame_with_read_state]. }
  match type of H with (?m ≫= _) = _ => destruct m as [found| |] end;
    simpl in H; try discriminate.
  destruct found as [np u rest | | st1].
  - destruct (cur_subarray_partition_ rs); [|discriminate].
    injection H as <- <-. eapply frame_trans; [exact Hf | apply frame_with_read_state].
  - injection H as <- <-. eapply frame_trans; [exact Hf | apply frame_with_read_state].
  - injection H as <- <-. eapply frame_trans; [exact Hf|].
    eapply frame_trans; [apply frame_with_read_state | apply frame_clear_read_state].
Qed.

Lemma keeps_read_loop (fuel : nat) (E : Env) (r0 : Reader) (r : Reader) :
  frame r0 r -> keeps r0 (read_loop fuel E r).
Proof.
  revert r. induction fuel as [|fuel IH]; intros r Hf; simpl; [apply keeps_out_of_fuel|].
  pose proof (frame_trans _ _ _ Hf (frame_start_attempt r)) as Hf0.
  destruct (array_schema_ r); [|apply keeps_aborted].
  apply keeps_bind.
  { destruct (_ && _); [apply keeps_dense_read | apply keeps_sparse_read]; exact Hf0. }
  intros st1 r1 Hf1. destruct (negb (ok st1)); [apply keeps_ret; exact Hf1|].
  apply keeps_bind.
  { apply keeps_next_subarray_partition.
    destruct (overflowed_ (read_state_ r1)); [|exact Hf1].
    eapply frame_trans; [exact Hf1 | apply frame_zero_out]. }
  intros st2 r2 Hf2. destruct (negb (ok st2)); [apply keeps_ret; exact Hf2|].
  destruct (_ && _).
  { apply keeps_ret. eapply frame_trans; [exact Hf2 | apply frame_zero_out]. }
  destruct (_ && _); [apply IH; exact Hf2 | apply keeps_ret; exact Hf2].
Qed.

Lemma next_set (s : ReadState2) : set_ (snd (next s)) = set_ s.
Proof. unfold next. destruct (sp_pending (partitioner_ s)); reflexivity. Qed.

Lemma split_current_set (E : Env) (layout : Layout) (s : ReadState2) :
  set_ (snd (split_current E layout s)) = set_ s.
Proof. unfold split_current. repeat case_match; reflexivity. Qed.

Lemma keeps_sparse_copy_cells_2 (E : Env) (r0 : Reader) (attrs : list string)
    (crs : list CellRange) (r : Reader) :
  frame r0 r -> keeps r0 (sparse_copy_cells_2 E attrs crs r).
Proof.
  revert r. induction attrs as [|a attrs IH]; intros r Hf; simpl.
  - apply keeps_ret. exact Hf.
  - destruct (overflowed_2 (read_state_2_ r)); [apply keeps_ret; exact Hf|].
    destruct (String.eqb a coords); [apply IH; exact Hf|].
    apply keeps_cancel_or_error; [apply keeps_ret; exact Hf|].
    intros ra Hfa.
    apply keeps_cancel_or_error; [apply keeps_ret; exact Hfa|].
    intros r1 Hf1.
    apply keeps_cancel_or_error; [apply keeps_copy_cells; exact Hf1|].
    intros r2 Hf2. apply IH. exact Hf2.
Qed.

Lemma keeps_sparse_read_2 (E : Env) (r0 r : Reader) :
  frame r0 r -> keeps r0 (sparse_read_2 E r).
Proof.
  intros Hf. unfold sparse_read_2.
  apply keeps_run_stages; [exact Hf|]. intros ra Hfa.
  apply keeps_bind.
  { destruct (bool_decide _); [|apply keeps_ret; exact Hfa].
    apply keeps_cancel_or_error; [apply keeps_copy_cells; exact Hfa|].
    intros r1 Hf1. apply keeps_ret. exact Hf1. }
  intros st1 r1 Hf1. destruct (negb (ok st1)); [apply keeps_ret; exact Hf1|].
  apply keeps_sparse_copy_cells_2. exact Hf1.
Qed.

Lemma keeps_dense_read_2 (E : Env) (T : Datatype) (r0 r : Reader) :
  frame r0 r -> keeps r0 (dense_read_2 E T r).
Proof.
  intros Hf. unfold dense_read_2.
  destruct T; try (apply keeps_dense_read_T; exact Hf);
    destruct (env_assertions E); try apply keeps_aborted; apply keeps_ret; exact Hf.
Qed.

Lemma keeps_read_2_loop (fuel : nat) (E : Env) (T : Datatype) (r0 : Reader) (r : Reader) :
  frame r0 r -> keeps r0 (read_2_loop fuel E T r).
Proof.
  revert r. induction fuel as [|fuel IH]; intros r Hf; simpl; [apply keeps_out_of_fuel|].
  destruct (array_schema_ r); [|apply keeps_aborted].
  match goal with
  | |- keeps _ (_ ≫= _) => apply keeps_bind
  end.
  { assert (Hf0 : frame r0
       (with_mem (reset_buffer_sizes
                    (with_read_state_2 r (rs2_set_overflowed (read_state_2_ r) false)))
                 (begin_attempt
                    (mem_ (reset_buffer_sizes
                             (with_read_state_2 r
                                (rs2_set_overflowed (read_state_2_ r) false))))))).
    { eapply frame_trans; [exact Hf|]. repeat split. }
    destruct (schema_dense _); [apply keeps_dense_read_2 | apply keeps_sparse_read_2];
      exact Hf0. }
  intros st1 r1 Hf1.
  destruct (overflowed_2 (read_state_2_ r1)).
  - pose proof (split_current_set E (layout_ (zero_out_buffer_sizes r1))
                  (read_state_2_ (zero_out_buffer_sizes r1))) as Hset.
    destruct (split_current _ _ _) as [st2 rs2]. simpl in Hset.
    assert (Hf2 : frame r0 (with_read_state_2 (zero_out_buffer_sizes r1) rs2)).
    { eapply frame_trans; [exact Hf1|].
      eapply frame_trans; [apply frame_zero_out|].
      apply frame_with_read_state_2. exact Hset. }
    destruct (negb (ok st2)); [apply keeps_ret; exact Hf2|].
    destruct (unsplittable_2 rs2); [apply keeps_ret; exact Hf2 | apply IH; exact Hf2].
  - destruct (_ || _); [apply keeps_ret; exact Hf1|].
    pose proof (next_set (read_state_2_ r1)) as Hset.
    destruct (next _) as [st2 rs2]. simpl in Hset.
    assert (Hf2 : frame r0 (with_read_state_2 r1 rs2)).
    { eapply frame_trans; [exact Hf1|]. apply frame_with_read_state_2. exact Hset. }
    destruct (negb (ok st2)); [apply keeps_ret; exact Hf2 | apply IH; exact Hf2].
Qed.

Lemma keeps_read_2 (fuel : nat) (E : Env) (r : Reader) : keeps r (read_2 fuel E r).
Proof.
  unfold read_2. destruct (array_schema_ r); [|apply keeps_aborted].
  assert (HT : forall T, keeps r (read_2_T fuel E T r)).
  { intros T. unfold read_2_T.
    assert (Hset : set_ (snd (if negb (unsplittable_2 (read_state_2_ r))
                              then next (read_state_2_ r) else (Ok, read_state_2_ r)))
                   = set_ (read_state_2_ r)).
    { destruct (negb _); [apply next_set | reflexivity]. }
    destruct (if negb _ then _ else _) as [st rs2]. simpl in Hset.
    pose proof (frame_with_read_state_2 r rs2 Hset) as Hf.
    destruct (negb (ok st)); [apply keeps_ret; exact Hf|].
    destruct (bool_decide _).
    - apply keeps_ret. eapply frame_trans; [exact Hf | apply frame_zero_out].
    - apply keeps_read_2_loop. exact Hf. }
  destruct (schema_coords_type _); try apply HT; apply keeps_ret; apply frame_refl.
Qed.

(** No read changes the schema, the buffers, the attributes, the
    fragments, the layout, the sparse mode or the path. *)
Lemma keeps_read (fuel : nat) (E : Env) (r : Reader) : keeps r (read fuel E r).
Proof.
  unfold read. destruct (set_ (read_state_2_ r)); [apply keeps_read_2|].
  destruct (_ || _).
  - apply keeps_ret. apply frame_zero_out.
  - apply keeps_read_loop. apply frame_refl.
Qed.

Lemma after_reads_frame (E : Env) (r r' : Reader) : after_reads E r r' -> frame r r'.
Proof.
  induction 1 as [|fuel st r1 r2 _ IH Hread]; [apply frame_refl|].
  eapply frame_trans; [exact IH|]. exact (keeps_read fuel E r1 st r2 Hread).
Qed.

(** *** [init] on an array of one dimension *)

Lemma keeps_init_read_state (fuel : nat) (E : Env) (r : Reader) :
  keeps r (init_read_state fuel E r).
Proof.
  unfold init_read_state. destruct (negb (env_malloc E)); [apply keeps_ret, frame_refl|].
  destruct (subarray_ (read_state_ r)); [|apply keeps_aborted].
  apply keeps_bind; [apply keeps_next_subarray_partition, frame_with_read_state|].
  intros st1 r1 Hf1. destruct (negb (ok st1)); apply keeps_ret; [exact Hf1|].
  eapply frame_trans; [exact Hf1 | apply frame_with_read_state].
Qed.

Lemma init_config_layout (E : Env) (r : Reader) :
  layout_ (snd (init_config E r)) = layout_ r
  /\ array_schema_ (snd (init_config E r)) = array_schema_ r
  /\ set_ (read_state_2_ (snd (init_config E r))) = set_ (read_state_2_ r).
Proof. unfold init_config. repeat case_match; repeat split. Qed.

Lemma set_subarray_schema (E : Env) (r : Reader) (s : option Subarray) (st : Status)
    (r' : Reader) :
  set_subarray E r s = Ret (st, r') -> array_schema_ r' = array_schema_ r.
Proof.
  unfold set_subarray. intros H.
  repeat case_match; try discriminate; injection H as <- <-; reflexivity.
Qed.

(** C9.  On the legacy path [init] of a reader over an array of one
    dimension, when it succeeds, leaves the layout GLOBAL_ORDER whatever
    layout [set_layout] had set before; and every read that follows finds
    and leaves the layout GLOBAL_ORDER, so that [sort_coords] sorts with
    the global-order comparator. *)
Theorem init_1D_global_order (fuel : nat) (E : Env) (r r' : Reader)
    (schema : ArraySchema) (layout : Layout) :
  array_schema_ r = Some schema -> schema_dim_num schema = 1 ->
  set_ (read_state_2_ r) = false ->
  init fuel E (snd (set_layout r layout)) = Ret (Ok, r') ->
  layout_ r' = GLOBAL_ORDER
  /\ forall r'', after_reads E r' r'' ->
       layout_ r'' = GLOBAL_ORDER /\ sort_coords_comparator r'' = Some GlobalCmp.
Proof.
  intros Hs Hdim Hset Hinit.
  assert (Hl : layout_ r' = GLOBAL_ORDER).
  { unfold init, set_layout in Hinit. simpl in Hinit.
    destruct (negb (storage_manager_ r)); [discriminate|].
    destruct (bool_decide (array_schema_ r = None)); [discriminate|].
    destruct (bool_decide (attr_buffers_ r = ∅)); [discriminate|].
    destruct (bool_decide (attributes_ r = [])); [discriminate|].
    destruct (init_config_layout E (with_layout r layout)) as (_ & Hs1 & Hset1).
    destruct (init_config E (with_layout r layout)) as [st1 r1]. simpl in Hs1, Hset1.
    destruct st1 as [|c1 m1]; simpl in Hinit; [|discriminate].
    rewrite Hset1, Hset in Hinit.
    match type of Hinit with (?m ≫= _) = _ => destruct m as [[st2 r2]| |] eqn:H2 end;
      simpl in Hinit; try discriminate.
    assert (Hs2 : array_schema_ r2 = Some schema).
    { destruct (bool_decide (subarray_ (read_state_ r1) = None)).
      - rewrite (set_subarray_schema E r1 None st2 r2 H2). congruence.
      - injection H2 as <- <-. congruence. }
    destruct st2 as [|c2 m2]; simpl in Hinit; [|discriminate].
    unfold optimize_layout_for_1D in Hinit. rewrite Hs2, Hdim in Hinit. simpl in Hinit.
    destruct (negb _).
    - apply (keeps_init_read_state fuel E _ Ok r') in Hinit.
      destruct Hinit as (_ & _ & _ & _ & H & _). exact H.
    - injection Hinit as <-. reflexivity. }
  split; [exact Hl|]. intros r'' Hreads.
  apply after_reads_frame in Hreads. destruct Hreads as (_ & _ & _ & _ & H & _).
  unfold sort_coords_comparator. rewrite H, Hl. split; reflexivity.
Qed.

(** *** Overflow in the copiers *)

(** C3.  Both copiers compute the totals of what they would write before
    they write: when the total of the fixed-sized cells exceeds the size
    the size pointer refers to, or when, for a var-sized attribute, the
    total of the offsets or the total of the values does, the copier
    returns success with both overflow flags set and the memory of the
    caller as it was. *)
Theorem copy_cells_overflow (E : Env) (r : Reader) (attr : string)
    (crs : list CellRange) (schema : ArraySchema) (ab : AttributeBuffer) :
  attr_buffers_ r !! attr = Some ab -> array_schema_ r = Some schema ->
  env_assertions E && (env_fill_value E (type schema attr) =? 0) = false ->
  (forall size_ptr,
     buffer_size_ ab = Some size_ptr ->
     load (mem_ r) size_ptr < snd (fixed_offsets (cell_size schema attr) crs 0) ->
     copy_fixed_cells E r attr crs = Ret (Ok, set_overflowed_both r))
  /\ (forall rts size_ptr var_size_ptr oo vo total_offset_size total_var_size,
        mapM (range_tiles attr) crs = Some rts ->
        buffer_size_ ab = Some size_ptr -> buffer_var_size_ ab = Some var_size_ptr ->
        compute_var_cell_destinations schema attr rts
        = (oo, vo, total_offset_size, total_var_size) ->
        load (mem_ r) size_ptr < total_offset_size
        \/ load (mem_ r) var_size_ptr < total_var_size ->
        copy_var_cells E r attr crs = Ret (Ok, set_overflowed_both r))
  /\ mem_ (set_overflowed_both r) = mem_ r
  /\ overflowed_ (read_state_ (set_overflowed_both r)) = true
  /\ overflowed_2 (read_state_2_ (set_overflowed_both r)) = true.
Proof.
  intros Hab Hs Hfill. repeat split.
  - intros size_ptr Hp Hlt. unfold copy_fixed_cells. rewrite Hab, Hs, Hfill, Hp.
    apply Z.ltb_lt in Hlt. rewrite Hlt. reflexivity.
  - intros rts size_ptr var_size_ptr oo vo t1 t2 Hrts Hp Hpv Hdest Hlt.
    unfold copy_var_cells. rewrite Hab, Hs, Hfill, Hrts, Hp, Hpv, Hdest.
    assert (Hov : (load (mem_ r) size_ptr <? t1) || (load (mem_ r) var_size_ptr <? t2) = true).
    { apply orb_true_iff. destruct Hlt as [H|H]; [left|right]; apply Z.ltb_lt; exact H. }
    rewrite Hov. reflexivity.
Qed.

Lemma copy_cells_overflow_witness :
  copy_fixed_cells (ex_env false) (ex_reader_var 8) "a" [mkCR (Some ex_tile) 0 3]
  = Ret (Ok, set_overflowed_both (ex_reader_var 8))
  /\ copy_var_cells (ex_env false) (ex_reader_var 8) "s" [mkCR None 0 2]
     = Ret (Ok, set_overflowed_both (ex_reader_var 8)).
Proof.
  split.
  - refine (proj1 (copy_cells_overflow (ex_env false) (ex_reader_var 8) "a"
                     [mkCR (Some ex_tile) 0 3] (ex_schema INT32)
                     (mkBuf (Some 1%positive) None (Some 2%positive) None 8 0)
                     _ _ _) 2%positive _ _).
    + vm_compute. reflexivity.
    + reflexivity.
    + reflexivity.
    + reflexivity.
    + vm_compute. reflexivity.
  - refine (proj1 (proj2 (copy_cells_overflow (ex_env false) (ex_reader_var 8) "s"
                     [mkCR None 0 2] (ex_schema INT32)
                     (mkBuf (Some 3%positive) (Some 5%positive) (Some 4%positive)
                            (Some 6%positive) 16 8)
                     _ _ _))
              [mkRT None 0 2] 4%positive 6%positive
              [[0; 8; 16]] [[0; 4; 8]] 24 12 _ _ _ _ _).
    + vm_compute. reflexivity.
    + reflexivity.
    + reflexivity.
    + reflexivity.
    + reflexivity.
    + reflexivity.
    + vm_compute. reflexivity.
    + left. vm_compute. reflexivity.
Defined.

(** *** The fill of the empty cells of a var-sized attribute *)

(** For a cell of an empty range [copy_var_cells] copies from the address
    of the local pointer variable: the bytes that reach the values buffer
    are the first bytes of the pointer, not the fill value. *)
Lemma copy_var_cell_empty (buffer buffer_var : loc) (fill_size : Z) (fill_ptr : list Z)
    (s e : Z) (oo vo : list Z) (m : Mem) (cell_idx : Z) :
  copy_var_cell buffer buffer_var fill_size fill_ptr (mkRT None s e) oo vo m cell_idx
  = memcpy (memcpy m buffer (default 0 (oo !! Z.to_nat (u64 (cell_idx - s))))
                   (le_bytes 8 (default 0 (vo !! Z.to_nat (u64 (cell_idx - s)))))
                   cell_var_offset_size)
           buffer_var (default 0 (vo !! Z.to_nat (u64 (cell_idx - s)))) fill_ptr fill_size.
Proof. reflexivity. Qed.

(** C5.  The var-sized [int32] attribute [s] copied for one empty cell,
    the fill value [INT_MIN] stored at the address 0x601040.  Four bytes,
    the size of the type, are accounted for in the values buffer, but they
    are the low bytes 40 10 60 00 of the address and not the bytes
    00 00 00 80 of the fill value; the copier of the fixed-sized cells,
    given the same empty cell for the attribute [a], writes the fill
    value. *)
Theorem copy_var_cells_empty_cell :
  (exists r',
     copy_var_cells (ex_env false) (ex_reader_var 8) "s" [mkCR None 0 0] = Ret (Ok, r')
     /\ bytes (mem_ r') !! 5%positive = Some [64; 16; 96; 0; 0; 0; 0; 0]
     /\ load (mem_ r') 6%positive = datatype_size INT32
     /\ written_to (mem_ r') 5%positive = datatype_size INT32)
  /\ env_deref (ex_env false) (env_fill_value (ex_env false) INT32) = [0; 0; 0; 128]
  /\ le_bytes 8 (env_fill_value (ex_env false) INT32) = [64; 16; 96; 0; 0; 0; 0; 0]
  /\ (exists r',
        copy_fixed_cells (ex_env false) (ex_reader_var 8) "a" [mkCR None 0 0] = Ret (Ok, r')
        /\ bytes (mem_ r') !! 1%positive = Some [0; 0; 0; 128; 0; 0; 0; 0]).
Proof.
  repeat split.
  - eexists. split; [vm_compute; reflexivity|]. repeat split; vm_compute; reflexivity.
  - eexists. split; [vm_compute; reflexivity|]. vm_compute; reflexivity.
Qed.

(** *** The planner: what happens to a popped partition *)

Lemma with_read_state_twice (r : Reader) (a b : ReadState) :
  with_read_state (with_read_state r a) b = with_read_state r b.
Proof. reflexivity. Qed.

(** C6, as the code has it.  The loop of [next_subarray_partition] is
    entered with the pending partitions, to the front of which an overflow
    has first pushed the two halves of the current partition; from there
    on the call is the search through them.  Let [p] be a partition the
    loop pops, with an estimate the storage manager delivers.  If the
    estimate is zero for all attributes, [p] is dropped and the loop goes
    on with the partitions behind it; it ends with no current partition
    when none is left.  If some rounded estimate exceeds its buffer and the
    domain splits [p], the two halves take its place at the front of the
    pending list, the first half first, and the loop goes on with them.
    If some rounded estimate exceeds its buffer and the domain cannot
    split [p], then [p] becomes the current partition and the unsplittable
    flag is set.  Otherwise [p] becomes the current partition. *)
Theorem next_subarray_partition_popped (fuel : nat) (E : Env) (r : Reader)
    (schema : ArraySchema) (cur : Subarray) :
  array_schema_ r = Some schema ->
  cur_subarray_partition_ (read_state_ r) = Some cur ->
  (forall pending, loop_entry E r = Some pending ->
     next_subarray_partition fuel E r
     = search_and_update fuel E schema r
         (rs_set_partitions (rs_set_unsplittable (read_state_ r) false) pending) pending)
  /\ forall (rs : ReadState) (p : Subarray) (rest : list Subarray) (est : string -> Q * Q),
       cur_subarray_partition_ rs <> None ->
       env_est_read_buffer_sizes E (fragment_metadata_ r) p = (Ok, est) ->
       (est_no_results est (attr_buffers_ r) = true ->
        search_and_update (S fuel) E schema r rs (p :: rest)
        = match rest with
          | [] => Ret (Ok, with_read_state r (rs_set_cur (rs_set_partitions rs []) None))
          | _ => search_and_update fuel E schema r rs rest
          end)
       /\ (est_no_results est (attr_buffers_ r) = false ->
           est_must_split schema est (attr_buffers_ r) = true ->
           forall subarray_1 subarray_2,
             env_split_subarray E p (layout_ r) = (Ok, (Some subarray_1, Some subarray_2)) ->
             search_and_update (S fuel) E schema r rs (p :: rest)
             = search_and_update fuel E schema r rs (subarray_1 :: subarray_2 :: rest))
       /\ (est_no_results est (attr_buffers_ r) = false ->
           est_must_split schema est (attr_buffers_ r) = true ->
           forall o1 o2,
             env_split_subarray E p (layout_ r) = (Ok, (o1, o2)) ->
             o1 = None \/ o2 = None ->
             search_and_update (S fuel) E schema r rs (p :: rest)
             = Ret (Ok, with_read_state r
                          (rs_set_cur
                             (rs_set_partitions (rs_set_unsplittable rs true) rest)
                             (Some p))))
       /\ (est_no_results est (attr_buffers_ r) = false ->
           est_must_split schema est (attr_buffers_ r) = false ->
           search_and_update (S fuel) E schema r rs (p :: rest)
           = Ret (Ok, with_read_state r
                        (rs_set_cur (rs_set_partitions rs rest) (Some p)))).
Proof.
  intros Hs Hcur. split.
  - intros pending Hentry. unfold loop_entry in Hentry.
    unfold next_subarray_partition, search_and_update. rewrite Hs.
    cbn [overflowed_ rs_set_unsplittable cur_subarray_partition_ subarray_partitions_].
    destruct (overflowed_ (read_state_ r)) eqn:Hov.
    + rewrite Hcur in *.
      destruct (snd (env_split_subarray E cur (layout_ r))) as [[s1|] [s2|]];
        try discriminate.
      injection Hentry as <-. cbn [mbind Run_bind bind subarray_partitions_ rs_set_partitions].
      destruct (search_partition fuel E schema r _) as [[np u rest'| |st]| |];
        cbn [mbind Run_bind bind cur_subarray_partition_ rs_set_partitions
                 rs_set_unsplittable];
        rewrite ?Hcur; try reflexivity; try (destruct u; reflexivity).
    + cbn [mbind Run_bind bind].
      change (subarray_partitions_ (rs_set_unsplittable (read_state_ r) false))
        with (subarray_partitions_ (read_state_ r)).
      change (cur_subarray_partition_ (rs_set_unsplittable (read_state_ r) false))
        with (cur_subarray_partition_ (read_state_ r)).
      destruct (subarray_partitions_ (read_state_ r)) as [|q qs] eqn:Hpend; [discriminate|].
      injection Hentry as <-.
      destruct (search_partition fuel E schema r _) as [[np u rest'| |st]| |];
        cbn [mbind Run_bind bind cur_subarray_partition_ rs_set_partitions
                 rs_set_unsplittable];
        rewrite ?Hcur; try reflexivity; try (destruct u; reflexivity).
  - intros rs p rest est Hrs Hest.
    destruct (cur_subarray_partition_ rs) as [c|] eqn:Hc; [clear Hrs|congruence].
    unfold search_and_update. cbn [search_partition]. rewrite Hest.
    split; [|split; [|split]].
    + intros Hno. rewrite Hno. destruct rest as [|q qs]; reflexivity.
    + intros Hno Hsplit s1 s2 Hsp. rewrite Hno, Hsplit, Hsp. reflexivity.
    + intros Hno Hsplit o1 o2 Hsp Hnull. rewrite Hno, Hsplit, Hsp.
      destruct Hnull as [-> | ->]; [|destruct o1]; cbn [mbind Run_bind bind];
        rewrite Hc; reflexivity.
    + intros Hno Hsplit. rewrite Hno, Hsplit. cbn [mbind Run_bind bind]. rewrite Hc.
      reflexivity.
Qed.

Lemma next_subarray_partition_popped_witness :
  next_subarray_partition 2 (ex_env false)
    (with_read_state (ex_reader INT32 4)
       (mkRS (Some [0; 3]) (Some [0; 9]) [[4; 9]] true true false))
  = Ret (Ok, with_read_state (ex_reader INT32 4)
               (mkRS (Some [0; 0]) (Some [0; 9]) [[1; 1]; [2; 3]; [4; 9]] true true false)).
Proof.
  set (r := with_read_state (ex_reader INT32 4)
              (mkRS (Some [0; 3]) (Some [0; 9]) [[4; 9]] true true false)).
  rewrite (proj1 (next_subarray_partition_popped 2 (ex_env false) r (ex_schema INT32)
                    [0; 3] eq_refl eq_refl)
                 [[0; 1]; [2; 3]; [4; 9]] eq_refl).
  set (rs := rs_set_partitions (rs_set_unsplittable (read_state_ r) false)
               [[0; 1]; [2; 3]; [4; 9]]).
  destruct (proj2 (next_subarray_partition_popped 1 (ex_env false) r (ex_schema INT32)
                     [0; 3] eq_refl eq_refl)
                  rs [0; 1] [[2; 3]; [4; 9]] (snd (ex_est [mkFrag true] [0; 1]))
                  ltac:(discriminate) eq_refl) as (_ & Hsplit & _).
  etransitivity;
    [apply (Hsplit ltac:(vm_compute; reflexivity) ltac:(vm_compute; reflexivity)
                   [0; 0] [1; 1] eq_refl)|].
  destruct (proj2 (next_subarray_partition_popped 0 (ex_env false) r (ex_schema INT32)
                     [0; 3] eq_refl eq_refl)
                  rs [0; 0] [[1; 1]; [2; 3]; [4; 9]] (snd (ex_est [mkFrag true] [0; 0]))
                  ltac:(discriminate) eq_refl) as (_ & _ & _ & Hfits).
  etransitivity;
    [apply (Hfits ltac:(vm_compute; reflexivity) ltac:(vm_compute; reflexivity))|].
  reflexivity.
Defined.

(** A pending partition of one cell whose estimate, four bytes, exceeds
    the buffer of two bytes: the domain cannot split it, no halves are
    pushed, and the partition is made the current one with the
    unsplittable flag set. *)
Lemma next_subarray_partition_unsplittable :
  est_must_split (ex_schema INT32) (snd (ex_est [mkFrag true] [5; 5]))
                 (attr_buffers_ (ex_reader INT32 2)) = true
  /\ env_split_subarray (ex_env false) [5; 5] ROW_MAJOR = (Ok, (None, None))
  /\ exists r',
       next_subarray_partition 1 (ex_env false)
         (ex_pending (ex_reader INT32 2) [0; 0] [[5; 5]]) = Ret (Ok, r')
       /\ subarray_partitions_ (read_state_ r') = []
       /\ cur_subarray_partition_ (read_state_ r') = Some [5; 5]
       /\ unsplittable_ (read_state_ r') = true.
Proof.
  split; [vm_compute; reflexivity|]. split; [reflexivity|].
  eexists. split; [vm_compute; reflexivity|]. repeat split.
Qed.

(** *** Dense reads over a real domain *)

Lemma reset_one_bytes (m : Mem) (b : AttributeBuffer) : bytes (reset_one m b) = bytes m.
Proof. unfold reset_one. repeat case_match; reflexivity. Qed.

Lemma reset_buffer_sizes_bytes (r : Reader) :
  bytes (mem_ (reset_buffer_sizes r)) = bytes (mem_ r).
Proof.
  unfold reset_buffer_sizes. simpl.
  generalize (map_to_list (attr_buffers_ r)) (mem_ r).
  induction l as [|kv l IH]; intros m; simpl; [reflexivity|].
  rewrite IH. apply reset_one_bytes.
Qed.

(** C8, as the code has it.  A dense array whose coordinates are FLOAT32
    or FLOAT64.  On the legacy path, with fragments and a current
    partition and outside the sparse mode, [read] returns the reader
    error of the unsupported domain type, having reset the buffer sizes
    and copied nothing.  On the new path [dense_read_2] returns no error:
    it is aborted by its assertion, or returns success without reading
    when assertions are compiled out; with assertions [read] is
    aborted. *)
Theorem dense_read_real_domain (fuel : nat) (E : Env) (r : Reader) (schema : ArraySchema) :
  array_schema_ r = Some schema -> schema_dense schema = true ->
  schema_coords_type schema = FLOAT32 \/ schema_coords_type schema = FLOAT64 ->
  (set_ (read_state_2_ r) = false -> sparse_mode_ r = false ->
   fragment_metadata_ r <> [] -> cur_subarray_partition_ (read_state_ r) <> None ->
   read (S fuel) E r
   = Ret (Err ReaderError "Cannot read; Unsupported domain type", start_attempt r)
   /\ bytes (mem_ (start_attempt r)) = bytes (mem_ r))
  /\ (forall r1, dense_read_2 E (schema_coords_type schema) r1
                 = if env_assertions E then Aborted else Ret (Ok, r1))
  /\ (set_ (read_state_2_ r) = true -> fragment_metadata_ r <> [] ->
      env_assertions E = true -> read (S fuel) E r = Aborted).
Proof.
  intros Hs Hd HT. split; [|split].
  - intros Hset Hsm Hfr Hcur. split.
    + unfold read. rewrite Hset.
      rewrite (bool_decide_eq_false_2 _ Hfr), (bool_decide_eq_false_2 _ Hcur). simpl.
      rewrite Hs, Hd, Hsm. simpl. unfold dense_read. simpl. rewrite Hs.
      destruct HT as [-> | ->]; reflexivity.
    + change (bytes (mem_ (start_attempt r)))
        with (bytes (mem_ (reset_buffer_sizes
                             (with_read_state r
                                (rs_set_overflowed (read_state_ r) false))))).
      rewrite reset_buffer_sizes_bytes. reflexivity.
  - intros r1. unfold dense_read_2. destruct HT as [-> | ->]; reflexivity.
  - intros Hset Hfr Ha. unfold read. rewrite Hset. unfold read_2. rewrite Hs.
    assert (H : read_2_T (S fuel) E (schema_coords_type schema) r = Aborted).
    { unfold read_2_T.
      assert (Hnext : forall s, fst (next s) = Ok).
      { intros s. unfold next. destruct (sp_pending (partitioner_ s)); reflexivity. }
      assert (Hst : fst (if negb (unsplittable_2 (read_state_2_ r))
                         then next (read_state_2_ r) else (Ok, read_state_2_ r)) = Ok).
      { destruct (negb _); [apply Hnext | reflexivity]. }
      destruct (if negb _ then _ else _) as [st rs2]. simpl in Hst. subst st. simpl.
      rewrite (bool_decide_eq_false_2 _ Hfr). simpl. rewrite Hs, Hd.
      unfold dense_read_2. rewrite Ha. destruct HT as [-> | ->]; reflexivity. }
    destruct HT as [HT | HT]; rewrite HT in *; exact H.
Qed.

Lemma dense_read_real_domain_witness :
  read 1 (ex_env true) (ex_started (ex_reader FLOAT32 8) 0 1)
  = Ret (Err ReaderError "Cannot read; Unsupported domain type",
         start_attempt (ex_started (ex_reader FLOAT32 8) 0 1)).
Proof.
  refine (proj1 (proj1 (dense_read_real_domain 0 (ex_env true)
                          (ex_started (ex_reader FLOAT32 8) 0 1) (ex_schema FLOAT32)
                          _ _ _) _ _ _ _)).
  - reflexivity.
  - reflexivity.
  - left. reflexivity.
  - reflexivity.
  - reflexivity.
  - discriminate.
  - discriminate.
Defined.

(** A dense array with FLOAT32 coordinates read on the new path: [read]
    returns no error.  With assertions it is aborted; without them it
    returns success, the buffer sizes at their original values and
    nothing copied. *)
Lemma read_2_real_domain_no_error :
  schema_dense (ex_schema FLOAT32) = true
  /\ read 1 (ex_env true) (ex_reader_2 FLOAT32 8 0 1) = Aborted
  /\ exists r',
       read 1 (ex_env false) (ex_reader_2 FLOAT32 8 0 1) = Ret (Ok, r')
       /\ load (mem_ r') 2%positive = 8
       /\ bytes (mem_ r') = bytes (mem_ (ex_reader_2 FLOAT32 8 0 1))
       /\ written_to (mem_ r') 1%positive = 0.
Proof.
  split; [reflexivity|]. split; [vm_compute; reflexivity|].
  eexists. split; [vm_compute; reflexivity|]. repeat split; vm_compute; reflexivity.
Qed.

Lemma init_1D_global_order_witness :
  layout_ (returned (init 4 (ex_env false) (snd (set_layout (ex_reader INT32 8) COL_MAJOR)))
                    (ex_reader INT32 8)) = GLOBAL_ORDER.
Proof.
  refine (proj1 (init_1D_global_order 4 (ex_env false) (ex_reader INT32 8)
                   (returned (init 4 (ex_env false)
                                (snd (set_layout (ex_reader INT32 8) COL_MAJOR)))
                             (ex_reader INT32 8))
                   (ex_schema INT32) COL_MAJOR _ _ _ _)).
  - reflexivity.
  - reflexivity.
  - reflexivity.
  - vm_compute. reflexivity.
Defined.

Lemma set_buffer_after_initialization_witness :
  (exists code msg,
     set_buffer (ex_started (ex_reader INT32 8) 0 1) "s" (Some 3%positive) (Some 4%positive)
     = (Err code msg, ex_started (ex_reader INT32 8) 0 1))
  /\ (exists r',
        set_buffer (ex_started (ex_reader INT32 8) 0 1) "a" (Some 7%positive)
                   (Some 2%positive) = (Ok, r')
        /\ attributes_ r' = ["a"]).
Proof.
  pose proof (set_buffer_after_initialization (ex_started (ex_reader INT32 8) 0 1) "s"
                eq_refl) as Hs.
  pose proof (set_buffer_after_initialization (ex_started (ex_reader INT32 8) 0 1) "a"
                eq_refl) as Ha.
  split.
  - apply (proj1 (proj1 Hs eq_refl)).
  - destruct (proj1 (proj2 Ha) (ex_schema INT32)
                (mkBuf (Some 1%positive) None (Some 2%positive) None 8 0)
                7%positive 2%positive eq_refl eq_refl) as (r' & H1 & _ & H3).
    + right. exists (mkAttr INT32 false 1). split; reflexivity.
    + exists r'. split; [exact H1 | exact H3].
Defined.


(** *** The buffer sizes on return from a partition attempt *)

Lemma load_store (m : Mem) (p q : loc) (z : Z) :
  load (store m p z) q = if decide (p = q) then z else load m q.
Proof.
  unfold load, store. simpl. destruct (decide (p = q)) as [->|Hne].
  - rewrite lookup_insert_eq. reflexivity.
  - rewrite lookup_insert_ne by exact Hne. reflexivity.
Qed.


Lemma load_memcpy (m : Mem) (b : loc) (off : Z) (src : list Z) (n : Z) (p : loc) :
  load (memcpy m b off src n) p = load m p.
Proof. reflexivity. Qed.


Lemma written_begin_attempt (m : Mem) (b : loc) : written_to (begin_attempt m) b = 0.
Proof. reflexivity. Qed.

Lemma u64_add_l (a b : Z) : u64 (u64 a + b) = u64 (a + b).
Proof. unfold u64. apply Zplus_mod_idemp_l. Qed.

Lemma u64_add_r (a b : Z) : u64 (a + u64 b) = u64 (a + b).
Proof. unfold u64. apply Zplus_mod_idemp_r. Qed.

Lemma u64_idem (a : Z) : u64 (u64 a) = u64 a.
Proof. unfold u64. apply Zmod_mod. Qed.


(** [zero_out_buffer_sizes] *)

Lemma zero_out_one_load (m : Mem) (ab : AttributeBuffer) (p : loc) :
  load m p = 0 \/ p ∈ size_locs ab -> load (zero_out_one m ab) p = 0.
Proof.
  unfold zero_out_one, size_locs.
  destruct (buffer_size_ ab) as [p1|], (buffer_var_size_ ab) as [p2|]; simpl;
    rewrite ?load_store; intros [H|H]; repeat case_decide; try reflexivity;
    try exact H; exfalso; apply list_elem_of_In in H; simpl in H; intuition congruence.
Qed.

Lemma zero_out_fold_load (l : list (string * AttributeBuffer)) (m : Mem) (p : loc) :
  load m p = 0 \/ (exists kv, kv ∈ l /\ p ∈ size_locs (snd kv)) ->
  load (foldl (fun m kv => zero_out_one m (snd kv)) m l) p = 0.
Proof.
  revert m. induction l as [|kv l IH]; intros m H; simpl.
  - destruct H as [H|(kv & Hin & _)]; [exact H | set_solver].
  - apply IH. destruct H as [H|(kv' & Hin & Hp)].
    + left. apply zero_out_one_load. left. exact H.
    + apply elem_of_cons in Hin as [->|Hin].
      * left. apply zero_out_one_load. right. exact Hp.
      * right. exists kv'. split; assumption.
Qed.

Lemma zero_out_one_written (m : Mem) (ab : AttributeBuffer) :
  written (zero_out_one m ab) = written m.
Proof. unfold zero_out_one. repeat case_match; reflexivity. Qed.

Lemma zero_out_sizes_zero (r : Reader) (attr : string) (ab : AttributeBuffer) :
  attr_buffers_ r !! attr = Some ab -> sizes_zero (mem_ (zero_out_buffer_sizes r)) ab.
Proof.
  intros Hab p Hp. unfold zero_out_buffer_sizes. simpl.
  apply zero_out_fold_load. right. exists (attr, ab). split; [|exact Hp].
  apply elem_of_map_to_list. exact Hab.
Qed.


Lemma zero_out_written (r : Reader) :
  written (mem_ (zero_out_buffer_sizes r)) = written (mem_ r).
Proof.
  unfold zero_out_buffer_sizes. simpl.
  generalize (map_to_list (attr_buffers_ r)) (mem_ r).
  induction l as [|kv l IH]; intros m; simpl; [reflexivity|].
  rewrite IH. apply zero_out_one_written.
Qed.

Lemma zero_out_written_to (r : Reader) (b : loc) :
  written_to (mem_ (zero_out_buffer_sizes r)) b = written_to (mem_ r) b.
Proof. unfold written_to. rewrite zero_out_written. reflexivity. Qed.





Lemma adds_load (buf : loc) (d : Z) (m m' : Mem) (p : loc) :
  adds buf d m m' -> load m' p = load m p.
Proof. intros (S & _ & _). unfold load. rewrite S. reflexivity. Qed.


Lemma datatype_size_pos (t : Datatype) : 0 < datatype_size t.
Proof. destruct t; reflexivity. Qed.

Lemma datatype_size_divides (t : Datatype) : (datatype_size t | u64_mod).
Proof.
  destruct t; simpl;
    [exists (2 ^ 62) | exists (2 ^ 61) | exists (2 ^ 62) | exists (2 ^ 61)
     | exists (2 ^ 64) | exists (2 ^ 64) | exists (2 ^ 64) | exists (2 ^ 63)
     | exists (2 ^ 63) | exists (2 ^ 62) | exists (2 ^ 61) | exists (2 ^ 64)
     | exists (2 ^ 64)]; reflexivity.
Qed.

Lemma cell_size_multiple (schema : ArraySchema) (attr : string) :
  exists k, cell_size schema attr = k * datatype_size (type schema attr).
Proof.
  unfold cell_size, type, coords_size. destruct (String.eqb attr coords).
  - exists (schema_dim_num schema). reflexivity.
  - destruct (attribute schema attr) as [a|].
    + exists (attr_cell_val_num a). reflexivity.
    + exists 0. reflexivity.
Qed.

Lemma bytes_to_copy_divisible (schema : ArraySchema) (attr : string) (cr : CellRange) :
  bytes_to_copy (cell_size schema attr) cr mod datatype_size (type schema attr) = 0.
Proof.
  destruct (cell_size_multiple schema attr) as [k Hk]. unfold bytes_to_copy. rewrite Hk.
  unfold u64 at 1.
  rewrite Z.mod_mod_divide by apply datatype_size_divides.
  rewrite Z.mul_assoc. apply Z.mod_mul.
  pose proof (datatype_size_pos (type schema attr)). lia.
Qed.





Lemma touches_refl (bs ps : list loc) (m : Mem) : touches bs ps m m.
Proof. split; reflexivity. Qed.

Lemma touches_trans (bs ps : list loc) (m1 m2 m3 : Mem) :
  touches bs ps m1 m2 -> touches bs ps m2 m3 -> touches bs ps m1 m3.
Proof.
  intros [W1 L1] [W2 L2]. split.
  - intros b Hb. rewrite W2, W1 by exact Hb. reflexivity.
  - intros p Hp. rewrite L2, L1 by exact Hp. reflexivity.
Qed.













Lemma elem_of_size_locs (ab : AttributeBuffer) (p : loc) :
  p ∈ size_locs ab <-> buffer_size_ ab = Some p \/ buffer_var_size_ ab = Some p.
Proof.
  unfold size_locs. destruct (buffer_size_ ab), (buffer_var_size_ ab); set_solver.
Qed.



Lemma sizes_zero_touches (bs ps : list loc) (m m' : Mem) (ab : AttributeBuffer) :
  touches bs ps m m' -> (forall l, l ∈ size_locs ab -> l ∉ ps) ->
  sizes_zero m ab -> sizes_zero m' ab.
Proof.
  intros [_ HL] Hd Hz p Hp. rewrite HL by (apply Hd; exact Hp). apply Hz. exact Hp.
Qed.










(** [fill_coords] *)






(** The reads of a partition. *)







(** [next_subarray_partition] leaves the memory and the overflow flag. *)

Lemma search_partition_failed (fuel : nat) (E : Env) (schema : ArraySchema) (r : Reader) :
  forall pending st, search_partition fuel E schema r pending = Ret (Failed st) -> st <> Ok.
Proof.
  induction fuel as [|fuel IH]; intros pending st H; simpl in H; [discriminate|].
  destruct pending as [|p rest]; [discriminate|].
  destruct (env_est_read_buffer_sizes E _ p) as [st1 est]. destruct st1.
  - destruct (est_no_results est _).
    { destruct rest; [discriminate | eapply IH; exact H]. }
    destruct (est_must_split schema est _); [|discriminate].
    destruct (env_split_subarray E p _) as [st2 [o1 o2]].
    destruct st2; [|injection H as <-; discriminate].
    destruct o1, o2; first [discriminate | eapply IH; exact H].
  - injection H as <-. discriminate.
Qed.

Lemma next_subarray_partition_mem (fuel : nat) (E : Env) (r r' : Reader) :
  next_subarray_partition fuel E r = Ret (Ok, r') ->
  mem_ r' = mem_ r /\ overflowed_ (read_state_ r') = overflowed_ (read_state_ r).
Proof.
  unfold next_subarray_partition. intros H.
  destruct (array_schema_ r) as [schema|]; [|discriminate].
  match type of H with (?split ≫= _) = _ => destruct split as [o| |] eqn:Hsplit end;
    simpl in H; try discriminate.
  assert (Ho : forall rs, o = Some rs -> overflowed_ rs = overflowed_ (read_state_ r)).
  { intros rs ->. simpl in Hsplit.
    destruct (overflowed_ (read_state_ r)) eqn:Hov.
    - destruct (cur_subarray_partition_ (read_state_ r)); [|discriminate].
      destruct (snd (env_split_subarray E _ _)) as [[s1|] [s2|]]; try discriminate.
      injection Hsplit as <-. simpl. exact Hov.
    - injection Hsplit as <-. simpl. exact Hov. }
  destruct o as [rs|].
  - specialize (Ho rs eq_refl). destruct (subarray_partitions_ rs) as [|p pending].
    { injection H as <-. split; [reflexivity | exact Ho]. }
    destruct (search_partition fuel E schema r (p :: pending)) as [found| |] eqn:Hsearch;
      simpl in H; try discriminate.
    destruct found as [np u rest| |st].
    + destruct (cur_subarray_partition_ rs); [|discriminate].
      injection H as <-. split; [reflexivity|]. destruct u; exact Ho.
    + injection H as <-. split; [reflexivity | exact Ho].
    + apply search_partition_failed in Hsearch. congruence.
  - injection H as <-. split; reflexivity.
Qed.



Lemma ex_reader_wf (t : Datatype) (n lo hi : Z) :
  wf_buffers (ex_schema t) (ex_started (ex_reader t n) lo hi).
Proof.
  assert (Hone : forall a ab,
            attr_buffers_ (ex_started (ex_reader t n) lo hi) !! a = Some ab ->
            a = "a"%string
            /\ ab = mkBuf (Some 1%positive) None (Some 2%positive) None n 0).
  { intros a ab H. cbn in H. apply lookup_insert_Some in H as [[<- <-]|[_ H]]; [auto|].
    rewrite lookup_empty in H. discriminate. }
  repeat split.
  - intros a1 a2 ab1 ab2 l H1 H2 _ _.
    apply Hone in H1 as [-> _]. apply Hone in H2 as [-> _]. reflexivity.
  - intros a ab H. apply Hone in H as [_ ->]. apply NoDup_singleton.
  - intros a1 a2 ab1 ab2 l H1 H2 _ _.
    apply Hone in H1 as [-> _]. apply Hone in H2 as [-> _]. reflexivity.
  - intros a ab H. apply Hone in H as [_ ->]. apply NoDup_singleton.
  - apply NoDup_singleton.
  - intros ->%list_elem_of_singleton. cbn. rewrite lookup_insert_eq. eauto.
  - intros [ab H]. apply Hone in H as [-> _]. apply list_elem_of_singleton. reflexivity.
Qed.



End ReaderFacts.

(** ** Facts on the interface of the reader *)

Module ApiFacts.
Import ReaderModel.
Import ReaderFacts.

(** X1.  A buffer set with [set_buffer] is the one [get_buffer] returns:
    after a successful call the pointers of the attribute are those given,
    and what [get_buffer] returns for any other attribute is as before. *)
Theorem get_buffer_set_buffer (r r' : Reader) (attr : string) (buffer buffer_size : ptr) :
  set_buffer r attr buffer buffer_size = (Ok, r') ->
  get_buffer r' attr = (Ok, (buffer, buffer_size))
  /\ get_buffer_var r' attr = (Ok, (buffer, buffer_size, None, None))
  /\ forall other, other <> attr ->
       get_buffer r' other = get_buffer r other
       /\ get_buffer_var r' other = get_buffer_var r other.
Proof.
  unfold set_buffer. intros H.
  destruct (_ || _); [discriminate|].
  destruct (array_schema_ r) as [schema|]; [|discriminate].
  destruct (_ && _); [discriminate|].
  destruct (_ && _); [discriminate|].
  destruct (_ && _); [discriminate|].
  injection H as <-. unfold get_buffer, get_buffer_var. cbn.
  rewrite lookup_insert_eq. repeat split.
  - rewrite lookup_insert_ne by congruence. reflexivity.
  - rewrite lookup_insert_ne by congruence. reflexivity.
Qed.

Lemma get_buffer_set_buffer_witness :
  get_buffer (snd (set_buffer (ex_reader INT32 8) "a" (Some 7%positive) (Some 2%positive)))
             "a"
  = (Ok, (Some 7%positive, Some 2%positive)).
Proof.
  exact (proj1 (get_buffer_set_buffer (ex_reader INT32 8)
                  (snd (set_buffer (ex_reader INT32 8) "a" (Some 7%positive)
                                   (Some 2%positive)))
                  "a" (Some 7%positive) (Some 2%positive) eq_refl)).
Defined.

(** X2.  The same for the var-sized overload: the four pointers given to
    [set_buffer] are those [get_buffer] returns, and no other attribute is
    affected. *)
Theorem get_buffer_set_buffer_var (r r' : Reader) (attr : string)
    (buffer_off buffer_off_size buffer_val buffer_val_size : ptr) :
  set_buffer_var r attr buffer_off buffer_off_size buffer_val buffer_val_size = (Ok, r') ->
  get_buffer_var r' attr = (Ok, (buffer_off, buffer_off_size, buffer_val, buffer_val_size))
  /\ forall other, other <> attr ->
       get_buffer r' other = get_buffer r other
       /\ get_buffer_var r' other = get_buffer_var r other.
Proof.
  unfold set_buffer_var. intros H.
  destruct (_ || _); [discriminate|].
  destruct (array_schema_ r) as [schema|]; [|discriminate].
  destruct (_ && _); [discriminate|].
  destruct (negb _); [discriminate|].
  destruct (_ && _); [discriminate|].
  injection H as <-. unfold get_buffer, get_buffer_var. cbn.
  rewrite lookup_insert_eq. repeat split.
  - rewrite lookup_insert_ne by congruence. reflexivity.
  - rewrite lookup_insert_ne by congruence. reflexivity.
Qed.

Lemma get_buffer_set_buffer_var_witness :
  get_buffer_var
    (snd (set_buffer_var (ex_reader INT32 8) "s" (Some 3%positive) (Some 4%positive)
                         (Some 5%positive) (Some 6%positive))) "s"
  = (Ok, (Some 3%positive, Some 4%positive, Some 5%positive, Some 6%positive)).
Proof.
  exact (proj1 (get_buffer_set_buffer_var (ex_reader INT32 8)
                  (snd (set_buffer_var (ex_reader INT32 8) "s" (Some 3%positive)
                                       (Some 4%positive) (Some 5%positive)
                                       (Some 6%positive)))
                  "s" (Some 3%positive) (Some 4%positive) (Some 5%positive)
                  (Some 6%positive) eq_refl)).
Defined.

(** X3.  [set_buffer] for a fixed-sized attribute succeeds exactly when
    both pointers are given, a schema is set, the attribute is the
    coordinates or a fixed-sized attribute of the schema, and the read state
    is not initialized or the attribute has a buffer already; whenever it
    fails the reader is left as it was. *)
Theorem set_buffer_ok_iff (r : Reader) (attr : string) (buffer buffer_size : ptr) :
  (fst (set_buffer r attr buffer buffer_size) = Ok <->
   buffer <> None /\ buffer_size <> None
   /\ exists schema, array_schema_ r = Some schema /\ fixed_attribute schema attr
        /\ (initialized_ (read_state_ r) = true -> is_Some (attr_buffers_ r !! attr)))
  /\ (fst (set_buffer r attr buffer buffer_size) <> Ok ->
      snd (set_buffer r attr buffer buffer_size) = r).
Proof.
  unfold set_buffer, fixed_attribute, var_size.
  destruct buffer as [b|], buffer_size as [bs|]; cbn [bool_decide orb];
    try (split; [split; [discriminate | intros (? & ? & _); congruence] | reflexivity]).
  rewrite !bool_decide_eq_false_2 by discriminate. cbn [orb].
  destruct (array_schema_ r) as [schema|];
    [|split; [split; [discriminate | intros (_ & _ & ? & ? & _); discriminate]
             | reflexivity]].
  destruct (String.eqb_spec attr coords) as [->|Hne]; cbn [negb andb].
  - destruct (initialized_ (read_state_ r)) eqn:Hi; cbn [andb].
    + case_bool_decide as Hex; cbn [negb].
      * split; [|intros H; exfalso; apply H; reflexivity].
        split; [intros _|reflexivity].
        repeat split; try discriminate. exists schema. auto.
      * split; [|reflexivity]. split; [discriminate|].
        intros (_ & _ & s & [= <-] & _ & H). exfalso. apply Hex, H. reflexivity.
    + split; [|intros H; exfalso; apply H; reflexivity].
      split; [intros _|reflexivity].
      repeat split; try discriminate. exists schema. repeat split; auto. discriminate.
  - destruct (attribute schema attr) as [a|] eqn:Ha.
    2: { rewrite bool_decide_eq_true_2 by reflexivity. cbn.
         split; [|reflexivity]. split; [discriminate|].
         intros (_ & _ & s & [= <-] & [?|(a & Ha' & _)] & _); congruence. }
    rewrite bool_decide_eq_false_2 by discriminate. cbn [andb].
    destruct (attr_var_size a) eqn:Hv.
    { split; [|reflexivity]. split; [discriminate|].
      intros (_ & _ & s & [= <-] & [?|(a' & Ha' & Hv')] & _); congruence. }
    destruct (initialized_ (read_state_ r)) eqn:Hi; cbn [andb].
    + case_bool_decide as Hex; cbn [negb].
      * split; [|intros H; exfalso; apply H; reflexivity].
        split; [intros _|reflexivity].
        repeat split; try discriminate. exists schema. repeat split; eauto.
      * split; [|reflexivity]. split; [discriminate|].
        intros (_ & _ & s & [= <-] & _ & H). exfalso. apply Hex, H. reflexivity.
    + split; [|intros H; exfalso; apply H; reflexivity].
      split; [intros _|reflexivity].
      repeat split; try discriminate. exists schema. repeat split; eauto. discriminate.
Qed.

(** X4.  [set_buffer] for a var-sized attribute succeeds exactly when the
    four pointers are given, a schema is set, the attribute is a var-sized
    attribute of the schema (never the coordinates), and the read state is
    not initialized or the attribute has a buffer already; whenever it fails
    the reader is left as it was. *)
Theorem set_buffer_var_ok_iff (r : Reader) (attr : string)
    (buffer_off buffer_off_size buffer_val buffer_val_size : ptr) :
  (fst (set_buffer_var r attr buffer_off buffer_off_size buffer_val buffer_val_size) = Ok <->
   buffer_off <> None /\ buffer_off_size <> None
   /\ buffer_val <> None /\ buffer_val_size <> None
   /\ exists schema, array_schema_ r = Some schema /\ var_attribute schema attr
        /\ (initialized_ (read_state_ r) = true -> is_Some (attr_buffers_ r !! attr)))
  /\ (fst (set_buffer_var r attr buffer_off buffer_off_size buffer_val buffer_val_size)
      <> Ok ->
      snd (set_buffer_var r attr buffer_off buffer_off_size buffer_val buffer_val_size) = r).
Proof.
  unfold set_buffer_var, var_attribute, var_size.
  destruct buffer_off as [bo|], buffer_off_size as [bos|], buffer_val as [bv|],
           buffer_val_size as [bvs|]; cbn [bool_decide orb];
    try (split; [split; [discriminate | intros (? & ? & ? & ? & _); congruence]
                | reflexivity]).
  rewrite !bool_decide_eq_false_2 by discriminate. cbn [orb].
  destruct (array_schema_ r) as [schema|];
    [|split; [split; [discriminate
                     | intros (_ & _ & _ & _ & ? & ? & _); discriminate]
             | reflexivity]].
  destruct (String.eqb_spec attr coords) as [->|Hne]; cbn [negb andb].
  { split; [|reflexivity]. split; [discriminate|].
    intros (_ & _ & _ & _ & s & _ & (H & _) & _). congruence. }
  destruct (attribute schema attr) as [a|] eqn:Ha.
  2: { rewrite bool_decide_eq_true_2 by reflexivity. cbn.
       split; [|reflexivity]. split; [discriminate|].
       intros (_ & _ & _ & _ & s & [= <-] & (_ & a & Ha' & _) & _); congruence. }
  rewrite bool_decide_eq_false_2 by discriminate. cbn [andb].
  destruct (attr_var_size a) eqn:Hv; cbn [negb].
  2: { split; [|reflexivity]. split; [discriminate|].
       intros (_ & _ & _ & _ & s & [= <-] & (_ & a' & Ha' & Hv') & _); congruence. }
  destruct (initialized_ (read_state_ r)) eqn:Hi; cbn [andb].
  - case_bool_decide as Hex; cbn [negb].
    + split; [|intros H; exfalso; apply H; reflexivity].
      split; [intros _|reflexivity].
      repeat (split; [discriminate|]). exists schema. repeat split; eauto.
    + split; [|reflexivity]. split; [discriminate|].
      intros (_ & _ & _ & _ & s & [= <-] & _ & H). exfalso. apply Hex, H. reflexivity.
  - split; [|intros H; exfalso; apply H; reflexivity].
    split; [intros _|reflexivity].
    repeat (split; [discriminate|]). exists schema. repeat split; eauto. discriminate.
Qed.

Lemma attributes_wf_insert (r : Reader) (attr : string) (ab : AttributeBuffer)
    (rs2 : ReadState2) :
  attributes_wf r ->
  attributes_wf
    (with_read_state_2
       (with_buffers r (<[attr := ab]> (attr_buffers_ r))
          (if bool_decide (is_Some (attr_buffers_ r !! attr))
           then attributes_ r else attributes_ r ++ [attr]))
       rs2).
Proof.
  intros [Hnd Hdom]. unfold attributes_wf. cbn.
  case_bool_decide as Hex; split.
  - exact Hnd.
  - intros a. rewrite lookup_insert_is_Some, Hdom.
    destruct (decide (attr = a)) as [<-|Hne]; [tauto|]. split.
    + intros H. right. auto.
    + intros [H|[_ H]]; [congruence | exact H].
  - apply NoDup_app. repeat split; [exact Hnd | | apply NoDup_singleton].
    intros a Ha ->%list_elem_of_singleton. apply Hex, Hdom, Ha.
  - intros a. rewrite lookup_insert_is_Some, elem_of_app, list_elem_of_singleton, Hdom.
    destruct (decide (attr = a)) as [<-|Hne]; [tauto|]. split.
    + intros [H|H]; [auto | congruence].
    + intros [H|[_ H]]; [congruence | auto].
Qed.

(** X5.  The reader keeps the list of the attributes queried in step with
    the map of the buffers: a fresh reader has neither, and both overloads of
    [set_buffer], whether they succeed or fail, leave every attribute with a
    buffer listed once and no other attribute listed. *)
Theorem set_buffer_attributes_wf (r : Reader) (attr : string) :
  attributes_wf r ->
  (forall buffer buffer_size,
     attributes_wf (snd (set_buffer r attr buffer buffer_size)))
  /\ (forall buffer_off buffer_off_size buffer_val buffer_val_size,
        attributes_wf (snd (set_buffer_var r attr buffer_off buffer_off_size buffer_val
                              buffer_val_size))).
Proof.
  intros Hwf. split.
  - intros buffer buffer_size. unfold set_buffer.
    repeat (match goal with
            | |- attributes_wf (snd (if ?c then _ else _)) => destruct c
            | |- attributes_wf (snd (match ?c with Some _ => _ | None => _ end)) =>
              destruct c
            end; try exact Hwf).
    cbn [snd]. apply attributes_wf_insert. exact Hwf.
  - intros bo bos bv bvs. unfold set_buffer_var.
    repeat (match goal with
            | |- attributes_wf (snd (if ?c then _ else _)) => destruct c
            | |- attributes_wf (snd (match ?c with Some _ => _ | None => _ end)) =>
              destruct c
            end; try exact Hwf).
    cbn [snd]. apply attributes_wf_insert. exact Hwf.
Qed.

Lemma Reader_new_attributes_wf (m : Mem) (cancel : list bool) :
  attributes_wf (Reader_new m cancel).
Proof.
  split; [apply NoDup_nil_2|]. intros a. cbn. rewrite lookup_empty. split.
  - intros H. inversion H.
  - intros [? H]. discriminate.
Qed.

Lemma ex_reader_attributes_wf (n : Z) : attributes_wf (ex_reader INT32 n).
Proof.
  split; [repeat constructor; set_solver|]. intros a.
  cbn [attributes_ attr_buffers_ ex_reader]. rewrite list_elem_of_singleton. split.
  - intros ->. rewrite lookup_insert_eq. eauto.
  - intros [x H]. destruct (decide (a = "a")) as [->|Hne]; [reflexivity|].
    rewrite lookup_insert_ne, lookup_empty in H by congruence. discriminate.
Qed.

Lemma set_buffer_attributes_wf_witness :
  attributes_wf
    (snd (set_buffer (ex_reader INT32 8) "a" (Some 5%positive) (Some 6%positive)))
  /\ fst (set_buffer (ex_reader INT32 8) "a" (Some 5%positive) (Some 6%positive)) = Ok
  /\ attributes_ (snd (set_buffer (ex_reader INT32 8) "a" (Some 5%positive)
                         (Some 6%positive))) = ["a"]
  /\ get_buffer (snd (set_buffer (ex_reader INT32 8) "a" (Some 5%positive)
                        (Some 6%positive))) "a"
     = (Ok, (Some 5%positive, Some 6%positive)).
Proof.
  split; [|vm_compute; repeat split].
  exact (proj1 (set_buffer_attributes_wf (ex_reader INT32 8) "a"
                  (ex_reader_attributes_wf 8))
               (Some 5%positive) (Some 6%positive)).
Defined.

(** X6.  [set_sparse_mode] succeeds exactly when the array is dense and
    none of its fragments is: then only the mode changes; otherwise it
    returns an error and the reader is left as it was. *)
Theorem set_sparse_mode_ok_iff (r : Reader) (schema : ArraySchema) (sparse_mode : bool) :
  array_schema_ r = Some schema ->
  exists st r', set_sparse_mode r sparse_mode = Ret (st, r')
    /\ (st = Ok <->
        schema_dense schema = true
        /\ forall f, f ∈ fragment_metadata_ r -> frag_dense f = false)
    /\ (st = Ok -> r' = with_sparse_mode r sparse_mode)
    /\ (st <> Ok -> r' = r).
Proof.
  intros Hs. unfold set_sparse_mode. rewrite Hs.
  destruct (schema_dense schema); cbn [negb].
  2: { do 2 eexists. split; [reflexivity|].
       repeat split; try discriminate. intros [? _]. discriminate. }
  destruct (forallb _ _) eqn:Hall; cbn [negb].
  - do 2 eexists. split; [reflexivity|]. repeat split.
    + intros f Hf. rewrite forallb_forall in Hall.
      apply list_elem_of_In, Hall in Hf. destruct (frag_dense f); [discriminate|reflexivity].
    + intros H; exfalso; apply H; reflexivity.
  - do 2 eexists. split; [reflexivity|]. repeat split; try discriminate.
    intros [_ H]. exfalso.
    assert (forallb (fun f => negb (frag_dense f)) (fragment_metadata_ r) = true);
      [|congruence].
    apply forallb_forall. intros f Hf%list_elem_of_In. rewrite (H f Hf). reflexivity.
Qed.

Lemma set_sparse_mode_ok_iff_witness :
  exists st r', set_sparse_mode (ex_reader INT32 8) true = Ret (st, r')
    /\ (st <> Ok -> r' = ex_reader INT32 8).
Proof.
  destruct (set_sparse_mode_ok_iff (ex_reader INT32 8) (ex_schema INT32) true eq_refl)
    as (st & r' & H & _ & _ & Hne).
  exists st, r'. split; [exact H | exact Hne].
Defined.

(** X7.  Setting the legacy subarray again starts the query over: when a
    subarray was set, [set_subarray] clears the read state before it stores
    the new one (the whole domain for a null argument).  Nothing is pending
    and nothing is current, the overflow flag is down, the read state is not
    initialized any more, so that [incomplete] answers false on the legacy
    path; buffers, attributes and caller memory are as they were. *)
Theorem set_subarray_starts_over (E : Env) (r : Reader) (schema : ArraySchema)
    (subarray : option Subarray) :
  array_schema_ r = Some schema -> env_malloc E = true ->
  subarray_ (read_state_ r) <> None ->
  exists r', set_subarray E r subarray = Ret (Ok, r')
    /\ read_state_ r'
       = mkRS None (Some (default (schema_domain schema) subarray)) [] false false
              (unsplittable_ (read_state_ r))
    /\ (set_ (read_state_2_ r') = false -> incomplete r' = false)
    /\ attr_buffers_ r' = attr_buffers_ r /\ attributes_ r' = attributes_ r
    /\ mem_ r' = mem_ r /\ layout_ r' = layout_ r.
Proof.
  intros Hs Hm Hsub. unfold set_subarray.
  rewrite (bool_decide_eq_true_2 _ Hsub).
  change (array_schema_ (clear_read_state r)) with (array_schema_ r).
  rewrite Hs, Hm. cbn [negb]. eexists. split; [reflexivity|].
  split; [destruct subarray; reflexivity|].
  split; [|repeat split].
  intros H2. unfold incomplete. rewrite H2. reflexivity.
Qed.

Lemma set_subarray_starts_over_witness :
  exists r', set_subarray (ex_env false) (ex_pending (ex_reader INT32 8) [0; 1] [[2; 9]])
                          (Some [3; 4]) = Ret (Ok, r')
    /\ read_state_ r' = mkRS None (Some [3; 4]) [] false false false.
Proof.
  destruct (set_subarray_starts_over (ex_env false)
              (ex_pending (ex_reader INT32 8) [0; 1] [[2; 9]]) (ex_schema INT32)
              (Some [3; 4]) eq_refl eq_refl ltac:(discriminate))
    as (r' & H & Hrs & _).
  exists r'. split; [exact H | exact Hrs].
Defined.

Lemma zero_out_one_bytes (m : Mem) (b : AttributeBuffer) : bytes (zero_out_one m b) = bytes m.
Proof. unfold zero_out_one. repeat case_match; reflexivity. Qed.

Lemma zero_out_buffer_sizes_bytes (r : Reader) :
  bytes (mem_ (zero_out_buffer_sizes r)) = bytes (mem_ r).
Proof.
  unfold zero_out_buffer_sizes. simpl.
  generalize (map_to_list (attr_buffers_ r)) (mem_ r).
  induction l as [|kv l IH]; intros m; simpl; [reflexivity|].
  rewrite IH. apply zero_out_one_bytes.
Qed.

(** X8.  On the legacy path a [read] of a reader without fragments, or
    without a current partition, returns [Ok] at once, whatever the fuel:
    the size and the var size of every attribute are zero, no byte of a
    buffer has changed, and the read state, the buffers and the attributes
    are as they were. *)
Theorem read_nothing_to_read (fuel : nat) (E : Env) (r : Reader) :
  set_ (read_state_2_ r) = false ->
  fragment_metadata_ r = [] \/ cur_subarray_partition_ (read_state_ r) = None ->
  exists r', read fuel E r = Ret (Ok, r')
    /\ (forall attr ab, attr_buffers_ r !! attr = Some ab -> sizes_zero (mem_ r') ab)
    /\ no_results r' = true
    /\ bytes (mem_ r') = bytes (mem_ r)
    /\ read_state_ r' = read_state_ r
    /\ attr_buffers_ r' = attr_buffers_ r /\ attributes_ r' = attributes_ r.
Proof.
  intros H2 Hnone. exists (zero_out_buffer_sizes r). split.
  { unfold read. rewrite H2.
    destruct Hnone as [H|H]; rewrite H; cbn;
      [reflexivity | rewrite orb_true_r; reflexivity]. }
  split; [intros attr ab Hab; exact (zero_out_sizes_zero r attr ab Hab)|].
  split; [|split; [apply zero_out_buffer_sizes_bytes | repeat split]].
  unfold no_results. apply forallb_forall. intros [attr ab] Hin.
  apply list_elem_of_In, elem_of_map_to_list in Hin. cbn [snd].
  destruct (buffer_size_ ab) as [p|] eqn:Hp; [|reflexivity].
  apply Z.eqb_eq. apply (zero_out_sizes_zero r attr ab Hin).
  apply elem_of_size_locs. left. exact Hp.
Qed.

Lemma read_nothing_to_read_witness :
  exists r', read 0 (ex_env false) (ex_reader INT32 8) = Ret (Ok, r')
    /\ no_results r' = true.
Proof.
  destruct (read_nothing_to_read 0 (ex_env false) (ex_reader INT32 8) eq_refl
              (or_intror eq_refl)) as (r' & H & _ & Hn & _).
  exists r'. split; [exact H | exact Hn].
Defined.

Lemma reset_one_load (m : Mem) (ab : AttributeBuffer) (p : loc) :
  p ∉ size_locs ab -> load (reset_one m ab) p = load m p.
Proof.
  intros Hp. unfold reset_one.
  destruct (buffer_size_ ab) as [q|] eqn:Hq, (buffer_var_size_ ab) as [q'|] eqn:Hq';
    rewrite ?load_store;
    repeat (rewrite decide_False;
            [|intros <-; apply Hp; apply elem_of_size_locs; auto]);
    reflexivity.
Qed.

Lemma reset_fold_load (l : list (string * AttributeBuffer)) (m : Mem) (p : loc) :
  (forall kv, kv ∈ l -> p ∉ size_locs (snd kv)) ->
  load (foldl (fun m kv => reset_one m (snd kv)) m l) p = load m p.
Proof.
  revert m. induction l as [|kv l IH]; intros m H; simpl; [reflexivity|].
  rewrite IH by (intros kv' Hkv; apply H; right; exact Hkv).
  apply reset_one_load. apply H. left.
Qed.

Lemma reset_one_sets (m : Mem) (ab : AttributeBuffer) :
  NoDup (size_locs ab) ->
  (forall p, buffer_size_ ab = Some p -> load (reset_one m ab) p = original_buffer_size_ ab)
  /\ (forall p, buffer_var_size_ ab = Some p ->
        load (reset_one m ab) p = original_buffer_var_size_ ab).
Proof.
  intros Hnd. unfold reset_one, size_locs in *.
  destruct (buffer_size_ ab) as [q|], (buffer_var_size_ ab) as [q'|]; cbn in Hnd;
    split; intros p [= <-]; rewrite ?load_store, ?decide_True by reflexivity;
    try reflexivity.
  rewrite decide_False; [rewrite decide_True by reflexivity; reflexivity|].
  intros <-. apply NoDup_cons in Hnd as [Hin _]. apply Hin. left.
Qed.

(** X9.  [reset_buffer_sizes] gives every size object the value it had
    when its buffer was set: with size pointers that do not alias, the size
    of every attribute is its original size and its var size its original
    var size, whatever earlier reads have stored there; size objects of no
    attribute and the bytes of the buffers are left alone. *)
Theorem reset_buffer_sizes_restores (r : Reader) :
  no_alias (attr_buffers_ r) ->
  (forall attr ab, attr_buffers_ r !! attr = Some ab ->
     (forall p, buffer_size_ ab = Some p ->
        load (mem_ (reset_buffer_sizes r)) p = original_buffer_size_ ab)
     /\ (forall p, buffer_var_size_ ab = Some p ->
           load (mem_ (reset_buffer_sizes r)) p = original_buffer_var_size_ ab))
  /\ (forall p, (forall attr ab, attr_buffers_ r !! attr = Some ab -> p ∉ size_locs ab) ->
        load (mem_ (reset_buffer_sizes r)) p = load (mem_ r) p)
  /\ bytes (mem_ (reset_buffer_sizes r)) = bytes (mem_ r).
Proof.
  intros (_ & _ & Hdisj & Hnd). split; [|split; [|apply reset_buffer_sizes_bytes]].
  - intros attr ab Hab. unfold reset_buffer_sizes. cbn [mem_ with_mem].
    assert (Hin : (attr, ab) ∈ map_to_list (attr_buffers_ r))
      by (apply elem_of_map_to_list; exact Hab).
    assert (Hall : forall kv, kv ∈ map_to_list (attr_buffers_ r) ->
                     attr_buffers_ r !! fst kv = Some (snd kv))
      by (intros [a b] H; apply elem_of_map_to_list; exact H).
    pose proof (NoDup_fst_map_to_list (attr_buffers_ r)) as Hkeys.
    revert Hin Hall Hkeys. generalize (map_to_list (attr_buffers_ r)) (mem_ r).
    induction l as [|kv l IH]; intros m Hin Hall Hkeys; [inversion Hin|].
    cbn [foldl]. cbn [fmap list_fmap] in Hkeys. apply NoDup_cons in Hkeys as [Hk Hkeys].
    apply elem_of_cons in Hin as [<-|Hin].
    + cbn [snd]. destruct (reset_one_sets m ab (Hnd attr ab Hab)) as [H1 H2].
      split; intros p Hp; (rewrite reset_fold_load; [auto|]);
        intros [a' b'] Hkv Hp'; cbn [snd] in Hp';
        assert (a' = attr)
          by (apply (Hdisj a' attr b' ab p);
              [apply (Hall (a', b')); right; exact Hkv | exact Hab | exact Hp'
              | apply elem_of_size_locs; auto]);
        subst a'; apply Hk; cbn [fst];
        apply (list_elem_of_fmap_2 fst l (attr, b') Hkv).
    + apply IH; [exact Hin | intros kv' H; apply Hall; right; exact H | exact Hkeys].
  - intros p Hp. unfold reset_buffer_sizes. cbn [mem_ with_mem].
    apply reset_fold_load. intros [a b] Hkv%elem_of_map_to_list. exact (Hp a b Hkv).
Qed.

Lemma reset_buffer_sizes_restores_witness :
  load (mem_ (reset_buffer_sizes (zero_out_buffer_sizes (ex_reader INT32 8)))) 2%positive = 8.
Proof.
  destruct (reset_buffer_sizes_restores (zero_out_buffer_sizes (ex_reader INT32 8)))
    as (H & _).
  - destruct (ex_reader_wf INT32 8 0 1) as (Hna & _). exact Hna.
  - exact (proj1 (H "a"%string (mkBuf (Some 1%positive) None (Some 2%positive) None 8 0)
                    eq_refl) 2%positive eq_refl).
Defined.

Lemma init_config_keeps (E : Env) (r : Reader) :
  read_state_ (snd (init_config E r)) = read_state_ r
  /\ attr_buffers_ (snd (init_config E r)) = attr_buffers_ r
  /\ attributes_ (snd (init_config E r)) = attributes_ r
  /\ fragment_metadata_ (snd (init_config E r)) = fragment_metadata_ r
  /\ mem_ (snd (init_config E r)) = mem_ r.
Proof. unfold init_config. repeat case_match; repeat split. Qed.

Lemma next_subarray_partition_ok_keeps (fuel : nat) (E : Env) (r r' : Reader) :
  next_subarray_partition fuel E r = Ret (Ok, r') ->
  subarray_ (read_state_ r') = subarray_ (read_state_ r)
  /\ initialized_ (read_state_ r') = initialized_ (read_state_ r).
Proof.
  unfold next_subarray_partition. intros H.
  destruct (array_schema_ r) as [schema|]; [|discriminate].
  match type of H with (?split ≫= _) = _ => destruct split as [o| |] eqn:Hsplit end;
    simpl in H; try discriminate.
  assert (Ho : forall rs, o = Some rs ->
                 subarray_ rs = subarray_ (read_state_ r)
                 /\ initialized_ rs = initialized_ (read_state_ r)).
  { intros rs ->. simpl in Hsplit.
    destruct (overflowed_ (read_state_ r)).
    - destruct (cur_subarray_partition_ (read_state_ r)); [|discriminate].
      destruct (snd (env_split_subarray E _ _)) as [[s1|] [s2|]]; try discriminate.
      injection Hsplit as <-. split; reflexivity.
    - injection Hsplit as <-. split; reflexivity. }
  destruct o as [rs|].
  - specialize (Ho rs eq_refl). destruct (subarray_partitions_ rs) as [|p pending].
    { injection H as <-. exact Ho. }
    destruct (search_partition fuel E schema r (p :: pending)) as [found| |] eqn:Hsearch;
      simpl in H; try discriminate.
    destruct found as [np u rest| |st].
    + destruct (cur_subarray_partition_ rs); [|discriminate].
      injection H as <-. destruct u; exact Ho.
    + injection H as <-. exact Ho.
    + apply search_partition_failed in Hsearch. congruence.
  - injection H as <-. split; reflexivity.
Qed.

(** X10.  What a successful [init] leaves on the legacy path.  The
    subarray is set: a subarray given before is kept, and when none was
    given it is the whole domain of the schema.  When the array
    has fragments the read state is initialized, which is what freezes the
    attributes; when it has none, [init] does not touch the flag, so that a
    reader of an empty array is not initialized by [init].  Buffers,
    attributes and caller memory are as they were. *)
Theorem init_initialized (fuel : nat) (E : Env) (r r' : Reader) :
  set_ (read_state_2_ r) = false ->
  init fuel E r = Ret (Ok, r') ->
  initialized_ (read_state_ r')
  = (if bool_decide (fragment_metadata_ r = []) then initialized_ (read_state_ r)
     else true)
  /\ subarray_ (read_state_ r') <> None
  /\ (forall s, subarray_ (read_state_ r) = Some s -> subarray_ (read_state_ r') = Some s)
  /\ (forall schema, array_schema_ r = Some schema -> subarray_ (read_state_ r) = None ->
        subarray_ (read_state_ r') = Some (schema_domain schema))
  /\ attr_buffers_ r' = attr_buffers_ r /\ attributes_ r' = attributes_ r
  /\ mem_ r' = mem_ r.
Proof.
  intros H2 H. unfold init in H.
  destruct (negb (storage_manager_ r)); [discriminate|].
  destruct (bool_decide (array_schema_ r = None)); [discriminate|].
  destruct (bool_decide (attr_buffers_ r = ∅)); [discriminate|].
  destruct (bool_decide (attributes_ r = [])); [discriminate|].
  pose proof (init_config_keeps E r) as (Krs & Kb & Ka & Kf & Km).
  pose proof (init_config_layout E r) as (_ & Ks & K2).
  destruct (init_config E r) as [st0 r0]. cbn [snd] in *.
  destruct st0; cbn [ok negb] in H; [|congruence].
  rewrite K2, H2 in H.
  (* the subarray *)
  assert (Hsub : exists r1,
             (if bool_decide (subarray_ (read_state_ r0) = None)
              then set_subarray E r0 None else Ret (Ok, r0)) = Ret (Ok, r1)
             /\ subarray_ (read_state_ r1) <> None
             /\ (forall s, subarray_ (read_state_ r0) = Some s ->
                            subarray_ (read_state_ r1) = Some s)
             /\ (forall schema, array_schema_ r0 = Some schema ->
                                 subarray_ (read_state_ r0) = None ->
                                 subarray_ (read_state_ r1) = Some (schema_domain schema))
             /\ initialized_ (read_state_ r1) = initialized_ (read_state_ r0)
             /\ attr_buffers_ r1 = attr_buffers_ r0 /\ attributes_ r1 = attributes_ r0
             /\ fragment_metadata_ r1 = fragment_metadata_ r0 /\ mem_ r1 = mem_ r0
             /\ array_schema_ r1 = array_schema_ r0).
  { case_bool_decide as Hnone.
    - unfold set_subarray in *. rewrite Hnone in *.
      rewrite bool_decide_eq_false_2 in * by (intros X; apply X; reflexivity).
      destruct (array_schema_ r0) as [schema|] eqn:Hsch0; [|discriminate].
      destruct (env_malloc E); cbn [negb] in *; [|simpl in H; discriminate].
      eexists. split; [reflexivity|]. cbn.
      split; [discriminate|]. split; [discriminate|].
      split; [intros schema' Hsch' _; congruence|].
      repeat split. exact Hsch0.
    - exists r0. split; [reflexivity|]. split; [exact Hnone|].
      split; [auto|]. split; [intros schema' _ Hx; congruence|]. repeat split. }
  destruct Hsub as (r1 & Hr1 & Hs1 & Hs1' & Hd1 & Hi1 & Kb1 & Ka1 & Kf1 & Km1 & Ksch1).
  rewrite Hr1 in H. simpl in H.
  unfold optimize_layout_for_1D in H.
  destruct (array_schema_ r1) as [schema|]; [|discriminate].
  set (r2 := if schema_dim_num schema =? 1 then with_layout r1 GLOBAL_ORDER else r1) in *.
  assert (Hr2 : read_state_ r2 = read_state_ r1 /\ attr_buffers_ r2 = attr_buffers_ r1
                /\ attributes_ r2 = attributes_ r1
                /\ fragment_metadata_ r2 = fragment_metadata_ r1 /\ mem_ r2 = mem_ r1)
    by (subst r2; destruct (_ =? _); repeat split).
  destruct Hr2 as (Krs2 & Kb2 & Ka2 & Kf2 & Km2).
  assert (H' : (if negb (bool_decide (fragment_metadata_ r2 = []))
                then init_read_state fuel E r2 else Ret (Ok, r2)) = Ret (Ok, r'))
    by (destruct (schema_dim_num schema =? 1); exact H).
  clear H. clearbody r2. rewrite Kf2, Kf1, Kf in H'.
  case_bool_decide as Hfr; cbn [negb] in H'.
  - injection H' as Heq. subst r'.
    rewrite Krs2, Kb2, Ka2, Km2, Kb1, Ka1, Km1, Hi1, Krs.
    repeat split; auto.
    + intros s Hs. apply Hs1'. rewrite Krs. exact Hs.
    + intros schema' Hsch' Hn. apply Hd1; [rewrite Ks; exact Hsch' | rewrite Krs; exact Hn].
  - unfold init_read_state in H'.
    destruct (negb (env_malloc E)); [discriminate|].
    destruct (subarray_ (read_state_ r2)) as [first|] eqn:Hfirst; [|discriminate].
    match type of H' with
    | (next_subarray_partition fuel E ?r3 ≫= _) = _ =>
      destruct (next_subarray_partition fuel E r3) as [[st4 r4]| |] eqn:Hnext
    end; simpl in H'; try discriminate.
    destruct st4; simpl in H'; [|congruence].
    injection H' as Heq. subst r'.
    destruct (next_subarray_partition_ok_keeps _ _ _ _ Hnext) as (Ksub4 & _).
    destruct (next_subarray_partition_mem _ _ _ _ Hnext) as (Km4 & _).
    pose proof (keeps_next_subarray_partition _ _ _ _ (frame_refl _) _ _ Hnext)
      as (_ & Kb4 & Ka4 & _).
    cbn in Ksub4, Km4, Kb4, Ka4 |- *.
    rewrite Ksub4, Hfirst, Kb4, Ka4, Km4, Kb2, Ka2, Km2, Kb1, Ka1, Km1.
    repeat split; auto.
    + intros s Hs. rewrite <- Hfirst, Krs2. apply Hs1'. rewrite Krs. exact Hs.
    + intros schema' Hsch' Hn. rewrite <- Hfirst, Krs2.
      apply Hd1; [rewrite Ks; exact Hsch' | rewrite Krs; exact Hn].
Qed.

Lemma init_initialized_witness :
  initialized_ (read_state_ (returned (init 4 (ex_env false) (ex_reader INT32 8))
                                      (ex_reader INT32 8))) = true
  /\ subarray_ (read_state_ (returned (init 4 (ex_env false) (ex_reader INT32 8))
                                      (ex_reader INT32 8))) = Some [0; 9].
Proof.
  pose proof (init_initialized 4 (ex_env false) (ex_reader INT32 8)
                (returned (init 4 (ex_env false) (ex_reader INT32 8))
                          (ex_reader INT32 8))
                eq_refl ltac:(vm_compute; reflexivity)) as (Hi & _ & _ & Hd & _).
  split; [exact Hi|]. exact (Hd (ex_schema INT32) eq_refl eq_refl).
Defined.

End ApiFacts.

(** ** Facts on the legacy planner *)

Module PlannerFacts.
Import ReaderModel.
Import ReaderFacts.

(** X11.  [next_subarray_partition] after an overflow.  The current
    partition is split, whatever status the split reports.  If it gives no
    two halves the planner returns at once: only the unsplittable flag is
    set, the current partition, the pending ones and the overflow flag stay.
    If it gives two halves, they go to the front of the pending list, and
    when the estimate for the first half is not zero and fits the buffers,
    the first half is the next current partition and the second half is the
    first pending one. *)
Theorem next_subarray_partition_after_overflow (fuel : nat) (E : Env) (r : Reader)
    (schema : ArraySchema) (cur : Subarray) :
  array_schema_ r = Some schema ->
  overflowed_ (read_state_ r) = true ->
  cur_subarray_partition_ (read_state_ r) = Some cur ->
  (forall st o1 o2,
     env_split_subarray E cur (layout_ r) = (st, (o1, o2)) -> o1 = None \/ o2 = None ->
     next_subarray_partition fuel E r
     = Ret (Ok, with_read_state r (rs_set_unsplittable (read_state_ r) true)))
  /\ (forall st s1 s2 est,
        env_split_subarray E cur (layout_ r) = (st, (Some s1, Some s2)) ->
        env_est_read_buffer_sizes E (fragment_metadata_ r) s1 = (Ok, est) ->
        est_no_results est (attr_buffers_ r) = false ->
        est_must_split schema est (attr_buffers_ r) = false ->
        next_subarray_partition (S fuel) E r
        = Ret (Ok, with_read_state r
                     (mkRS (Some s1) (subarray_ (read_state_ r))
                           (s2 :: subarray_partitions_ (read_state_ r))
                           (initialized_ (read_state_ r)) true false))).
Proof.
  intros Hs Hov Hcur. split.
  - intros st o1 o2 Hsplit Hnone. unfold next_subarray_partition.
    rewrite Hs. cbn [overflowed_ rs_set_unsplittable cur_subarray_partition_].
    rewrite Hov, Hcur, Hsplit. cbn [snd].
    destruct Hnone as [-> | ->]; [|destruct o1]; simpl;
      unfold rs_set_unsplittable; simpl; rewrite ?Hov, ?Hcur; reflexivity.
  - intros st s1 s2 est Hsplit Hest Hnr Hms. unfold next_subarray_partition.
    rewrite Hs. cbn [overflowed_ rs_set_unsplittable cur_subarray_partition_].
    rewrite Hov, Hcur, Hsplit. cbn [snd]. simpl.
    rewrite Hest, Hnr, Hms. simpl. rewrite Hcur.
    unfold rs_set_cur, rs_set_partitions, rs_set_unsplittable. simpl.
    rewrite Hov. reflexivity.
Qed.

Lemma next_subarray_partition_after_overflow_witness :
  next_subarray_partition 1 (ex_env false)
    (with_read_state (ex_reader INT32 8)
       (mkRS (Some [0; 3]) (Some [0; 9]) [[4; 9]] true true false))
  = Ret (Ok, with_read_state (ex_reader INT32 8)
               (mkRS (Some [0; 1]) (Some [0; 9]) [[2; 3]; [4; 9]] true true false)).
Proof.
  exact (proj2 (next_subarray_partition_after_overflow 0 (ex_env false)
                  (with_read_state (ex_reader INT32 8)
                     (mkRS (Some [0; 3]) (Some [0; 9]) [[4; 9]] true true false))
                  (ex_schema INT32) [0; 3] eq_refl eq_refl eq_refl)
               Ok [0; 1] [2; 3] (snd (ex_est [mkFrag true] [0; 1]))
               eq_refl eq_refl eq_refl eq_refl).
Defined.

(** X12.  Whenever [next_subarray_partition] returns an error (the
    estimation or the split of a pending partition has failed), it has
    cleared the read state: no subarray, nothing current, nothing pending,
    not initialized, no overflow; so that on the legacy path [incomplete]
    is false afterwards.  Buffers, attributes and caller memory are as they
    were. *)
Theorem next_subarray_partition_error_clears (fuel : nat) (E : Env) (r r' : Reader)
    (st : Status) :
  next_subarray_partition fuel E r = Ret (st, r') -> st <> Ok ->
  read_state_ r' = mkRS None None [] false false false
  /\ (set_ (read_state_2_ r) = false -> incomplete r' = false)
  /\ attr_buffers_ r' = attr_buffers_ r /\ attributes_ r' = attributes_ r
  /\ mem_ r' = mem_ r.
Proof.
  unfold next_subarray_partition. intros H Hst.
  destruct (array_schema_ r) as [schema|]; [|discriminate].
  match type of H with (?split ≫= _) = _ => destruct split as [o| |] eqn:Hsplit end;
    simpl in H; try discriminate.
  assert (Ho : forall rs, o = Some rs -> unsplittable_ rs = false).
  { intros rs ->. simpl in Hsplit.
    destruct (overflowed_ (read_state_ r)).
    - destruct (cur_subarray_partition_ (read_state_ r)); [|discriminate].
      destruct (snd (env_split_subarray E _ _)) as [[s1|] [s2|]]; try discriminate.
      injection Hsplit as <-. reflexivity.
    - injection Hsplit as <-. reflexivity. }
  destruct o as [rs|]; [|injection H as <- _; congruence].
  specialize (Ho rs eq_refl).
  destruct (subarray_partitions_ rs) as [|p pending];
    [injection H as <- _; congruence|].
  destruct (search_partition fuel E schema r (p :: pending)) as [found| |];
    simpl in H; try discriminate.
  destruct found as [np u rest| |st'].
  - destruct (cur_subarray_partition_ rs); [|discriminate].
    injection H as <- _. congruence.
  - injection H as <- _. congruence.
  - injection H as _ <-. split; [cbn; rewrite Ho; reflexivity|].
    split; [|repeat split]. intros H2. unfold incomplete. cbn. rewrite H2. reflexivity.
Qed.

Lemma next_subarray_partition_error_clears_witness :
  read_state_
    (returned (next_subarray_partition 1 ex_env_no_estimate
                 (ex_pending (ex_reader INT32 8) [0; 1] [[2; 9]]))
              (ex_reader INT32 8))
  = mkRS None None [] false false false.
Proof.
  refine (proj1 (next_subarray_partition_error_clears 1 ex_env_no_estimate
                   (ex_pending (ex_reader INT32 8) [0; 1] [[2; 9]])
                   (returned (next_subarray_partition 1 ex_env_no_estimate
                                (ex_pending (ex_reader INT32 8) [0; 1] [[2; 9]]))
                             (ex_reader INT32 8))
                   (Err CollaboratorError "Cannot load fragment metadata") _ _)).
  - vm_compute. reflexivity.
  - discriminate.
Defined.



End PlannerFacts.

(** ** Facts on the cell copiers *)

Module CopyFacts.
Import ReaderModel.
Import ReaderFacts.

Lemma sumZ_app (l1 l2 : list Z) : sumZ (l1 ++ l2) = sumZ l1 + sumZ l2.
Proof. unfold sumZ. induction l1 as [|x l1 IH]; simpl; [reflexivity | rewrite IH; lia]. Qed.

Lemma map_seq_shift {A : Type} (f : nat -> A) (a n : nat) :
  map f (seq a n) = map (fun i => f (a + i)%nat) (seq 0 n).
Proof.
  revert f a. induction n as [|n IH]; intros f a; simpl; [reflexivity|].
  rewrite Nat.add_0_r. f_equal. rewrite (IH f (S a)), (IH (fun i => f (a + i)%nat) 1%nat).
  apply map_ext. intros i. f_equal. lia.
Qed.

Lemma cell_destinations_closed (fs : Z) (cr : RangeTiles) (idxs : list Z) :
  forall t1 t2, u64 t1 = t1 -> u64 t2 = t2 ->
    cell_destinations fs cr idxs t1 t2
    = (map (fun i => u64 (t1 + cell_var_offset_size * Z.of_nat i)) (seq 0 (length idxs)),
       map (fun i => u64 (t2 + sumZ (take i (map (cell_var_size fs cr) idxs))))
           (seq 0 (length idxs)),
       u64 (t1 + cell_var_offset_size * Z.of_nat (length idxs)),
       u64 (t2 + sumZ (map (cell_var_size fs cr) idxs))).
Proof.
  induction idxs as [|x idxs IH]; intros t1 t2 H1 H2.
  - simpl. rewrite !Z.add_0_r, H1, H2. reflexivity.
  - cbn [cell_destinations length seq map].
    rewrite IH by apply u64_idem. cbn [take sumZ foldr].
    rewrite !Z.add_0_r, H1, H2. f_equal; [f_equal; [f_equal|]|].
    + f_equal. rewrite (map_seq_shift _ 1). apply map_ext. intros i.
      rewrite u64_add_l. apply (f_equal u64). lia.
    + f_equal. rewrite (map_seq_shift _ 1). apply map_ext. intros i.
      rewrite u64_add_l. apply (f_equal u64). cbn [Nat.add take foldr].
      unfold sumZ. cbn [foldr]. lia.
    + rewrite u64_add_l. apply (f_equal u64). lia.
    + rewrite u64_add_l. apply (f_equal u64). unfold sumZ. cbn [foldr]. lia.
Qed.

Lemma var_cell_sizes_cons (fs : Z) (cr : RangeTiles) (crs : list RangeTiles) :
  var_cell_sizes fs (cr :: crs)
  = map (cell_var_size fs cr) (cells cr) ++ var_cell_sizes fs crs.
Proof. reflexivity. Qed.

Lemma var_cell_destinations_closed (fs : Z) (crs : list RangeTiles) :
  forall t1 t2, u64 t1 = t1 -> u64 t2 = t2 ->
    exists ooo vvo,
      var_cell_destinations fs crs t1 t2
      = (ooo, vvo,
         u64 (t1 + cell_var_offset_size * Z.of_nat (length (var_cell_sizes fs crs))),
         u64 (t2 + sumZ (var_cell_sizes fs crs)))
      /\ concat ooo
         = map (fun i => u64 (t1 + cell_var_offset_size * Z.of_nat i))
               (seq 0 (length (var_cell_sizes fs crs)))
      /\ concat vvo
         = map (fun i => u64 (t2 + sumZ (take i (var_cell_sizes fs crs))))
               (seq 0 (length (var_cell_sizes fs crs)))
      /\ map length ooo = map (fun cr => length (cells cr)) crs
      /\ map length vvo = map (fun cr => length (cells cr)) crs.
Proof.
  induction crs as [|cr crs IH]; intros t1 t2 H1 H2.
  - exists [], []. simpl. rewrite !Z.add_0_r, H1, H2. repeat split.
  - cbn [var_cell_destinations]. rewrite (cell_destinations_closed fs cr _ t1 t2 H1 H2).
    match goal with
    | |- context [var_cell_destinations fs crs ?a ?b] =>
      destruct (IH a b (u64_idem _) (u64_idem _)) as (ooo & vvo & Heq & Ho & Hv & Hlo & Hlv)
    end.
    rewrite Heq. rewrite var_cell_sizes_cons, length_app, length_map, sumZ_app.
    set (n1 := length (cells cr)) in *.
    set (sz1 := map (cell_var_size fs cr) (cells cr)) in *.
    assert (Hn1 : length sz1 = n1) by (subst sz1 n1; apply length_map).
    eexists _, _. split; [|split; [|split; [|split]]].
    + f_equal; [f_equal|].
      * rewrite u64_add_l. apply (f_equal u64). lia.
      * rewrite u64_add_l. apply (f_equal u64). lia.
    + cbn [concat]. rewrite Ho, seq_app, map_app. f_equal.
      rewrite (map_seq_shift _ (0 + n1)). apply map_ext.
      intros i. rewrite u64_add_l. apply (f_equal u64). lia.
    + cbn [concat]. rewrite Hv, seq_app, map_app. f_equal.
      * apply map_ext_in. intros i Hi%in_seq. apply (f_equal u64). f_equal. f_equal.
        rewrite take_app_le; [reflexivity | lia].
      * rewrite (map_seq_shift _ (0 + n1)). apply map_ext.
        intros i. rewrite u64_add_l. apply (f_equal u64).
        rewrite take_app_ge by lia. rewrite sumZ_app.
        replace (0 + n1 + i - length sz1)%nat with i by lia. lia.
    + cbn [map]. rewrite length_map, length_seq, Hlo. reflexivity.
    + cbn [map]. rewrite length_map, length_seq, Hlv. reflexivity.
Qed.

(** X14.  [compute_var_cell_destinations] lays the cells out back to
    back, in the order of the ranges and of the cells in each: the
    destination of the offset of the [i]-th cell is [8 * i], the
    destination of its value is the sum of the sizes of the cells before
    it, and the two totals are [8] times the number of cells and the sum of
    all sizes; everything as [uint64_t].  Each range gets as many
    destinations as it has cells. *)
Theorem compute_var_cell_destinations_layout (schema : ArraySchema) (attr : string)
    (crs : list RangeTiles) :
  exists ooo vvo,
    compute_var_cell_destinations schema attr crs
    = (ooo, vvo,
       u64 (cell_var_offset_size
            * Z.of_nat (length (var_cell_sizes (datatype_size (type schema attr)) crs))),
       u64 (sumZ (var_cell_sizes (datatype_size (type schema attr)) crs)))
    /\ concat ooo
       = map (fun i => u64 (cell_var_offset_size * Z.of_nat i))
             (seq 0 (length (var_cell_sizes (datatype_size (type schema attr)) crs)))
    /\ concat vvo
       = map (fun i => u64 (sumZ (take i (var_cell_sizes (datatype_size (type schema attr))
                                                        crs))))
             (seq 0 (length (var_cell_sizes (datatype_size (type schema attr)) crs)))
    /\ map length ooo = map (fun cr => length (cells cr)) crs
    /\ map length vvo = map (fun cr => length (cells cr)) crs.
Proof.
  unfold compute_var_cell_destinations.
  destruct (var_cell_destinations_closed (datatype_size (type schema attr)) crs 0 0
              eq_refl eq_refl) as (ooo & vvo & Heq & Ho & Hv & Hlo & Hlv).
  exists ooo, vvo. rewrite Heq. split; [reflexivity|]. split; [|split; [|split]].
  - rewrite Ho. apply map_ext. intros i. reflexivity.
  - rewrite Hv. apply map_ext. intros i. reflexivity.
  - exact Hlo.
  - exact Hlv.
Qed.

(** *** What [copy_fixed_cells] writes *)

Lemma u64_small (z : Z) : 0 <= z < u64_mod -> u64 z = z.
Proof. intros H. unfold u64. apply Z.mod_small. exact H. Qed.

Lemma splice_at (pre rest src : list Z) (off : Z) :
  Z.of_nat (length pre) = off -> (length src <= length rest)%nat ->
  splice (pre ++ rest) off src = pre ++ src ++ drop (length src) rest.
Proof.
  intros Hoff Hlen. unfold splice.
  replace (Z.to_nat off) with (length pre) by lia.
  rewrite take_app_length, drop_app_add. reflexivity.
Qed.

Lemma memcpy_at (m : Mem) (b : loc) (off : Z) (src : list Z) (n : Z)
    (pre rest : list Z) :
  bytes m !! b = Some (pre ++ rest) -> Z.of_nat (length pre) = off ->
  0 <= n -> n <= Z.of_nat (length src) -> n <= Z.of_nat (length rest) ->
  bytes (memcpy m b off src n) !! b
  = Some ((pre ++ take (Z.to_nat n) src) ++ drop (Z.to_nat n) rest)
  /\ (forall b', b' <> b -> bytes (memcpy m b off src n) !! b' = bytes m !! b')
  /\ sizes (memcpy m b off src n) = sizes m.
Proof.
  intros Hb Hoff Hn Hsrc Hrest. unfold memcpy. cbn [bytes sizes].
  rewrite lookup_insert_eq, Hb. cbn [default]. split; [|split; [|reflexivity]].
  - f_equal. rewrite (splice_at pre rest _ off Hoff).
    + rewrite length_take_le by lia. rewrite <- app_assoc. reflexivity.
    + rewrite length_take_le by lia. lia.
  - intros b' Hne. rewrite lookup_insert_ne by congruence. reflexivity.
Qed.

Lemma bytes_to_copy_exact (attr : string) (cs : Z) (cr : CellRange) :
  0 < cs -> fixed_range_ok attr cs cr ->
  bytes_to_copy cs cr = (cr_end_ cr - cr_start_ cr + 1) * cs
  /\ 0 < (cr_end_ cr - cr_start_ cr + 1) * cs
  /\ u64 (cr_start_ cr * cs) = cr_start_ cr * cs
  /\ cr_start_ cr * cs + (cr_end_ cr - cr_start_ cr + 1) * cs = (cr_end_ cr + 1) * cs.
Proof.
  intros Hcs ((Hs & He) & Hb & _). unfold bytes_to_copy.
  assert (Hm : 0 < u64_mod) by reflexivity.
  assert (H1 : cr_end_ cr + 1 <= (cr_end_ cr + 1) * cs) by nia.
  rewrite (u64_small (cr_end_ cr - cr_start_ cr)) by lia.
  rewrite (u64_small (cr_end_ cr - cr_start_ cr + 1)) by lia.
  rewrite (u64_small ((cr_end_ cr - cr_start_ cr + 1) * cs)) by nia.
  rewrite (u64_small (cr_start_ cr * cs)) by nia.
  repeat split; nia.
Qed.

Lemma fill_loop_at (b : loc) (fill : list Z) (fs : Z) (k : nat) :
  0 < fs -> fs <= Z.of_nat (length fill) ->
  forall m off pre rest,
    bytes m !! b = Some (pre ++ rest) -> Z.of_nat (length pre) = off ->
    Z.of_nat k * fs <= Z.of_nat (length rest) -> off + Z.of_nat k * fs < u64_mod ->
    bytes (fill_loop k m b off fill fs) !! b
    = Some ((pre ++ concat (replicate k (take (Z.to_nat fs) fill)))
            ++ drop (Z.to_nat (Z.of_nat k * fs)) rest)
    /\ (forall b', b' <> b -> bytes (fill_loop k m b off fill fs) !! b' = bytes m !! b')
    /\ sizes (fill_loop k m b off fill fs) = sizes m.
Proof.
  intros Hfs Hfill. induction k as [|k IH]; intros m off pre rest Hb Hoff Hrest Hsmall.
  - cbn [fill_loop replicate concat]. rewrite app_nil_r. cbn. rewrite drop_0.
    repeat split. exact Hb.
  - cbn [fill_loop].
    destruct (memcpy_at m b off fill fs pre rest Hb Hoff ltac:(lia) Hfill ltac:(nia))
      as (Hb1 & Ho1 & Hs1).
    assert (Hpre : Z.of_nat (length (pre ++ take (Z.to_nat fs) fill)) = u64 (off + fs)).
    { rewrite length_app, length_take_le by lia. rewrite u64_small by nia. lia. }
    destruct (IH _ _ _ _ Hb1 Hpre) as (Hb2 & Ho2 & Hs2).
    + rewrite length_drop. nia.
    + rewrite u64_small by nia. nia.
    + split; [|split].
      * rewrite Hb2. f_equal. cbn [replicate concat]. rewrite drop_drop.
        rewrite <- !app_assoc. do 3 f_equal. f_equal. nia.
      * intros b' Hne. rewrite Ho2, Ho1 by exact Hne. reflexivity.
      * rewrite Hs2, Hs1. reflexivity.
Qed.

Lemma length_concat_replicate (k : nat) (x : list Z) :
  length (concat (replicate k x)) = (k * length x)%nat.
Proof.
  induction k as [|k IH]; cbn [replicate concat]; [reflexivity|].
  rewrite length_app, IH. reflexivity.
Qed.

Lemma fixed_range_bytes_length (attr : string) (cs fs : Z) (fill : list Z) (cr : CellRange) :
  0 < cs -> 0 < fs -> fs <= Z.of_nat (length fill) ->
  ((cr_end_ cr - cr_start_ cr + 1) * cs) mod fs = 0 ->
  fixed_range_ok attr cs cr ->
  Z.of_nat (length (fixed_range_bytes attr cs fs fill cr))
  = (cr_end_ cr - cr_start_ cr + 1) * cs.
Proof.
  intros Hcs Hfs Hfill Hdiv Hok.
  destruct (bytes_to_copy_exact attr cs cr Hcs Hok) as (_ & Hpos & _ & Hsum).
  destruct Hok as ((Hs & He) & _ & Ht). unfold fixed_range_bytes.
  assert (Hs0 : 0 <= cr_start_ cr * cs) by nia.
  set (n := (cr_end_ cr - cr_start_ cr + 1) * cs) in *.
  destruct (cr_tile_ cr) as [t|].
  - destruct Ht as (tile & tv & -> & Hsz). unfold tile_cells, tile_size in *. fold n.
    rewrite length_take_le; [lia|]. rewrite length_drop. lia.
  - rewrite length_concat_replicate, length_take_le by lia.
    apply Z.mod_divide in Hdiv; [|lia]. destruct Hdiv as [q Hq].
    rewrite Hq, Z.div_mul by lia. nia.
Qed.

Lemma copy_fixed_range_at (E : Env) (schema : ArraySchema) (attr : string) (b : loc)
    (buffer_size : Z) (fill : list Z) (m : Mem) (cr : CellRange) (off : Z)
    (pre rest : list Z) :
  let cs := cell_size schema attr in
  let fs := datatype_size (type schema attr) in
  let n := (cr_end_ cr - cr_start_ cr + 1) * cs in
  0 < cs -> fs <= Z.of_nat (length fill) -> fixed_range_ok attr cs cr ->
  bytes m !! b = Some (pre ++ rest) -> Z.of_nat (length pre) = off ->
  n <= Z.of_nat (length rest) -> off + n <= buffer_size -> off + n < u64_mod ->
  exists m',
    copy_fixed_range E attr (Some b) buffer_size cs fs fill m cr off = Ret m'
    /\ bytes m' !! b
       = Some ((pre ++ fixed_range_bytes attr cs fs fill cr) ++ drop (Z.to_nat n) rest)
    /\ (forall b', b' <> b -> bytes m' !! b' = bytes m !! b')
    /\ sizes m' = sizes m.
Proof.
  intros cs fs n Hcs Hfill Hok Hb Hoff Hrest Hcap Hsmall.
  destruct (bytes_to_copy_exact attr cs cr Hcs Hok) as (Hn & Hpos & Hst & Hsum).
  pose proof (datatype_size_pos (type schema attr)) as Hfs. fold fs in Hfs.
  pose proof (bytes_to_copy_divisible schema attr cr) as Hdiv.
  fold cs fs in Hdiv. rewrite Hn in Hdiv. fold n in Hn, Hpos, Hdiv.
  unfold copy_fixed_range. rewrite Hn.
  rewrite (u64_small (off + n)) by lia.
  replace (buffer_size <? off + n) with false by (symmetry; apply Z.ltb_ge; lia).
  rewrite andb_false_r. unfold range_tiles, fixed_range_bytes.
  destruct Hok as ((Hs0 & He) & Hbound & Ht).
  assert (Hs1 : 0 <= cr_start_ cr * cs) by nia.
  fold n in Hsum. destruct (cr_tile_ cr) as [t|].
  - destruct Ht as (tile & tv & -> & Hsz). rewrite Hst. unfold tile_size in Hsz.
    eexists. split; [reflexivity|]. unfold tile_cells. fold cs n.
    apply memcpy_at; [exact Hb | exact Hoff | lia | | exact Hrest].
    rewrite length_drop. lia.
  - eexists. split; [reflexivity|].
    assert (Hk : Z.of_nat (Z.to_nat (n / fs)) * fs = n).
    { apply Z.mod_divide in Hdiv; [|lia]. destruct Hdiv as [q Hq].
      rewrite Hq, Z.div_mul by lia. nia. }
    destruct (fill_loop_at b fill fs (Z.to_nat (n / fs)) Hfs Hfill m off pre rest Hb Hoff)
      as (H1 & H2 & H3); [lia | lia |].
    rewrite Hk in H1. auto.
Qed.

Lemma copy_fixed_ranges_at (E : Env) (schema : ArraySchema) (attr : string) (b : loc)
    (buffer_size : Z) (fill : list Z) (crs : list CellRange) :
  let cs := cell_size schema attr in
  let fs := datatype_size (type schema attr) in
  0 < cs -> fs <= Z.of_nat (length fill) -> Forall (fixed_range_ok attr cs) crs ->
  forall m off pre rest,
    bytes m !! b = Some (pre ++ rest) -> Z.of_nat (length pre) = off ->
    fixed_total cs crs <= Z.of_nat (length rest) ->
    off + fixed_total cs crs <= buffer_size -> off + fixed_total cs crs < u64_mod ->
    snd (fixed_offsets cs crs off) = off + fixed_total cs crs
    /\ exists m',
         copy_fixed_ranges E attr (Some b) buffer_size cs fs fill m crs
           (fst (fixed_offsets cs crs off)) = Ret m'
         /\ bytes m' !! b
            = Some ((pre ++ concat (map (fixed_range_bytes attr cs fs fill) crs))
                    ++ drop (Z.to_nat (fixed_total cs crs)) rest)
         /\ (forall b', b' <> b -> bytes m' !! b' = bytes m !! b')
         /\ sizes m' = sizes m.
Proof.
  intros cs fs Hcs Hfill Hall.
  induction Hall as [|cr crs Hok Hall IH]; intros m off pre rest Hb Hoff Hrest Hcap Hsmall.
  - unfold fixed_total, sumZ in *. cbn in *. rewrite Z.add_0_r. split; [reflexivity|].
    exists m. rewrite app_nil_r, drop_0. repeat split. exact Hb.
  - destruct (bytes_to_copy_exact attr cs cr Hcs Hok) as (Hn & Hpos & _).
    assert (Htot : fixed_total cs (cr :: crs)
                   = (cr_end_ cr - cr_start_ cr + 1) * cs + fixed_total cs crs)
      by reflexivity.
    assert (Hnn : 0 <= fixed_total cs crs).
    { clear -Hall Hcs. induction Hall as [|c l Hc _ IHl]; [unfold fixed_total; cbn; lia|].
      destruct (bytes_to_copy_exact attr cs c Hcs Hc) as (_ & Hp & _).
      unfold fixed_total in *. cbn. unfold sumZ in *. cbn. lia. }
    rewrite Htot in *. cbn [fixed_offsets fst snd copy_fixed_ranges map concat].
    rewrite Hn.
    destruct (copy_fixed_range_at E schema attr b buffer_size fill m cr off pre rest
                Hcs Hfill Hok Hb Hoff) as (m1 & Hrun & Hb1 & Ho1 & Hs1);
      [fold cs; lia | fold cs; lia | fold cs; lia |].
    fold cs fs in Hrun, Hb1. rewrite Hrun. cbn [mbind Run_bind bind].
    pose proof (fixed_range_bytes_length attr cs fs fill cr Hcs
                  (datatype_size_pos _) Hfill) as Hlen.
    pose proof (bytes_to_copy_divisible schema attr cr) as Hdiv. fold cs fs in Hdiv.
    rewrite Hn in Hdiv. specialize (Hlen Hdiv Hok).
    destruct (IH m1 (u64 (off + (cr_end_ cr - cr_start_ cr + 1) * cs))
                 (pre ++ fixed_range_bytes attr cs fs fill cr)
                 (drop (Z.to_nat ((cr_end_ cr - cr_start_ cr + 1) * cs)) rest) Hb1)
      as (Hoffs & m2 & Hrun2 & Hb2 & Ho2 & Hs2).
    + rewrite length_app, u64_small by lia. lia.
    + rewrite length_drop. lia.
    + rewrite u64_small by lia. lia.
    + rewrite u64_small by lia. lia.
    + split; [rewrite Hoffs, u64_small by lia; lia|].
      exists m2. split; [exact Hrun2|]. split; [|split].
      * rewrite Hb2. f_equal. rewrite drop_drop, <- !app_assoc. do 3 f_equal.
        f_equal. lia.
      * intros b' Hne. rewrite Ho2, Ho1 by exact Hne. reflexivity.
      * rewrite Hs2, Hs1. reflexivity.
Qed.

(** X15.  What [copy_fixed_cells] writes.  The ranges have their cells
    in order and their tiles loaded, the fill value is stored at a non-null
    address, the cells of all ranges fit the size the size pointer refers
    to, and the buffer is at least that large.  Then the copier returns
    [Ok] without overflow: the buffer holds the cells of the ranges back to
    back, in the order of the ranges, the fill value for the cells of an
    empty range; the bytes after them are as they were; the size is the
    number of bytes copied; no other buffer has changed. *)
Theorem copy_fixed_cells_content (E : Env) (r : Reader) (attr : string)
    (crs : list CellRange) (schema : ArraySchema) (ab : AttributeBuffer) (b p : loc)
    (old : list Z) :
  let cs := cell_size schema attr in
  let fs := datatype_size (type schema attr) in
  let fill := env_deref E (env_fill_value E (type schema attr)) in
  array_schema_ r = Some schema -> attr_buffers_ r !! attr = Some ab ->
  buffer_ ab = Some b -> buffer_size_ ab = Some p ->
  bytes (mem_ r) !! b = Some old ->
  0 < cs -> Forall (fixed_range_ok attr cs) crs ->
  env_fill_value E (type schema attr) <> 0 -> fs <= Z.of_nat (length fill) ->
  fixed_total cs crs <= load (mem_ r) p ->
  load (mem_ r) p <= Z.of_nat (length old) -> load (mem_ r) p < u64_mod ->
  exists r',
    copy_fixed_cells E r attr crs = Ret (Ok, r')
    /\ bytes (mem_ r') !! b
       = Some (concat (map (fixed_range_bytes attr cs fs fill) crs)
               ++ drop (Z.to_nat (fixed_total cs crs)) old)
    /\ load (mem_ r') p = fixed_total cs crs
    /\ (forall b', b' <> b -> bytes (mem_ r') !! b' = bytes (mem_ r) !! b')
    /\ (forall q, q <> p -> load (mem_ r') q = load (mem_ r) q)
    /\ read_state_ r' = read_state_ r /\ read_state_2_ r' = read_state_2_ r.
Proof.
  intros cs fs fill Hs Hab Hbuf Hsz Hold Hcs Hall Hfv Hfill Htot Hcap Hsmall.
  destruct (copy_fixed_ranges_at E schema attr b (load (mem_ r) p) fill crs Hcs Hfill Hall
              (mem_ r) 0 [] old Hold eq_refl) as (Hoffs & m' & Hrun & Hb & Ho & Hsizes);
    [fold cs; lia | fold cs; lia | fold cs; lia |].
  fold cs fs in Hoffs, Hrun, Hb. rewrite Z.add_0_l in Hoffs.
  unfold copy_fixed_cells. rewrite Hab, Hs. fold cs fs.
  replace (env_fill_value E (type schema attr) =? 0) with false
    by (symmetry; apply Z.eqb_neq; exact Hfv).
  rewrite andb_false_r, Hsz, Hoffs.
  replace (load (mem_ r) p <? fixed_total cs crs) with false
    by (symmetry; apply Z.ltb_ge; exact Htot).
  rewrite Hbuf. fold fill. rewrite Hrun. cbn [mbind Run_bind bind].
  eexists. split; [reflexivity|]. cbn [mem_ with_mem bytes store].
  split; [exact Hb|]. split; [rewrite load_store, decide_True by reflexivity; reflexivity|].
  split; [exact Ho|]. split; [|split; reflexivity].
  intros q Hq. rewrite load_store, decide_False by congruence.
  unfold load. rewrite Hsizes. reflexivity.
Qed.

Lemma copy_fixed_cells_content_witness :
  exists r',
    copy_fixed_cells (ex_env false) (ex_reader INT32 8) "a"
      [mkCR (Some ex_tile) 2 2; mkCR None 0 0] = Ret (Ok, r')
    /\ bytes (mem_ r') !! 1%positive = Some [12; 0; 0; 0; 0; 0; 0; 128]
    /\ load (mem_ r') 2%positive = 8.
Proof.
  destruct (copy_fixed_cells_content (ex_env false) (ex_reader INT32 8) "a"
              [mkCR (Some ex_tile) 2 2; mkCR None 0 0] (ex_schema INT32)
              (mkBuf (Some 1%positive) None (Some 2%positive) None 8 0)
              1%positive 2%positive (replicate 8 0))
    as (r' & Hrun & Hb & Hl & _).
  - reflexivity.
  - reflexivity.
  - reflexivity.
  - reflexivity.
  - reflexivity.
  - reflexivity.
  - repeat constructor; try (cbn; lia); try reflexivity.
    exists (mkTile (concat (map (fun i => le_bytes 4 (10 + i)) (seqZ 0 10))) 10), (mkTile [] 0).
    split; [reflexivity | vm_compute; discriminate].
  - discriminate.
  - vm_compute. discriminate.
  - vm_compute. discriminate.
  - vm_compute. discriminate.
  - reflexivity.
  - exists r'. split; [exact Hrun|]. split; [|exact Hl].
    etransitivity; [exact Hb | vm_compute; reflexivity].
Defined.

End CopyFacts.

(** ** Facts on [compute_cell_ranges] *)

Module CellRangeFacts.
Import Dedup.
Import ReaderModel.
Import CellRanges.

Lemma neighbours_snoc {A : Type} (R : A -> A -> Prop) (l : list A) (a b : A) :
  neighbours R (l ++ [a]) -> R a b -> neighbours R ((l ++ [a]) ++ [b]).
Proof.
  induction l as [|x l IH]; intros H Hab; [cbn; auto|].
  destruct l as [|y l]; [cbn in *; tauto|].
  cbn [app neighbours] in *. destruct H as [Hxy H]. split; [exact Hxy|].
  apply IH; assumption.
Qed.

Lemma neighbours_last {A : Type} (R : A -> A -> Prop) (l : list A) (a a' : A) :
  (forall x, R x a -> R x a') -> neighbours R (l ++ [a]) -> neighbours R (l ++ [a']).
Proof.
  intros Haa'. induction l as [|x l IH]; intros H; [cbn; auto|].
  destruct l as [|y l]; [cbn in *; destruct H; split; auto|].
  cbn [app neighbours] in *. destruct H as [Hxy H]. split; [exact Hxy|].
  apply IH. exact H.
Qed.

Lemma valid_coords_cons (c : OverlappingCoords) (l : list OverlappingCoords) :
  valid_coords (c :: l) = if valid_ c then c :: valid_coords l else valid_coords l.
Proof.
  unfold valid_coords. destruct (valid_ c) eqn:Hv.
  - rewrite filter_cons_True by exact Hv. reflexivity.
  - rewrite filter_cons_False by congruence. reflexivity.
Qed.

Lemma drop_skip_count (l : list OverlappingCoords) :
  match drop (skip_count l) l with
  | [] => valid_coords l = []
  | c :: rest => valid_ c = true /\ valid_coords l = c :: valid_coords rest
  end.
Proof.
  induction l as [|c l IH]; [reflexivity|].
  cbn [skip_count]. rewrite valid_coords_cons. destruct (valid_ c) eqn:Hv.
  - cbn [drop]. rewrite Hv. split; reflexivity.
  - cbn [drop]. exact IH.
Qed.

Section TilePointers.

Variable same_tile : OverlappingTile -> OverlappingTile -> bool.
Hypothesis same_tile_eq : forall a b, same_tile a b = true -> a = b.

Lemma scan_coords_app (l : list OverlappingCoords) :
  forall tile s e out,
    scan_coords same_tile l tile s e out = out ++ scan_coords same_tile l tile s e [].
Proof.
  induction l as [|c l IH]; intros tile s e out; cbn [scan_coords]; [reflexivity|].
  destruct (negb (valid_ c)); [apply IH|].
  destruct (_ && _); [apply IH|].
  rewrite IH, (IH _ _ _ ([] ++ _)), app_assoc. reflexivity.
Qed.

Lemma scan_coords_cells (l : list OverlappingCoords) :
  Forall (fun c => valid_ c = true -> 0 <= pos_ c < u64_mod - 1) l ->
  forall tile s e out,
    0 <= s <= e -> e < u64_mod - 1 ->
    concat (map range_cells (scan_coords same_tile l tile s e out))
    = concat (map range_cells out)
      ++ map (fun p => (Some tile, p)) (seqZ s (e - s + 1))
      ++ map coords_cell (valid_coords l).
Proof.
  induction 1 as [|c l Hc Hl IH]; intros tile s e out Hse He.
  - cbn [scan_coords]. rewrite map_app, concat_app. cbn. rewrite !app_nil_r. reflexivity.
  - cbn [scan_coords]. rewrite valid_coords_cons.
    destruct (valid_ c) eqn:Hv; cbn [negb]; [|apply IH; assumption].
    specialize (Hc eq_refl).
    destruct (same_tile (tile_ c) tile && (pos_ c =? u64 (e + 1))) eqn:Hsame.
    + apply andb_true_iff in Hsame as [Ht Hp]. apply same_tile_eq in Ht.
      apply Z.eqb_eq in Hp. unfold u64 in Hp. rewrite Z.mod_small in Hp by lia.
      rewrite IH by lia. f_equal. rewrite Hp.
      replace (e + 1 - s + 1) with ((e - s + 1) + 1) by lia.
      rewrite seqZ_app by lia. rewrite map_app, <- app_assoc. f_equal.
      cbn [map app]. unfold coords_cell. rewrite Ht, Hp.
      replace (s + (e - s + 1)) with (e + 1) by lia. reflexivity.
    + rewrite IH by lia. rewrite map_app, concat_app, <- !app_assoc. f_equal.
      cbn [map concat]. rewrite app_nil_r. unfold range_cells at 1. cbn [cr_tile_ cr_start_ cr_end_].
      f_equal. replace (pos_ c - pos_ c + 1) with 1 by lia. reflexivity.
Qed.

Lemma scan_coords_shape (l : list OverlappingCoords) :
  Forall (fun c => valid_ c = true -> 0 <= pos_ c < u64_mod - 1) l ->
  forall tile s e out,
    0 <= s <= e -> e < u64_mod - 1 ->
    Forall (fun cr => is_Some (cr_tile_ cr) /\ cr_start_ cr <= cr_end_ cr) out ->
    Forall (fun cr => is_Some (cr_tile_ cr) /\ cr_start_ cr <= cr_end_ cr)
           (scan_coords same_tile l tile s e out).
Proof.
  induction 1 as [|c l Hc Hl IH]; intros tile s e out Hse He Hout.
  - cbn [scan_coords]. apply Forall_app. split; [exact Hout|].
    constructor; [|constructor]. cbn. split; [eauto | lia].
  - cbn [scan_coords]. destruct (valid_ c) eqn:Hv; cbn [negb]; [|apply IH; assumption].
    specialize (Hc eq_refl).
    destruct (same_tile (tile_ c) tile && (pos_ c =? u64 (e + 1))) eqn:Hsame.
    + apply andb_true_iff in Hsame as [_ Hp].
      apply Z.eqb_eq in Hp. unfold u64 in Hp. rewrite Z.mod_small in Hp by lia.
      apply IH; [lia | lia | exact Hout].
    + apply IH; [lia | lia |]. apply Forall_app. split; [exact Hout|].
      constructor; [|constructor]. cbn. split; [eauto | lia].
Qed.

Lemma scan_coords_maximal (l : list OverlappingCoords) :
  forall tile s e out,
    neighbours (not_mergeable same_tile) (out ++ [mkCR (Some tile) s e]) ->
    neighbours (not_mergeable same_tile) (scan_coords same_tile l tile s e out).
Proof.
  induction l as [|c l IH]; intros tile s e out H; cbn [scan_coords]; [exact H|].
  destruct (negb (valid_ c)); [apply IH; exact H|].
  destruct (same_tile (tile_ c) tile && (pos_ c =? u64 (e + 1))) eqn:Hsame.
  - apply IH. revert H. apply neighbours_last. intros x Hx. exact Hx.
  - apply IH. apply neighbours_snoc; [exact H|].
    unfold not_mergeable. cbn. exact Hsame.
Qed.

(** X17.  [compute_cell_ranges] turns the valid coordinates into maximal
    runs.  Without coordinates it returns [Ok] and appends nothing; with
    coordinates none of which is valid it returns an error and appends
    nothing.  Otherwise it returns [Ok] and appends ranges, each of one tile
    and not empty, whose cells taken in order are exactly the cells of the
    valid coordinates in their order; and no two ranges that follow one
    another continue the same run.  The positions are below the largest
    [uint64_t]. *)
Theorem compute_cell_ranges_cells (coords : list OverlappingCoords)
    (cell_ranges : list CellRange) :
  Forall (fun c => valid_ c = true -> 0 <= pos_ c < u64_mod - 1) coords ->
  match compute_cell_ranges same_tile coords cell_ranges with
  | (Ok, res) =>
    (coords = [] \/ valid_coords coords <> [])
    /\ exists new,
         res = cell_ranges ++ new
         /\ concat (map range_cells new) = map coords_cell (valid_coords coords)
         /\ Forall (fun cr => is_Some (cr_tile_ cr) /\ cr_start_ cr <= cr_end_ cr) new
         /\ neighbours (not_mergeable same_tile) new
  | (Err _ _, res) =>
    res = cell_ranges /\ coords <> [] /\ valid_coords coords = []
  end.
Proof.
  intros Hpos. unfold compute_cell_ranges.
  destruct coords as [|c0 coords0] eqn:Hcoords.
  { split; [left; reflexivity|]. exists []. rewrite app_nil_r. repeat split; constructor. }
  rewrite <- Hcoords in *. unfold skip_invalid_elements. rewrite drop_0, Nat.add_0_l.
  pose proof (drop_skip_count coords) as Hfirst.
  assert (Hsuffix : Forall (fun c => valid_ c = true -> 0 <= pos_ c < u64_mod - 1)
                           (drop (skip_count coords) coords))
    by (apply Forall_drop; exact Hpos).
  destruct (drop (skip_count coords) coords) as [|c rest].
  { split; [reflexivity|]. split; [rewrite Hcoords; discriminate | exact Hfirst]. }
  destruct Hfirst as [Hv Hvalid]. apply Forall_cons in Hsuffix as [Hc Hrest].
  specialize (Hc Hv).
  split; [right; rewrite Hvalid; discriminate|].
  exists (scan_coords same_tile rest (tile_ c) (pos_ c) (pos_ c) []).
  split; [apply scan_coords_app|]. split; [|split].
  - rewrite (scan_coords_cells rest Hrest) by lia. cbn [map concat app].
    replace (pos_ c - pos_ c + 1) with 1 by lia. rewrite Hvalid. reflexivity.
  - apply (scan_coords_shape rest Hrest); [lia | lia | constructor].
  - apply scan_coords_maximal. cbn. exact I.
Qed.

End TilePointers.

Lemma compute_cell_ranges_cells_witness :
  compute_cell_ranges ex_same_tile ex_coords []
  = (Ok, [mkCR (Some (mkOT 0 7 true ∅)) 3 4; mkCR (Some (mkOT 0 7 true ∅)) 6 6])
  /\ match compute_cell_ranges ex_same_tile ex_coords [] with
     | (Ok, res) =>
       (ex_coords = [] \/ valid_coords ex_coords <> [])
       /\ exists new,
            res = [] ++ new
            /\ concat (map range_cells new) = map coords_cell (valid_coords ex_coords)
            /\ Forall (fun cr => is_Some (cr_tile_ cr) /\ cr_start_ cr <= cr_end_ cr) new
            /\ neighbours (not_mergeable ex_same_tile) new
     | (Err _ _, res) => res = [] /\ ex_coords <> [] /\ valid_coords ex_coords = []
     end.
Proof.
  split; [vm_compute; reflexivity|].
  apply (compute_cell_ranges_cells ex_same_tile).
  - intros a b H. apply bool_decide_eq_true in H. exact H.
  - repeat constructor; cbn; intros; lia.
Defined.

End CellRangeFacts.

(** ** The merger on a tile that one fragment alone intersects *)

Module SingleFragmentFacts.
Import DenseMerge.
Import SingleFragment.

Lemma dcr_eqb_refl (x : DenseCellRange) : dcr_eqb x x = true.
Proof. unfold dcr_eqb. rewrite !Z.eqb_refl. reflexivity. Qed.

Lemma pq_pop_singleton (x : DenseCellRange) : pq_pop [x] = [].
Proof. unfold pq_pop. cbn. rewrite dcr_eqb_refl. reflexivity. Qed.

Lemma lookup_only_fragment (i k : nat) (it : DenseCellRangeIter) :
  only_fragment i k it !! i = Some it.
Proof.
  unfold only_fragment. rewrite lookup_app_r by (rewrite length_replicate; lia).
  rewrite length_replicate, Nat.sub_diag. reflexivity.
Qed.

Lemma advance_only_fragment (i k : nat) (it : DenseCellRangeIter) :
  advance (only_fragment i k it) (Z.of_nat i) = only_fragment i k (tl it).
Proof.
  unfold advance, only_fragment. rewrite Nat2Z.id.
  rewrite alter_app_r_alt by (rewrite length_replicate; lia).
  rewrite length_replicate, Nat.sub_diag. reflexivity.
Qed.

Lemma push_current_only_fragment (tc : list Z) (i k : nat) (it : DenseCellRangeIter)
    (pq : PQ) :
  push_current tc (only_fragment i k it) (Z.of_nat i) pq
  = match it with
    | (s, e) :: _ => mkDCR (Z.of_nat i) tc s e :: pq
    | [] => pq
    end.
Proof.
  unfold push_current. rewrite Nat2Z.id, lookup_only_fragment.
  destruct it as [|[s e] it]; reflexivity.
Qed.

Lemma populate_ended (tc : list Z) (its : list DenseCellRangeIter) (n : nat) :
  forall (j : nat) (pq : PQ),
    (forall x it, (j <= x < j + n)%nat -> its !! x = Some it -> it = []) ->
    populate tc its j n pq = pq.
Proof.
  induction n as [|n IH]; intros j pq H; [reflexivity|].
  cbn [populate]. rewrite IH by (intros x it Hx; apply H; lia).
  unfold push_current. rewrite Nat2Z.id.
  destruct (its !! j) as [it|] eqn:Hj; [|reflexivity].
  rewrite (H j it) by (lia || exact Hj). reflexivity.
Qed.

Lemma populate_add (tc : list Z) (its : list DenseCellRangeIter) (a b : nat) :
  forall (j : nat) (pq : PQ),
    populate tc its j (a + b) pq = populate tc its (j + a) b (populate tc its j a pq).
Proof.
  induction a as [|a IH]; intros j pq.
  - rewrite Nat.add_0_r. reflexivity.
  - cbn [Nat.add populate]. rewrite IH. f_equal. lia.
Qed.

Lemma populate_only_fragment (tc : list Z) (i k : nat) (it : DenseCellRangeIter) :
  populate tc (only_fragment i k it) 0 (length (only_fragment i k it)) []
  = push_current tc (only_fragment i k it) (Z.of_nat i) [].
Proof.
  unfold only_fragment at 2. rewrite length_app, length_replicate. cbn [length].
  rewrite length_replicate, populate_add. cbn [Nat.add].
  rewrite (populate_ended tc _ i 0).
  - cbn [populate]. apply populate_ended. intros x it' Hx.
    unfold only_fragment. rewrite lookup_app_r by (rewrite length_replicate; lia).
    rewrite length_replicate. destruct (x - i)%nat as [|d] eqn:Hd; [lia|].
    cbn. intros H. apply lookup_replicate in H as [H _]. exact H.
  - intros x it' Hx. unfold only_fragment.
    rewrite lookup_app_l by (rewrite length_replicate; lia).
    intros H. apply lookup_replicate in H as [H _]. exact H.
Qed.

Lemma winner_from_ended (k : nat) (j p : Z) : winner_from j (replicate k []) p = -1.
Proof.
  revert j. induction k as [|k IH]; intros j; [reflexivity|].
  cbn [replicate winner_from]. rewrite IH. reflexivity.
Qed.

Lemma winner_only_fragment (i k : nat) (it : DenseCellRangeIter) (p : Z) :
  winner (only_fragment i k it) p = if iter_covers it p then Z.of_nat i else -1.
Proof.
  unfold winner.
  enough (H : forall j, 0 <= j ->
            winner_from j (only_fragment i k it) p
            = if iter_covers it p then j + Z.of_nat i else -1)
    by (rewrite H by lia; reflexivity).
  unfold only_fragment. induction i as [|i IH]; intros j Hj.
  - cbn [replicate app winner_from]. rewrite winner_from_ended. cbn.
    rewrite Z.add_0_r. reflexivity.
  - cbn [replicate app winner_from]. rewrite IH by lia.
    destruct (iter_covers it p).
    + destruct (Z.leb_spec 0 (j + 1 + Z.of_nat i)); lia.
    + reflexivity.
Qed.

Lemma iter_sorted_after (it : DenseCellRangeIter) :
  forall s e p, iter_sorted ((s, e) :: it) = true -> p <= e -> iter_covers it p = false.
Proof.
  induction it as [|[s2 e2] it IH]; intros s e p Hs Hp; [reflexivity|].
  cbn [iter_sorted] in Hs. apply andb_true_iff in Hs as [Hs Hrest].
  apply andb_true_iff in Hs as [Hse Hlt]. apply Z.ltb_lt in Hlt.
  pose proof Hrest as Hrest'. cbn [iter_sorted] in Hrest'.
  apply andb_true_iff in Hrest' as [Hrest' _]. apply andb_true_iff in Hrest' as [Hse2 _].
  apply Z.leb_le in Hse2.
  unfold iter_covers. cbn [existsb fst snd].
  destruct (Z.leb_spec s2 p); [lia|]. cbn [andb orb].
  apply (IH s2 e2 p Hrest). lia.
Qed.

Lemma iter_sorted_tail (s e : Z) (it : DenseCellRangeIter) :
  iter_sorted ((s, e) :: it) = true -> s <= e /\ iter_sorted it = true.
Proof.
  cbn [iter_sorted]. intros H. apply andb_true_iff in H as [H Hrest].
  apply andb_true_iff in H as [Hse _]. apply Z.leb_le in Hse. auto.
Qed.

Lemma covers_exactly_bounds (out : list DenseCellRange) :
  forall s e, covers_exactly s e out = true ->
    Forall (fun r => s <= start_ r /\ end_ r <= e) out.
Proof.
  induction out as [|r out IH]; intros s e H; [constructor|].
  cbn [covers_exactly] in H. apply andb_true_iff in H as [H Hrest].
  apply andb_true_iff in H as [H He]. apply andb_true_iff in H as [Hs Hse].
  apply Z.eqb_eq in Hs. apply Z.leb_le in Hse, He.
  constructor; [lia|]. specialize (IH _ _ Hrest).
  eapply Forall_impl; [exact IH|]. cbn. intros x Hx. lia.
Qed.

Lemma covers_exactly_cons (r : DenseCellRange) (out : list DenseCellRange) (s e : Z) :
  start_ r = s -> s <= end_ r -> end_ r <= e ->
  covers_exactly (end_ r + 1) e out = true ->
  covers_exactly s e (r :: out) = true.
Proof.
  intros Hs Hse He H. cbn [covers_exactly]. rewrite H, Hs, Z.eqb_refl.
  destruct (Z.leb_spec s (end_ r)); [|lia].
  destruct (Z.leb_spec (end_ r) e); [|lia]. reflexivity.
Qed.

Lemma covers_exactly_nil (e : Z) : covers_exactly (e + 1) e [] = true.
Proof. cbn. apply Z.eqb_refl. Qed.

Lemma u64_in_range (z : Z) : 0 <= z < u64_mod -> u64 z = z.
Proof. intros H. unfold u64. apply Z.mod_small. exact H. Qed.

Lemma MIN_min (a b : Z) : MIN a b = Z.min a b.
Proof. unfold MIN. destruct (Z.ltb_spec a b); lia. Qed.

Lemma covers_exactly_app (l1 l2 : list DenseCellRange) (m e : Z) :
  forall s, m <= e ->
    covers_exactly s m l1 = true -> covers_exactly (m + 1) e l2 = true ->
    covers_exactly s e (l1 ++ l2) = true.
Proof.
  induction l1 as [|r l1 IH]; intros s Hme H1 H2.
  - cbn in H1. apply Z.eqb_eq in H1. subst s. exact H2.
  - cbn [covers_exactly] in H1. apply andb_true_iff in H1 as [H1 Hrest].
    apply andb_true_iff in H1 as [H1 He]. apply andb_true_iff in H1 as [Hs Hse].
    apply Z.eqb_eq in Hs. apply Z.leb_le in Hse, He.
    cbn [app]. apply covers_exactly_cons; try lia.
    apply IH; assumption.
Qed.

Lemma annotated_before (i : Z) (s1 e1 : Z) (rem : DenseCellRangeIter)
    (r : DenseCellRange) :
  iter_sorted ((s1, e1) :: rem) = true ->
  fragment_idx_ r = -1 -> end_ r < s1 ->
  annotated_by i ((s1, e1) :: rem) r.
Proof.
  intros Hsorted Hf He p Hp. rewrite Hf.
  apply iter_sorted_tail in Hsorted as Hs. destruct Hs as [Hse _].
  unfold iter_covers. cbn [existsb fst snd].
  destruct (Z.leb_spec s1 p); [lia|]. cbn [andb orb].
  change (existsb _ rem) with (iter_covers rem p).
  rewrite (iter_sorted_after rem s1 e1 p Hsorted) by lia. reflexivity.
Qed.

Lemma annotated_inside (i : Z) (s1 e1 : Z) (rem : DenseCellRangeIter)
    (r : DenseCellRange) :
  fragment_idx_ r = i -> s1 <= start_ r -> end_ r <= e1 ->
  annotated_by i ((s1, e1) :: rem) r.
Proof.
  intros Hf Hs He p Hp. rewrite Hf. unfold iter_covers. cbn [existsb fst snd].
  destruct (Z.leb_spec s1 p); [|lia]. destruct (Z.leb_spec p e1); [|lia]. reflexivity.
Qed.

Lemma annotated_later (i : Z) (s1 e1 : Z) (rem : DenseCellRangeIter)
    (r : DenseCellRange) :
  annotated_by i rem r -> e1 < start_ r ->
  annotated_by i ((s1, e1) :: rem) r.
Proof.
  intros H Hs p Hp. rewrite (H p Hp). unfold iter_covers. cbn [existsb fst snd].
  destruct (Z.leb_spec p e1); [lia|]. rewrite andb_false_r. reflexivity.
Qed.

Lemma merge_loop_single (tc : list Z) (i k : nat) (e : Z) (rem : DenseCellRangeIter) :
  e < u64_mod - 1 ->
  iter_sorted rem = true ->
  forall fuel start out, (length rem < fuel)%nat -> 0 <= start <= e ->
  exists s' out',
    merge_loop fuel tc e (mkMS (only_fragment i k rem)
        (push_current tc (only_fragment i k rem) (Z.of_nat i) []) start out) = Some s'
    /\ ms_out s' = out ++ out'
    /\ covers_exactly start e out' = true
    /\ Forall (annotated_by (Z.of_nat i) rem) out'.
Proof.
  intros He. induction rem as [|[s1 e1] rem IH]; intros Hsorted fuel start out Hfuel Hstart.
  - destruct fuel as [|fuel]; [cbn in Hfuel; lia|].
    rewrite push_current_only_fragment. cbn [merge_loop pq_top ms_pq].
    unfold finish. cbn [ms_start ms_its ms_pq ms_out].
    destruct (Z.leb_spec start e); [|lia].
    eexists _, [empty_range tc start e].
    split; [reflexivity|]. split; [reflexivity|]. split.
    + apply covers_exactly_cons; cbn; try lia; apply covers_exactly_nil.
    + constructor; [|constructor]. intros p Hp. reflexivity.
  - destruct fuel as [|fuel]; [cbn in Hfuel; lia|].
    apply iter_sorted_tail in Hsorted as Hs. destruct Hs as [Hse Hrest].
    rewrite push_current_only_fragment. cbn [merge_loop pq_top pq_best ms_pq].
    unfold merge_step. cbn [ms_pq ms_start ms_its ms_out fragment_idx_ start_ end_].
    rewrite pq_pop_singleton. unfold precedes_end, succeeds_start. cbn [end_ start_].
    destruct (Z.ltb_spec e1 start) as [Hprec|Hprec].
    + rewrite advance_only_fragment. cbn [tl].
      destruct (IH Hrest fuel start out ltac:(cbn in Hfuel; lia) Hstart)
        as (s' & out' & Hrun & Hout & Hcov & Hann).
      exists s', out'. repeat split; try assumption.
      pose proof (covers_exactly_bounds _ _ _ Hcov) as Hb.
      rewrite Forall_forall in *. intros r Hr.
      apply annotated_later; [apply Hann; exact Hr|]. specialize (Hb r Hr). lia.
    + destruct (Z.ltb_spec e s1) as [Hsucc|Hsucc].
      * eexists _, [empty_range tc start e].
        split; [reflexivity|]. split; [reflexivity|]. split.
        -- apply covers_exactly_cons; cbn; try lia; apply covers_exactly_nil.
        -- constructor; [|constructor].
           apply annotated_before; [exact Hsorted | reflexivity | cbn; lia].
      * set (padded := if start <? s1 then _ else _).
        assert (Hpad : exists pad, padded = (Z.max start s1, out ++ pad)
                  /\ covers_exactly start (Z.max start s1 - 1) pad = true
                  /\ Forall (annotated_by (Z.of_nat i) ((s1, e1) :: rem)) pad).
        { subst padded. destruct (Z.ltb_spec start s1) as [Hlt|Hge].
          - exists [empty_range tc start (s1 - 1)].
            rewrite (u64_in_range (s1 - 1)) by lia. rewrite MIN_min.
            replace (Z.min e (s1 - 1)) with (s1 - 1) by lia.
            rewrite u64_in_range by lia. replace (Z.max start s1) with s1 by lia.
            split; [f_equal; lia|]. split.
            + apply covers_exactly_cons; cbn; try lia; apply covers_exactly_nil.
            + constructor; [|constructor].
              apply annotated_before; [exact Hsorted | reflexivity | cbn; lia].
          - exists []. rewrite app_nil_r. replace (Z.max start s1) with start by lia.
            split; [reflexivity|]. split; [|constructor].
            cbn. apply Z.eqb_eq. lia. }
        destruct Hpad as (pad & -> & Hpadcov & Hpadann). cbn [fst snd].
        destruct (Z.ltb_spec e (Z.max start s1)) as [Hbad|_]; [lia|]. rewrite andb_false_r.
        cbn [length ignore_older pq_top]. rewrite MIN_min.
        rewrite (u64_in_range (Z.min e e1 + 1)) by lia.
        set (piece := mkDCR (Z.of_nat i) tc (Z.max start s1) (Z.min e e1)).
        assert (Hpiece : annotated_by (Z.of_nat i) ((s1, e1) :: rem) piece)
          by (apply annotated_inside; cbn; lia).
        destruct (Z.eqb_spec (Z.min e e1) e1) as [Hend|Hend].
        -- rewrite advance_only_fragment. cbn [tl].
           destruct (Z.ltb_spec e (Z.min e e1 + 1)) as [Hlast|Hmore].
           ++ unfold finish. cbn [ms_start ms_its ms_pq ms_out].
              destruct (Z.leb_spec (Z.min e e1 + 1) e); [lia|].
              eexists _, (pad ++ [piece]).
              split; [reflexivity|]. split; [cbn; rewrite <- app_assoc; reflexivity|]. split.
              ** apply (covers_exactly_app pad [piece] (Z.max start s1 - 1)); [lia | exact Hpadcov |].
                 apply covers_exactly_cons; cbn; lia.
              ** apply Forall_app. split; [exact Hpadann|]. constructor; [exact Hpiece|constructor].
           ++ destruct (IH Hrest fuel (Z.min e e1 + 1) ((out ++ pad) ++ [piece])
                          ltac:(cbn in Hfuel; lia) ltac:(lia))
                as (s' & out' & Hrun & Hout & Hcov & Hann).
              exists s', (pad ++ [piece] ++ out'). split; [exact Hrun|].
              split; [rewrite Hout, <- !app_assoc; reflexivity|]. split.
              ** apply (covers_exactly_app pad _ (Z.max start s1 - 1)); [lia | exact Hpadcov |].
                 cbn [app]. apply covers_exactly_cons; cbn; try lia. exact Hcov.
              ** apply Forall_app. split; [exact Hpadann|]. constructor; [exact Hpiece|].
                 pose proof (covers_exactly_bounds _ _ _ Hcov) as Hb.
                 rewrite Forall_forall in *. intros r Hr.
                 apply annotated_later; [apply Hann; exact Hr|]. specialize (Hb r Hr). lia.
        -- destruct (Z.ltb_spec e (Z.min e e1 + 1)) as [Hlast|Hmore]; [|lia].
           unfold finish. cbn [ms_start ms_its ms_pq ms_out].
           destruct (Z.leb_spec (Z.min e e1 + 1) e); [lia|].
           eexists _, (pad ++ [piece]).
           split; [reflexivity|]. split; [cbn; rewrite <- app_assoc; reflexivity|]. split.
           ++ apply (covers_exactly_app pad [piece] (Z.max start s1 - 1)); [lia | exact Hpadcov |].
              apply covers_exactly_cons; cbn; lia.
           ++ apply Forall_app. split; [exact Hpadann|]. constructor; [exact Hpiece|constructor].
Qed.

Lemma annotated_with_winner_only_fragment (i k : nat) (it : DenseCellRangeIter)
    (out : list DenseCellRange) :
  Forall (annotated_by (Z.of_nat i) it) out ->
  annotated_with_winner (only_fragment i k it) out = true.
Proof.
  intros H. unfold annotated_with_winner. apply forallb_forall. intros r Hr.
  apply list_elem_of_In in Hr. rewrite Forall_forall in H. specialize (H r Hr).
  apply forallb_forall. intros p Hp. apply list_elem_of_In, elem_of_seqZ in Hp.
  rewrite winner_only_fragment. apply Z.eqb_eq. apply H. lia.
Qed.

(** X18.  On a tile that one fragment alone intersects (the iterators of
    all other fragments, older or newer, are at their end) the merger is
    right: if the ranges of that fragment are sorted and disjoint and the
    window [start, end] is not empty, the call returns, the ranges it emits
    tile the window exactly once, and every cell carries the fragment where
    a range of the fragment covers it and [-1] elsewhere. *)
Theorem compute_dense_cell_ranges_single_fragment (tc : list Z) (i k : nat)
    (it : DenseCellRangeIter) (start e : Z) (fuel : nat) :
  iter_sorted it = true ->
  0 <= start <= e -> e < u64_mod - 1 ->
  (length it < fuel)%nat ->
  exists its' out,
    compute_dense_cell_ranges fuel tc (only_fragment i k it) start e = Some (its', out)
    /\ covers_exactly start e out = true
    /\ annotated_with_winner (only_fragment i k it) out = true.
Proof.
  intros Hsorted Hstart He Hfuel. unfold compute_dense_cell_ranges.
  rewrite populate_only_fragment.
  destruct (merge_loop_single tc i k e it He Hsorted fuel start [] Hfuel Hstart)
    as (s' & out' & Hrun & Hout & Hcov & Hann).
  rewrite Hrun. exists (ms_its s'), (ms_out s'). split; [reflexivity|].
  rewrite Hout. cbn [app]. split; [exact Hcov|].
  apply annotated_with_winner_only_fragment. exact Hann.
Qed.

Lemma compute_dense_cell_ranges_single_fragment_witness :
  compute_dense_cell_ranges 3 [0] (only_fragment 1 1 [(2, 3); (6, 12)]) 0 9
  = Some ([ []; [(6, 12)]; [] ],
          [ mkDCR (-1) [0] 0 1; mkDCR 1 [0] 2 3; mkDCR (-1) [0] 4 5; mkDCR 1 [0] 6 9 ])
  /\ exists its' out,
       compute_dense_cell_ranges 3 [0] (only_fragment 1 1 [(2, 3); (6, 12)]) 0 9
       = Some (its', out)
       /\ covers_exactly 0 9 out = true
       /\ annotated_with_winner (only_fragment 1 1 [(2, 3); (6, 12)]) out = true.
Proof.
  split; [vm_compute; reflexivity|].
  apply (compute_dense_cell_ranges_single_fragment [0] 1 1 [(2, 3); (6, 12)] 0 9 3).
  - reflexivity.
  - lia.
  - vm_compute; reflexivity.
  - cbn; lia.
Defined.

End SingleFragmentFacts.

(** ** The deduplication on a vector without duplicates *)

Module DedupUnchangedFacts.
Import Dedup.
Import DedupFacts.
Local Open Scope nat_scope.

Section NoDuplicates.

Variable csz : nat.
Variable v : list OverlappingCoords.

(** No valid entry has the tuple of the next valid entry. *)
Hypothesis neighbours_differ : forall i j a b,
  i < j -> v !! i = Some a -> v !! j = Some b ->
  valid_ a = true -> valid_ b = true ->
  (forall m c, i < m < j -> v !! m = Some c -> valid_ c = false) ->
  key csz a <> key csz b.

Lemma dedup_loop_unchanged (fuel : nat) :
  forall it,
    (forall c, v !! it = Some c -> valid_ c = true) ->
    nvalid (drop it v) < fuel ->
    dedup_loop fuel csz v it = Some v.
Proof.
  induction fuel as [|fuel IH]; intros it Hcur Hm; [lia|].
  simpl. destruct (v !! it) as [c|] eqn:Hc; [|reflexivity].
  pose proof (Hcur c eq_refl) as Hvc.
  pose proof (nvalid_drop_S v it c Hc) as Hd. rewrite Hvc in Hd.
  pose proof (lookup_lt_Some _ _ _ Hc) as Hlt.
  destruct (skip_bounds v (S it) Hlt) as [Hb1 Hb2].
  pose proof (nvalid_drop_mono v (S it) (skip_invalid_elements v (S it)) Hb1) as Hmono.
  assert (Hnext : dedup_loop fuel csz v (skip_invalid_elements v (S it)) = Some v).
  { apply IH; [|lia]. intros n Hn. exact (skip_at v (S it) n Hn). }
  destruct (v !! skip_invalid_elements v (S it)) as [n|] eqn:Hn; [|exact Hnext].
  unfold same_coords. rewrite bool_decide_eq_false_2; [exact Hnext|].
  apply (neighbours_differ it (skip_invalid_elements v (S it)) c n);
    [lia | exact Hc | exact Hn | exact Hvc | exact (skip_at v (S it) n Hn) |].
  intros m d Hmb Hd'.
  destruct (skip_between v (S it) m) as (d' & Hd'' & Hvd); [lia | lia |].
  rewrite Hd' in Hd''. injection Hd'' as <-. exact Hvd.
Qed.

(** X19.  [dedup_coords] leaves a vector alone in which no valid entry
    has the coordinate tuple of the next valid entry: it returns, and no
    entry is invalidated.  The vector need not be sorted. *)
Theorem dedup_coords_no_duplicates :
  dedup_coords (S (length v)) csz v = Some v.
Proof.
  unfold dedup_coords. apply dedup_loop_unchanged.
  - intros c Hc. exact (skip_at v 0 c Hc).
  - pose proof (nvalid_le (drop (skip_invalid_elements v 0) v)) as H.
    rewrite length_drop in H. lia.
Qed.

End NoDuplicates.

Lemma dedup_coords_no_duplicates_witness :
  dedup_coords 4 2
    [ mkOC (mkOT 0 0 true ∅) [1; 1]%Z 0 true;
      mkOC (mkOT 1 0 true ∅) [1; 1]%Z 0 false;
      mkOC (mkOT 0 0 true ∅) [2; 2]%Z 1 true ]
  = Some [ mkOC (mkOT 0 0 true ∅) [1; 1]%Z 0 true;
           mkOC (mkOT 1 0 true ∅) [1; 1]%Z 0 false;
           mkOC (mkOT 0 0 true ∅) [2; 2]%Z 1 true ].
Proof.
  apply (dedup_coords_no_duplicates 2).
  intros i j a b Hij Ha Hb Hva Hvb _.
  destruct i as [|[|[|i]]]; cbn in Ha; try discriminate;
    injection Ha as <-; try discriminate;
    destruct j as [|[|[|j]]]; cbn in Hb; try discriminate; try lia;
    injection Hb as <-; try discriminate; cbn; discriminate.
Defined.

End DedupUnchangedFacts.

(** ** The content of the coordinates buffer *)

Module CoordsContentFacts.
Import ReaderModel.
Import ReaderFacts.
Import CopyFacts.
Import CoordsContent.

Lemma length_le_bytes (n : nat) (z : Z) : length (le_bytes n z) = n.
Proof. revert z. induction n as [|n IH]; intros z; cbn; [reflexivity|]. rewrite IH. reflexivity. Qed.

Lemma coords_bytes_app (sz : Z) (a b : list Z) :
  coords_bytes sz (a ++ b) = coords_bytes sz a ++ coords_bytes sz b.
Proof. unfold coords_bytes. rewrite map_app, concat_app. reflexivity. Qed.

Lemma length_coords_bytes (sz : Z) (cs : list Z) :
  0 <= sz -> Z.of_nat (length (coords_bytes sz cs)) = Z.of_nat (length cs) * sz.
Proof.
  intros Hsz. unfold coords_bytes. induction cs as [|c cs IH]; [reflexivity|].
  cbn [map concat length]. rewrite length_app, length_le_bytes. lia.
Qed.

Lemma take_coords_bytes (sz : Z) (k : nat) (cs : list Z) :
  0 <= sz -> (k <= length cs)%nat ->
  take (Z.to_nat (Z.of_nat k * sz)) (coords_bytes sz cs) = coords_bytes sz (take k cs).
Proof.
  intros Hsz Hk. rewrite <- (take_drop k cs) at 1. rewrite coords_bytes_app.
  apply take_app_length'. apply Nat2Z.inj. rewrite length_coords_bytes by exact Hsz.
  rewrite length_take_le by exact Hk. lia.
Qed.

Lemma fill_coords_row_slab_at (dim sz : Z) (start : list Z) (b : loc) (num : nat) :
  1 <= dim -> 0 < sz -> Z.of_nat (length start) = dim ->
  forall i m off pre rest,
    bytes m !! b = Some (pre ++ rest) -> Z.of_nat (length pre) = off ->
    Z.of_nat num * (dim * sz) <= Z.of_nat (length rest) ->
    off + Z.of_nat num * (dim * sz) < u64_mod ->
    snd (fill_coords_row_slab dim sz start i num m b off) = off + Z.of_nat num * (dim * sz)
    /\ bytes (fst (fill_coords_row_slab dim sz start i num m b off)) !! b
       = Some ((pre ++ concat (map (coords_bytes sz)
                 (map (fun j => take (Z.to_nat (dim - 1)) start
                                ++ [default 0 (start !! Z.to_nat (dim - 1)) + j])
                      (seqZ i (Z.of_nat num)))))
               ++ drop (Z.to_nat (Z.of_nat num * (dim * sz))) rest)
    /\ (forall b', b' <> b ->
          bytes (fst (fill_coords_row_slab dim sz start i num m b off)) !! b' = bytes m !! b')
    /\ sizes (fst (fill_coords_row_slab dim sz start i num m b off)) = sizes m.
Proof.
  intros Hdim Hsz Hlen. induction num as [|num IH]; intros i m off pre rest Hb Hoff Hrest Hsmall.
  - cbn. rewrite app_nil_r, drop_0. repeat split; [lia | exact Hb].
  - cbn [fill_coords_row_slab].
    set (head := coords_bytes sz (take (Z.to_nat (dim - 1)) start)).
    assert (Hhead_len : Z.of_nat (length head) = (dim - 1) * sz).
    { subst head. rewrite length_coords_bytes, length_take_le by lia.
      rewrite Z2Nat.id by lia. reflexivity. }
    assert (Hfirst : exists m1,
      (if 1 <? dim
       then (memcpy m b off (coords_bytes sz start) ((dim - 1) * sz),
             u64 (off + (dim - 1) * sz))
       else (m, off)) = (m1, off + (dim - 1) * sz)
      /\ bytes m1 !! b = Some ((pre ++ head) ++ drop (Z.to_nat ((dim - 1) * sz)) rest)
      /\ (forall b', b' <> b -> bytes m1 !! b' = bytes m !! b')
      /\ sizes m1 = sizes m).
    { destruct (Z.ltb_spec 1 dim) as [Hd|Hd].
      - eexists. split; [rewrite u64_small by nia; reflexivity|].
        destruct (memcpy_at m b off (coords_bytes sz start) ((dim - 1) * sz) pre rest Hb Hoff)
          as (H1 & H2 & H3); [nia | rewrite length_coords_bytes by lia; nia | nia |].
        split; [|split; assumption]. rewrite H1. subst head.
        replace ((dim - 1) * sz) with (Z.of_nat (Z.to_nat (dim - 1)) * sz) at 1 by lia.
        rewrite take_coords_bytes by lia. reflexivity.
      - exists m. assert (Hd1 : dim - 1 = 0) by lia. subst head. rewrite Hd1.
        cbn. rewrite app_nil_r, drop_0, Z.add_0_r. auto. }
    destruct Hfirst as (m1 & -> & Hb1 & Ho1 & Hs1).
    set (c := le_bytes (Z.to_nat sz) (default 0 (start !! Z.to_nat (dim - 1)) + i)).
    assert (Hc : Z.of_nat (length c) = sz) by (subst c; rewrite length_le_bytes; lia).
    destruct (memcpy_at m1 b (off + (dim - 1) * sz) c sz (pre ++ head)
                (drop (Z.to_nat ((dim - 1) * sz)) rest) Hb1)
      as (Hb2 & Ho2 & Hs2);
      [rewrite length_app; lia | lia | lia | rewrite length_drop; nia |].
    rewrite (u64_small (off + (dim - 1) * sz + sz)) by nia.
    rewrite take_ge in Hb2 by lia.
    destruct (IH (i + 1) (memcpy m1 b (off + (dim - 1) * sz) c sz)
                (off + (dim - 1) * sz + sz) ((pre ++ head) ++ c)
                (drop (Z.to_nat sz) (drop (Z.to_nat ((dim - 1) * sz)) rest)) Hb2)
      as (R1 & R2 & R3 & R4);
      [rewrite !length_app; lia | rewrite !length_drop; nia | nia |].
    rewrite R1, R2, R4. split; [lia|]. split; [|split].
    + f_equal. rewrite (seqZ_cons i) by lia.
      replace (Z.pred (Z.of_nat (S num))) with (Z.of_nat num) by lia.
      replace (Z.succ i) with (i + 1) by lia.
      cbn [map concat]. rewrite coords_bytes_app. fold head.
      unfold coords_bytes at 2. cbn [map concat]. rewrite app_nil_r. fold c.
      rewrite !drop_drop, <- !app_assoc. repeat f_equal. nia.
    + intros b' Hne. rewrite R3, Ho2, Ho1 by exact Hne. reflexivity.
    + rewrite Hs2. exact Hs1.
Qed.

Lemma fill_coords_col_slab_at (dim sz : Z) (start : list Z) (b : loc) (num : nat) :
  1 <= dim -> 0 < sz -> Z.of_nat (length start) = dim ->
  forall i m off pre rest,
    bytes m !! b = Some (pre ++ rest) -> Z.of_nat (length pre) = off ->
    Z.of_nat num * (dim * sz) <= Z.of_nat (length rest) ->
    off + Z.of_nat num * (dim * sz) < u64_mod ->
    snd (fill_coords_col_slab dim sz start i num m b off) = off + Z.of_nat num * (dim * sz)
    /\ bytes (fst (fill_coords_col_slab dim sz start i num m b off)) !! b
       = Some ((pre ++ concat (map (coords_bytes sz)
                 (map (fun j => (default 0 (start !! O) + j) :: tl start)
                      (seqZ i (Z.of_nat num)))))
               ++ drop (Z.to_nat (Z.of_nat num * (dim * sz))) rest)
    /\ (forall b', b' <> b ->
          bytes (fst (fill_coords_col_slab dim sz start i num m b off)) !! b' = bytes m !! b')
    /\ sizes (fst (fill_coords_col_slab dim sz start i num m b off)) = sizes m.
Proof.
  intros Hdim Hsz Hlen. induction num as [|num IH]; intros i m off pre rest Hb Hoff Hrest Hsmall.
  - cbn. rewrite app_nil_r, drop_0. repeat split; [lia | exact Hb].
  - cbn [fill_coords_col_slab].
    set (c := le_bytes (Z.to_nat sz) (default 0 (start !! O) + i)).
    assert (Hc : Z.of_nat (length c) = sz) by (subst c; rewrite length_le_bytes; lia).
    set (rest_dims := coords_bytes sz (tl start)).
    assert (Htl : Z.of_nat (length (tl start)) = dim - 1)
      by (destruct start; cbn [length tl] in *; lia).
    assert (Hrd : Z.of_nat (length rest_dims) = (dim - 1) * sz)
      by (subst rest_dims; rewrite length_coords_bytes by lia; rewrite Htl; reflexivity).
    destruct (memcpy_at m b off c sz pre rest Hb Hoff) as (Hb1 & Ho1 & Hs1); [lia | lia | nia |].
    rewrite take_ge in Hb1 by lia.
    rewrite (u64_small (off + sz)) by nia.
    set (m1 := memcpy m b off c sz) in *.
    assert (Hsecond : exists m2,
      (if 1 <? dim
       then (memcpy m1 b (off + sz) rest_dims ((dim - 1) * sz),
             u64 (off + sz + (dim - 1) * sz))
       else (m1, off + sz)) = (m2, off + sz + (dim - 1) * sz)
      /\ bytes m2 !! b
         = Some (((pre ++ c) ++ rest_dims)
                 ++ drop (Z.to_nat ((dim - 1) * sz)) (drop (Z.to_nat sz) rest))
      /\ (forall b', b' <> b -> bytes m2 !! b' = bytes m1 !! b')
      /\ sizes m2 = sizes m1).
    { destruct (Z.ltb_spec 1 dim) as [Hd|Hd].
      - eexists. split; [rewrite u64_small by nia; reflexivity|].
        destruct (memcpy_at m1 b (off + sz) rest_dims ((dim - 1) * sz) (pre ++ c)
                    (drop (Z.to_nat sz) rest) Hb1)
          as (H1 & H2 & H3);
          [rewrite length_app; lia | nia | lia | rewrite length_drop; nia |].
        rewrite take_ge in H1 by lia. auto.
      - exists m1. assert (Hd1 : dim - 1 = 0) by lia.
        assert (Hnil : rest_dims = []) by (apply nil_length_inv; lia).
        rewrite Hnil, Hd1. cbn. rewrite !app_nil_r, drop_0, Z.add_0_r. auto. }
    destruct Hsecond as (m2 & -> & Hb2 & Ho2 & Hs2).
    destruct (IH (i + 1) m2 (off + sz + (dim - 1) * sz) ((pre ++ c) ++ rest_dims)
                (drop (Z.to_nat ((dim - 1) * sz)) (drop (Z.to_nat sz) rest)) Hb2)
      as (R1 & R2 & R3 & R4);
      [rewrite !length_app; lia | rewrite !length_drop; nia | nia |].
    rewrite R1, R2, R4. split; [lia|]. split; [|split].
    + f_equal. rewrite (seqZ_cons i) by lia.
      replace (Z.pred (Z.of_nat (S num))) with (Z.of_nat num) by lia.
      replace (Z.succ i) with (i + 1) by lia.
      cbn [map concat]. unfold coords_bytes at 2. cbn [map concat].
      fold (coords_bytes sz (tl start)). fold rest_dims. fold c.
      rewrite !drop_drop, <- !app_assoc. repeat f_equal. nia.
    + intros b' Hne. rewrite R3, Ho2, Ho1 by exact Hne. reflexivity.
    + rewrite Hs2. exact Hs1.
Qed.

Lemma coords_total_nonneg (schema : ArraySchema) (slabs : list Slab) :
  1 <= schema_dim_num schema -> Forall (slab_ok schema) slabs ->
  0 <= coords_total schema slabs.
Proof.
  intros Hdim H. unfold coords_total, coords_size.
  pose proof (datatype_size_pos (schema_coords_type schema)) as Hsz.
  unfold sumZ. induction H as [|s slabs (_ & Hs & _) _ IH]; cbn [map foldr]; [lia|].
  unfold slab_cells_num at 1. nia.
Qed.

Lemma length_tuples_bytes (sz dim : Z) (ts : list (list Z)) :
  0 <= sz -> Forall (fun t => Z.of_nat (length t) = dim) ts ->
  Z.of_nat (length (concat (map (coords_bytes sz) ts))) = Z.of_nat (length ts) * (dim * sz).
Proof.
  intros Hsz H. induction H as [|t ts Ht _ IH]; [reflexivity|].
  cbn [map concat length]. rewrite length_app, Nat2Z.inj_add, IH.
  rewrite length_coords_bytes by exact Hsz. rewrite Ht. lia.
Qed.

Lemma length_row_slab_bytes (sz dim num : Z) (start : list Z) :
  0 <= sz -> 1 <= dim -> 0 <= num -> Z.of_nat (length start) = dim ->
  Z.of_nat (length (concat (map (coords_bytes sz) (row_slab_coords dim start num))))
  = num * (dim * sz).
Proof.
  intros Hsz Hdim Hnum Hlen. rewrite (length_tuples_bytes sz dim) by
    (try exact Hsz; unfold row_slab_coords; apply Forall_map, Forall_forall; intros j _;
     cbn; rewrite length_app, length_take_le by lia; cbn [length]; lia).
  unfold row_slab_coords. rewrite length_map, length_seqZ. lia.
Qed.

Lemma length_col_slab_bytes (sz dim num : Z) (start : list Z) :
  0 <= sz -> 1 <= dim -> 0 <= num -> Z.of_nat (length start) = dim ->
  Z.of_nat (length (concat (map (coords_bytes sz) (col_slab_coords start num))))
  = num * (dim * sz).
Proof.
  intros Hsz Hdim Hnum Hlen. rewrite (length_tuples_bytes sz dim) by
    (try exact Hsz; unfold col_slab_coords; apply Forall_map, Forall_forall; intros j _;
     destruct start; cbn [length tl] in *; lia).
  unfold col_slab_coords. rewrite length_map, length_seqZ. lia.
Qed.

Lemma fill_coords_slabs_at (schema : ArraySchema) (layout : Layout) (b : loc)
    (size : Z) (slabs : list Slab) :
  let sz := datatype_size (schema_coords_type schema) in
  1 <= schema_dim_num schema -> Forall (slab_ok schema) slabs ->
  forall m off pre rest,
    bytes m !! b = Some (pre ++ rest) -> Z.of_nat (length pre) = off ->
    coords_total schema slabs <= Z.of_nat (length rest) ->
    off + coords_total schema slabs <= size ->
    off + coords_total schema slabs < u64_mod ->
    exists m',
      fill_coords_slabs schema layout b size slabs m off
      = (m', off + coords_total schema slabs, false)
      /\ bytes m' !! b
         = Some ((pre ++ concat (map (coords_bytes sz)
                                     (concat (map (slab_coords schema layout) slabs))))
                 ++ drop (Z.to_nat (coords_total schema slabs)) rest)
      /\ (forall b', b' <> b -> bytes m' !! b' = bytes m !! b')
      /\ sizes m' = sizes m.
Proof.
  intros sz Hdim Hall.
  pose proof (datatype_size_pos (schema_coords_type schema)) as Hsz. fold sz in Hsz.
  induction Hall as [|s slabs Hs Hall IH]; intros m off pre rest Hb Hoff Hrest Hcap Hsmall.
  - exists m. cbn. rewrite app_nil_r, drop_0, Z.add_0_r. auto.
  - pose proof (coords_total_nonneg schema slabs Hdim Hall) as Hnn.
    destruct Hs as (Hlen & Hrange & Hend).
    assert (Htot : coords_total schema (s :: slabs)
                   = slab_cells_num s * (schema_dim_num schema * sz)
                     + coords_total schema slabs) by reflexivity.
    rewrite Htot in *.
    assert (Hnum : 0 < slab_cells_num s) by (unfold slab_cells_num; lia).
    cbn [fill_coords_slabs].
    rewrite (u64_small (slab_range_end s - slab_range_start s)) by lia.
    rewrite (u64_small (slab_range_end s - slab_range_start s + 1)) by lia.
    fold (slab_cells_num s). unfold coords_size. fold sz.
    rewrite (u64_small (slab_cells_num s * (schema_dim_num schema * sz))) by nia.
    rewrite (u64_small (slab_cells_num s * (schema_dim_num schema * sz) + off)) by nia.
    destruct (Z.ltb_spec size (slab_cells_num s * (schema_dim_num schema * sz) + off));
      [nia|].
    fold (row_major_walk schema layout).
    destruct (row_major_walk schema layout) eqn:Hwalk.
    + destruct (fill_coords_row_slab_at (schema_dim_num schema) sz (slab_coords_start s) b
                  (Z.to_nat (slab_cells_num s)) Hdim Hsz Hlen 0 m off pre rest Hb Hoff)
        as (R1 & R2 & R3 & R4); [rewrite Z2Nat.id by lia; nia | rewrite Z2Nat.id by lia; nia|].
      rewrite Z2Nat.id in R1, R2 by lia.
      fold (row_slab_coords (schema_dim_num schema) (slab_coords_start s) (slab_cells_num s))
        in R2.
      destruct (fill_coords_row_slab _ _ _ _ _ _ _ _) as [m1 off1]. cbn [fst snd] in *.
      subst off1.
      destruct (IH m1 (off + slab_cells_num s * (schema_dim_num schema * sz)) _ _ R2)
        as (m' & Hrun & Hb' & Ho' & Hs');
        [rewrite length_app, Nat2Z.inj_add, length_row_slab_bytes by lia; lia
        | rewrite length_drop; nia | lia | lia |].
      exists m'. rewrite Hrun. split; [do 2 f_equal; lia|]. split; [|split].
      * rewrite Hb'. f_equal. cbn [map concat]. rewrite map_app, concat_app.
        unfold slab_coords at 2. rewrite Hwalk.
        rewrite drop_drop, <- !app_assoc. repeat f_equal. nia.
      * intros b' Hne. rewrite Ho', R3 by exact Hne. reflexivity.
      * rewrite Hs'. exact R4.
    + destruct (fill_coords_col_slab_at (schema_dim_num schema) sz (slab_coords_start s) b
                  (Z.to_nat (slab_cells_num s)) Hdim Hsz Hlen 0 m off pre rest Hb Hoff)
        as (R1 & R2 & R3 & R4); [rewrite Z2Nat.id by lia; nia | rewrite Z2Nat.id by lia; nia|].
      rewrite Z2Nat.id in R1, R2 by lia.
      fold (col_slab_coords (slab_coords_start s) (slab_cells_num s)) in R2.
      destruct (fill_coords_col_slab _ _ _ _ _ _ _ _) as [m1 off1]. cbn [fst snd] in *.
      subst off1.
      destruct (IH m1 (off + slab_cells_num s * (schema_dim_num schema * sz)) _ _ R2)
        as (m' & Hrun & Hb' & Ho' & Hs');
        [rewrite length_app, Nat2Z.inj_add,
           (length_col_slab_bytes sz (schema_dim_num schema)) by lia; lia
        | rewrite length_drop; nia | lia | lia |].
      exists m'. rewrite Hrun. split; [do 2 f_equal; lia|]. split; [|split].
      * rewrite Hb'. f_equal. cbn [map concat]. rewrite map_app, concat_app.
        unfold slab_coords at 2. rewrite Hwalk.
        rewrite drop_drop, <- !app_assoc. repeat f_equal. nia.
      * intros b' Hne. rewrite Ho', R3 by exact Hne. reflexivity.
      * rewrite Hs'. exact R4.
Qed.

(** X20.  [fill_coords] delivers the coordinates of the cells of the
    partition.  If the cell slabs of the partition fit the size declared
    for the coordinates buffer, the buffer is at least that large and no
    cancellation is in progress, the call returns [Ok] without overflow:
    the buffer starts with the coordinate tuples of the cells of the slabs,
    slab after slab, in each slab the last coordinate running for a
    row-major walk and the first for a column-major walk; the bytes after
    them are untouched, the size object holds the number of bytes of the
    tuples, and no other buffer or size object changes. *)
Theorem fill_coords_content (E : Env) (r : Reader) (schema : ArraySchema)
    (ab : AttributeBuffer) (b p : loc) (subarray : Subarray) (slabs : list Slab)
    (old : list Z) :
  let sz := datatype_size (schema_coords_type schema) in
  let cells := concat (map (slab_coords schema (layout_ r)) slabs) in
  array_schema_ r = Some schema -> attr_buffers_ r !! coords = Some ab ->
  buffer_ ab = Some b -> buffer_size_ ab = Some p ->
  cur_subarray_partition_ (read_state_ r) = Some subarray ->
  env_dense_slabs E (layout_ r) subarray = (Ok, slabs) ->
  head (cancel_ r) <> Some true ->
  1 <= schema_dim_num schema -> Forall (slab_ok schema) slabs ->
  bytes (mem_ r) !! b = Some old ->
  coords_total schema slabs <= load (mem_ r) p ->
  load (mem_ r) p <= Z.of_nat (length old) -> load (mem_ r) p < u64_mod ->
  exists r',
    fill_coords E r = Ret (Ok, r')
    /\ bytes (mem_ r') !! b
       = Some (concat (map (coords_bytes sz) cells)
               ++ drop (Z.to_nat (coords_total schema slabs)) old)
    /\ load (mem_ r') p = coords_total schema slabs
    /\ (forall b', b' <> b -> bytes (mem_ r') !! b' = bytes (mem_ r) !! b')
    /\ (forall q, q <> p -> load (mem_ r') q = load (mem_ r) q)
    /\ read_state_ r' = read_state_ r.
Proof.
  intros sz cells Hs Hab Hbuf Hsz Hcur Hslabs Hcancel Hdim Hall Hold Htot Hcap Hsmall.
  destruct (fill_coords_slabs_at schema (layout_ r) b (load (mem_ r) p) slabs Hdim Hall
              (mem_ r) 0 [] old Hold eq_refl) as (m' & Hrun & Hb & Ho & Hsizes);
    [lia | lia | lia |].
  fold sz cells in Hb. rewrite Z.add_0_l in Hrun. cbn [app] in Hb.
  assert (Hresult : forall r1, layout_ r1 = layout_ r -> mem_ r1 = mem_ r ->
            read_state_ r1 = read_state_ r ->
            exists r',
              (let '(m, coords_buff_offset, overflow) :=
                 fill_coords_slabs schema (layout_ r1) b (load (mem_ r) p)
                   (snd (env_dense_slabs E (layout_ r1) subarray)) (mem_ r1) 0 in
               if overflow
               then Ret (Ok, with_read_state (with_mem r1 m)
                               (rs_set_overflowed (read_state_ r1) true))
               else Ret (Ok, with_mem r1 (store m p coords_buff_offset)))
              = Ret (Ok, r')
              /\ bytes (mem_ r') !! b
                 = Some (concat (map (coords_bytes sz) cells)
                         ++ drop (Z.to_nat (coords_total schema slabs)) old)
              /\ load (mem_ r') p = coords_total schema slabs
              /\ (forall b', b' <> b -> bytes (mem_ r') !! b' = bytes (mem_ r) !! b')
              /\ (forall q, q <> p -> load (mem_ r') q = load (mem_ r) q)
              /\ read_state_ r' = read_state_ r).
  { intros r1 Hl Hm Hrs. rewrite Hl, Hm, Hslabs. cbn [snd]. rewrite Hrun.
    eexists. split; [reflexivity|]. cbn [mem_ with_mem bytes store read_state_].
    split; [exact Hb|]. split; [rewrite load_store, decide_True by reflexivity; reflexivity|].
    split; [exact Ho|]. split; [|exact Hrs].
    intros q Hq. rewrite load_store, decide_False by congruence.
    unfold load. rewrite Hsizes. reflexivity. }
  unfold fill_coords. rewrite Hab, Hs, Hcur, Hbuf, Hsz, Hslabs.
  unfold RETURN_CANCEL_OR_ERROR. cbn [fst mbind Run_bind bind ok].
  destruct (cancel_ r) as [|[|] rest] eqn:Hc.
  - apply Hresult; reflexivity.
  - exfalso. apply Hcancel. reflexivity.
  - apply Hresult; reflexivity.
Qed.

Lemma fill_coords_content_witness :
  exists r',
    fill_coords ex_env_2d (ex_coords_reader 40) = Ret (Ok, r')
    /\ bytes (mem_ r') !! 1%positive
       = Some ([1; 0; 0; 0; 2; 0; 0; 0] ++ [1; 0; 0; 0; 3; 0; 0; 0]
               ++ [2; 0; 0; 0; 2; 0; 0; 0] ++ [2; 0; 0; 0; 3; 0; 0; 0]
               ++ replicate 8 0)
    /\ load (mem_ r') 2%positive = 32.
Proof.
  destruct (fill_coords_content ex_env_2d (ex_coords_reader 40) ex_schema_2d
              (mkBuf (Some 1%positive) None (Some 2%positive) None 40 0)
              1%positive 2%positive [1; 2; 2; 3]
              [mkSlab [1; 2] 6 7; mkSlab [2; 2] 10 11] (replicate 40 0))
    as (r' & Hrun & Hb & Hl & _).
  - reflexivity.
  - reflexivity.
  - reflexivity.
  - reflexivity.
  - reflexivity.
  - reflexivity.
  - discriminate.
  - cbn; lia.
  - repeat constructor; cbn; lia.
  - reflexivity.
  - vm_compute. discriminate.
  - vm_compute. discriminate.
  - vm_compute. reflexivity.
  - exists r'. split; [exact Hrun|]. split; [|exact Hl].
    etransitivity; [exact Hb | vm_compute; reflexivity].
Defined.

End CoordsContentFacts.

(** ** Facts on [handle_coords_in_dense_cell_range] *)

Module DenseCoordsFacts.
Import Dedup.
Import DedupFacts.
Import ReaderModel.
Import DenseCoords.
Import CopyFacts.

Lemma filter_take_skip (l : list OverlappingCoords) :
  forall n, (skip_count l <= n)%nat ->
    filter (fun c => valid_ c = true) (take n l)
    = filter (fun c => valid_ c = true) (take (n - skip_count l) (drop (skip_count l) l)).
Proof.
  induction l as [|c l IH]; intros n Hn.
  - cbn. rewrite !take_nil. reflexivity.
  - cbn [skip_count] in *. destruct (valid_ c) eqn:Hv.
    + rewrite Nat.sub_0_r, drop_0. reflexivity.
    + destruct n as [|n]; [lia|]. cbn [take drop Nat.sub].
      rewrite filter_cons_False by congruence. apply IH. lia.
Qed.

Lemma passed_nil (coords : list OverlappingCoords) (it : nat) : passed coords it it = [].
Proof. unfold passed. rewrite Nat.sub_diag. reflexivity. Qed.

Lemma passed_cons (coords : list OverlappingCoords) (it it' : nat) (x : OverlappingCoords) :
  coords !! it = Some x -> valid_ x = true ->
  (skip_invalid_elements coords (S it) <= it')%nat ->
  passed coords it it' = x :: passed coords (skip_invalid_elements coords (S it)) it'.
Proof.
  intros Hx Hv Hle. unfold passed, skip_invalid_elements in *.
  rewrite (drop_S _ _ _ Hx). replace (it' - it)%nat with (S (it' - S it)) by lia.
  cbn [take]. rewrite filter_cons_True by exact Hv. f_equal.
  rewrite (filter_take_skip (drop (S it) coords)) by lia.
  rewrite drop_drop. f_equal. f_equal. lia.
Qed.

Section Domain.

Variable get_tile_coords : list Z -> list Z.
Variable get_cell_pos : list Z -> Status * Z.

Lemma advance_coords_ok (coords : list OverlappingCoords) (c c' : Cursor) :
  advance_coords get_tile_coords get_cell_pos coords c = (Ok, c') ->
  cursor_ok get_tile_coords get_cell_pos coords c'
  /\ coords_it c' = skip_invalid_elements coords (S (coords_it c)).
Proof.
  unfold advance_coords.
  set (it := skip_invalid_elements coords (S (coords_it c))).
  destruct (coords !! it) as [x|] eqn:Hx.
  - destruct (get_cell_pos (coords_ x)) as [st pos] eqn:Hpos.
    destruct st as [|code msg]; cbn [ok]; [|discriminate].
    intros [= <-]. cbn [coords_it]. split; [|reflexivity].
    intros x' Hx'. cbn [coords_it coords_pos coords_fidx coords_tile_coords] in *.
    rewrite Hx in Hx'. injection Hx' as <-.
    repeat split; [exact (skip_at coords _ x Hx) | exact Hpos].
  - intros [= <-]. cbn [coords_it]. split; [|reflexivity].
    intros x' Hx'. cbn [coords_it] in Hx'. rewrite Hx in Hx'. discriminate.
Qed.

Lemma advance_coords_failed (coords : list OverlappingCoords) (c c' : Cursor)
    (code : StatusCode) (msg : string) :
  advance_coords get_tile_coords get_cell_pos coords c = (Err code msg, c') ->
  exists y, coords !! skip_invalid_elements coords (S (coords_it c)) = Some y
            /\ valid_ y = true
            /\ fst (get_cell_pos (coords_ y)) = Err code msg.
Proof.
  unfold advance_coords.
  set (it := skip_invalid_elements coords (S (coords_it c))).
  destruct (coords !! it) as [x|] eqn:Hx; [|discriminate].
  destruct (get_cell_pos (coords_ x)) as [st pos] eqn:Hpos.
  destruct st as [|code' msg']; cbn [ok]; [discriminate|].
  intros [= Hcode Hmsg _]. subst code' msg'. exists x. split; [reflexivity|].
  split; [exact (skip_at coords _ x Hx) | rewrite Hpos; reflexivity].
Qed.

Lemma split_bounds (cur_tile : option OverlappingTile) (csz : nat) (ctc : list Z)
    (e s s' : Z) (xs : list OverlappingCoords) (pieces : list CellRange) :
  split get_tile_coords get_cell_pos cur_tile csz ctc e s xs pieces s' ->
  s <= s' /\ s' <= Z.max s (e + 1).
Proof. induction 1; lia. Qed.

(** X21.  [handle_coords_in_dense_cell_range] splits the dense range
    around the sparse coordinates that lie in it.  If what the caller keeps
    for the coordinate at the iterator is what the domain says of it, the
    call returns.  The valid coordinates the iterator has passed all lie in
    what was left of the range of the dense tile when they were reached;
    those of a fragment older than the tile of the range are dropped, and
    each of the others cuts the range: the ranges appended are, coordinate
    after coordinate, the stretch of the dense range in front of it, if
    any, and its unary range.  The iterator stops at the first valid
    coordinate that does not lie in what is left of the range, or at the
    end; what is kept for that coordinate is again what the domain says,
    and the new [start] is where what is left of the range begins.  After
    an error, which is that of the domain for the next valid coordinate,
    the ranges appended are those of the coordinates passed so far. *)
Theorem handle_coords_in_dense_cell_range_splits (fuel : nat)
    (cur_tile : option OverlappingTile) (cur_tile_coords : list Z) (e : Z)
    (coords_size : nat) (coords : list OverlappingCoords) :
  e < u64_mod - 1 ->
  forall (start : Z) (c : Cursor) (out : list CellRange),
    cursor_ok get_tile_coords get_cell_pos coords c ->
    0 <= start ->
    (length coords - coords_it c < fuel)%nat ->
    exists res,
      handle_coords_in_dense_cell_range get_tile_coords get_cell_pos fuel
        cur_tile cur_tile_coords start e coords_size coords c out = Some res
      /\ match res with
         | Done start' c' out' =>
           (exists pieces,
              out' = out ++ pieces
              /\ split get_tile_coords get_cell_pos cur_tile coords_size
                       cur_tile_coords e start
                       (passed coords (coords_it c) (coords_it c')) pieces start')
           /\ start' <= Z.max start (e + 1)
           /\ (coords_it c <= coords_it c')%nat
           /\ cursor_ok get_tile_coords get_cell_pos coords c'
           /\ (forall x, coords !! coords_it c' = Some x ->
                 ~ (take coords_size (coords_tile_coords c')
                    = take coords_size cur_tile_coords
                    /\ start' <= coords_pos c' <= e))
         | Failed st out' =>
           st <> Ok
           /\ exists pieces s' it' y,
                (coords_it c < it')%nat
                /\ coords !! it' = Some y /\ valid_ y = true
                /\ fst (get_cell_pos (coords_ y)) = st
                /\ out' = out ++ pieces
                /\ split get_tile_coords get_cell_pos cur_tile coords_size
                         cur_tile_coords e start
                         (passed coords (coords_it c) it') pieces s'
         end.
Proof.
  intros He. induction fuel as [|fuel IH]; intros start c out Hc Hstart Hfuel; [lia|].
  cbn [handle_coords_in_dense_cell_range].
  destruct (coords !! coords_it c) as [x|] eqn:Hx.
  2: { eexists. split; [reflexivity|].
       split; [|split; [lia|split; [lia|split; [exact Hc|]]]].
       - exists []. rewrite app_nil_r, passed_nil. split; [reflexivity|constructor].
       - intros x Hx'. congruence. }
  destruct (Hc x Hx) as (Hvalid & Hpos & Hfidx & Htc).
  pose proof (lookup_lt_Some _ _ _ Hx) as Hlt.
  destruct (bool_decide (take coords_size (coords_tile_coords c)
                         = take coords_size cur_tile_coords)
            && (start <=? coords_pos c) && (coords_pos c <=? e)) eqn:Hcond.
  2: { eexists. split; [reflexivity|].
       split; [|split; [lia|split; [lia|split; [exact Hc|]]]].
       - exists []. rewrite app_nil_r, passed_nil. split; [reflexivity|constructor].
       - intros x' _ [Hsame Hin]. apply andb_false_iff in Hcond as [Hcond|Hcond];
           [apply andb_false_iff in Hcond as [Hcond|Hcond]|].
         + apply bool_decide_eq_false in Hcond. contradiction.
         + apply Z.leb_gt in Hcond. lia.
         + apply Z.leb_gt in Hcond. lia. }
  apply andb_true_iff in Hcond as [Hcond Hle]. apply andb_true_iff in Hcond as [Hsame Hge].
  apply bool_decide_eq_true in Hsame. apply Z.leb_le in Hle, Hge.
  assert (Hlies : lies_at get_tile_coords get_cell_pos coords_size cur_tile_coords x
                          (coords_pos c))
    by (split; [exact Hpos | rewrite <- Htc; exact Hsame]).
  destruct (match cur_tile with
            | Some t => coords_fidx c <? ot_fragment_idx_ t
            | None => false
            end) eqn:Holder.
  - destruct cur_tile as [t|]; [|discriminate]. apply Z.ltb_lt in Holder.
    rewrite Hfidx in Holder.
    destruct (advance_coords get_tile_coords get_cell_pos coords c) as [st c'] eqn:Hadv.
    destruct st as [|code msg].
    + destruct (advance_coords_ok coords c c' Hadv) as [Hc' Hit].
      assert (Hlt' : (coords_it c < coords_it c')%nat)
        by (rewrite Hit; unfold skip_invalid_elements; lia).
      destruct (IH start c' out Hc' Hstart ltac:(lia)) as (res & Hrun & Hres).
      exists res. split; [exact Hrun|].
      destruct res as [start' c'' out'|st out'].
      * destruct Hres as ((pieces & Hout & Hp) & Hb & Hi & Hok & Hstop).
        split; [|split; [exact Hb|split; [lia|split; [exact Hok | exact Hstop]]]].
        exists pieces. split; [exact Hout|].
        rewrite (passed_cons coords _ _ x Hx Hvalid) by (rewrite <- Hit; exact Hi).
        rewrite <- Hit. eapply split_skip; eauto.
      * destruct Hres as (Hst & pieces & s' & it' & y & Hi & Hy & Hvy & Hfail & Hout & Hp).
        split; [exact Hst|]. exists pieces, s', it', y.
        split; [lia|]. split; [exact Hy|]. split; [exact Hvy|]. split; [exact Hfail|].
        split; [exact Hout|].
        rewrite (passed_cons coords _ _ x Hx Hvalid) by (rewrite <- Hit; lia).
        rewrite <- Hit. eapply split_skip; eauto.
    + destruct (advance_coords_failed coords c c' code msg Hadv) as (y & Hy & Hvy & Hfail).
      eexists. split; [reflexivity|]. split; [discriminate|].
      exists [], start, (skip_invalid_elements coords (S (coords_it c))), y.
      split; [unfold skip_invalid_elements; lia|]. split; [exact Hy|].
      split; [exact Hvy|]. split; [exact Hfail|]. rewrite app_nil_r. split; [reflexivity|].
      rewrite (passed_cons coords _ _ x Hx Hvalid) by lia. rewrite passed_nil.
      eapply split_skip; eauto. constructor.
  - assert (Hnew : forall t, cur_tile = Some t -> ot_fragment_idx_ t <= frag x).
    { intros t ->. apply Z.ltb_ge in Holder. rewrite <- Hfidx. exact Holder. }
    set (left := if start <? coords_pos c then [mkCR cur_tile start (coords_pos c - 1)]
                 else []).
    assert (Hout : (if start <? coords_pos c
                    then out ++ [mkCR cur_tile start (u64 (coords_pos c - 1))]
                    else out) = out ++ left).
    { subst left. destruct (Z.ltb_spec start (coords_pos c)); [|rewrite app_nil_r; reflexivity].
      rewrite u64_small by lia. reflexivity. }
    rewrite Hout. rewrite (u64_small (coords_pos c + 1)) by lia.
    destruct (advance_coords get_tile_coords get_cell_pos coords c) as [st c'] eqn:Hadv.
    destruct st as [|code msg].
    + destruct (advance_coords_ok coords c c' Hadv) as [Hc' Hit].
      assert (Hlt' : (coords_it c < coords_it c')%nat)
        by (rewrite Hit; unfold skip_invalid_elements; lia).
      destruct (IH (coords_pos c + 1) c'
                  ((out ++ left) ++ [mkCR (Some (tile_ x)) (pos_ x) (pos_ x)])
                  Hc' ltac:(lia) ltac:(lia)) as (res & Hrun & Hres).
      exists res. split; [exact Hrun|].
      destruct res as [start' c'' out'|st out'].
      * destruct Hres as ((pieces & -> & Hp) & Hb & Hi & Hok & Hstop).
        split; [|split; [lia|split; [lia|split; [exact Hok | exact Hstop]]]].
        exists (left ++ mkCR (Some (tile_ x)) (pos_ x) (pos_ x) :: pieces).
        split; [rewrite <- !app_assoc; reflexivity|].
        rewrite (passed_cons coords _ _ x Hx Hvalid) by (rewrite <- Hit; exact Hi).
        rewrite <- Hit. subst left. eapply split_emit; eauto.
      * destruct Hres as (Hst & pieces & s' & it' & y & Hi & Hy & Hvy & Hfail & -> & Hp).
        split; [exact Hst|].
        exists (left ++ mkCR (Some (tile_ x)) (pos_ x) (pos_ x) :: pieces), s', it', y.
        split; [lia|]. split; [exact Hy|]. split; [exact Hvy|]. split; [exact Hfail|].
        split; [rewrite <- !app_assoc; reflexivity|].
        rewrite (passed_cons coords _ _ x Hx Hvalid) by (rewrite <- Hit; lia).
        rewrite <- Hit. subst left. eapply split_emit; eauto.
    + destruct (advance_coords_failed coords c c' code msg Hadv) as (y & Hy & Hvy & Hfail).
      eexists. split; [reflexivity|]. split; [discriminate|].
      exists (left ++ [mkCR (Some (tile_ x)) (pos_ x) (pos_ x)]), (coords_pos c + 1),
             (skip_invalid_elements coords (S (coords_it c))), y.
      split; [unfold skip_invalid_elements; lia|]. split; [exact Hy|].
      split; [exact Hvy|]. split; [exact Hfail|].
      split; [rewrite <- app_assoc; reflexivity|].
      rewrite (passed_cons coords _ _ x Hx Hvalid) by lia. rewrite passed_nil.
      subst left. eapply split_emit; eauto. constructor.
Qed.

End Domain.

Lemma handle_coords_in_dense_cell_range_splits_witness :
  handle_coords_in_dense_cell_range ex_get_tile_coords ex_get_cell_pos 6
    (Some (mkOT 1 0 true ∅)) [0] 0 9 1 ex_sparse_coords (mkCursor 0 3 2 [0]) []
  = Some (Done 7 (mkCursor 4 12 2 [0])
            [ mkCR (Some (mkOT 1 0 true ∅)) 0 2; mkCR (Some (mkOT 2 0 false ∅)) 0 0;
              mkCR (Some (mkOT 1 0 true ∅)) 4 5; mkCR (Some (mkOT 2 0 false ∅)) 1 1 ])
  /\ exists res,
       handle_coords_in_dense_cell_range ex_get_tile_coords ex_get_cell_pos 6
         (Some (mkOT 1 0 true ∅)) [0] 0 9 1 ex_sparse_coords (mkCursor 0 3 2 [0]) []
       = Some res
       /\ match res with
          | Done start' c' out' =>
            (exists pieces,
               out' = [] ++ pieces
               /\ split ex_get_tile_coords ex_get_cell_pos (Some (mkOT 1 0 true ∅)) 1 [0] 9
                        0 (passed ex_sparse_coords 0 (coords_it c')) pieces start')
            /\ start' <= Z.max 0 (9 + 1)
            /\ (0 <= coords_it c')%nat
            /\ cursor_ok ex_get_tile_coords ex_get_cell_pos ex_sparse_coords c'
            /\ (forall x, ex_sparse_coords !! coords_it c' = Some x ->
                  ~ (take 1 (coords_tile_coords c') = take 1 [0]
                     /\ start' <= coords_pos c' <= 9))
          | Failed st out' =>
            st <> Ok
            /\ exists pieces s' it' y,
                 (0 < it')%nat
                 /\ ex_sparse_coords !! it' = Some y /\ valid_ y = true
                 /\ fst (ex_get_cell_pos (coords_ y)) = st
                 /\ out' = [] ++ pieces
                 /\ split ex_get_tile_coords ex_get_cell_pos (Some (mkOT 1 0 true ∅)) 1 [0] 9
                          0 (passed ex_sparse_coords 0 it') pieces s'
          end.
Proof.
  split; [vm_compute; reflexivity|].
  apply (handle_coords_in_dense_cell_range_splits ex_get_tile_coords ex_get_cell_pos 6
           (Some (mkOT 1 0 true ∅)) [0] 9 1 ex_sparse_coords).
  - vm_compute. reflexivity.
  - intros x Hx. cbn in Hx. injection Hx as <-. repeat split.
  - lia.
  - cbn. lia.
Defined.

End DenseCoordsFacts.

(** ** The content of the buffers of a var-sized attribute *)

Module VarContentFacts.
Import ReaderModel.
Import ReaderFacts.
Import CopyFacts.
Import VarContent.

Lemma length_le_bytes_8 (z : Z) : length (le_bytes 8 z) = 8%nat.
Proof. reflexivity. Qed.

Lemma copy_var_cell_at (b bv : loc) (fs : Z) (fp : list Z) (cr : RangeTiles)
    (oo vo : list Z) (m : Mem) (cell_idx od vof : Z)
    (pre_o rest_o pre_v rest_v : list Z) :
  b <> bv ->
  oo !! Z.to_nat (u64 (cell_idx - rt_start cr)) = Some od ->
  vo !! Z.to_nat (u64 (cell_idx - rt_start cr)) = Some vof ->
  bytes m !! b = Some (pre_o ++ rest_o) -> Z.of_nat (length pre_o) = od ->
  bytes m !! bv = Some (pre_v ++ rest_v) -> Z.of_nat (length pre_v) = vof ->
  8 <= Z.of_nat (length rest_o) ->
  Z.of_nat (length (var_cell_value fs fp cr cell_idx)) = cell_var_size fs cr cell_idx ->
  cell_var_size fs cr cell_idx <= Z.of_nat (length rest_v) ->
  let m' := copy_var_cell b bv fs fp cr oo vo m cell_idx in
  bytes m' !! b = Some ((pre_o ++ le_bytes 8 vof) ++ drop 8 rest_o)
  /\ bytes m' !! bv
     = Some ((pre_v ++ var_cell_value fs fp cr cell_idx)
             ++ drop (Z.to_nat (cell_var_size fs cr cell_idx)) rest_v)
  /\ (forall b', b' <> b -> b' <> bv -> bytes m' !! b' = bytes m !! b')
  /\ sizes m' = sizes m.
Proof.
  intros Hne Hoo Hvo Hb Hod Hbv Hvof Hcap_o Hlen Hcap_v m'.
  subst m'. unfold copy_var_cell. rewrite Hoo, Hvo. cbn [from_option id].
  destruct (memcpy_at m b od (le_bytes 8 vof) cell_var_offset_size pre_o rest_o Hb Hod)
    as (Hb1 & Ho1 & Hs1);
    [unfold cell_var_offset_size; lia | rewrite length_le_bytes_8; unfold cell_var_offset_size; lia
    | unfold cell_var_offset_size; lia |].
  unfold cell_var_offset_size in *. change (Z.to_nat 8) with 8%nat in Hb1.
  rewrite take_ge in Hb1 by (rewrite length_le_bytes_8; lia).
  set (m1 := memcpy m b od (le_bytes 8 vof) 8) in *.
  assert (Hbv1 : bytes m1 !! bv = Some (pre_v ++ rest_v)) by (rewrite Ho1 by congruence; exact Hbv).
  pose proof (Z.le_trans _ _ _ (Zle_0_nat _) (Z.eq_le_incl _ _ Hlen)) as Hnn.
  unfold var_cell_value in *. unfold cell_var_size in *.
  destruct (rt_tiles cr) as [[tile tile_var]|] eqn:Ht.
  - match goal with
    | |- context [memcpy m1 bv vof ?src ?n] =>
      destruct (memcpy_at m1 bv vof src n pre_v rest_v Hbv1 Hvof) as (Hb2 & Ho2 & Hs2);
        [exact Hnn | rewrite length_take in Hlen; lia | exact Hcap_v |]
    end.
    split; [rewrite Ho2 by congruence; exact Hb1|]. split; [exact Hb2|]. split.
    + intros b' H1 H2. rewrite Ho2, Ho1 by assumption. reflexivity.
    + rewrite Hs2. exact Hs1.
  - destruct (memcpy_at m1 bv vof fp fs pre_v rest_v Hbv1 Hvof) as (Hb2 & Ho2 & Hs2);
      [exact Hnn | rewrite length_take in Hlen; lia | exact Hcap_v |].
    split; [rewrite Ho2 by congruence; exact Hb1|]. split; [exact Hb2|]. split.
    + intros b' H1 H2. rewrite Ho2, Ho1 by assumption. reflexivity.
    + rewrite Hs2. exact Hs1.
Qed.

Lemma sumZ_nonneg (l : list Z) : Forall (fun z => 0 <= z) l -> 0 <= sumZ l.
Proof. unfold sumZ. induction 1; cbn [foldr]; lia. Qed.

Lemma sumZ_take_drop (k : nat) (l : list Z) : sumZ l = sumZ (take k l) + sumZ (drop k l).
Proof. rewrite <- (take_drop k l) at 1. apply sumZ_app. Qed.

Lemma sumZ_take_S (k : nat) (l : list Z) (x : Z) :
  l !! k = Some x -> sumZ (take (S k) l) = sumZ (take k l) + x.
Proof.
  intros H. rewrite (take_S_r _ _ _ H), sumZ_app. unfold sumZ at 2. cbn [foldr]. lia.
Qed.

Lemma sumZ_drop_S (k : nat) (l : list Z) (x : Z) :
  l !! k = Some x -> sumZ (drop k l) = x + sumZ (drop (S k) l).
Proof. intros H. rewrite (drop_S _ _ _ H). reflexivity. Qed.

Lemma cells_seq (cr : RangeTiles) :
  cells cr = map (fun i => rt_start cr + Z.of_nat i)
                 (seq 0 (Z.to_nat (rt_end cr - rt_start cr + 1))).
Proof.
  unfold cells, seqZ. apply map_ext. intros i. lia.
Qed.

Lemma range_length (cr : RangeTiles) :
  length (cells cr) = Z.to_nat (rt_end cr - rt_start cr + 1).
Proof. rewrite cells_seq, length_map, length_seq. reflexivity. Qed.

Lemma cells_seq_length (cr : RangeTiles) :
  map (fun i => rt_start cr + Z.of_nat i) (seq 0 (length (cells cr))) = cells cr.
Proof. rewrite range_length. symmetry. apply cells_seq. Qed.

Lemma range_size_at (fs : Z) (fp : list Z) (cr : RangeTiles) (k : nat) :
  var_range_ok fs fp cr -> (k < length (cells cr))%nat ->
  map (cell_var_size fs cr) (cells cr) !! k
  = Some (cell_var_size fs cr (rt_start cr + Z.of_nat k))
  /\ Z.of_nat (length (var_cell_value fs fp cr (rt_start cr + Z.of_nat k)))
     = cell_var_size fs cr (rt_start cr + Z.of_nat k).
Proof.
  intros (Hse & He & Hval) Hk. pose proof (range_length cr) as HN. split.
  - rewrite cells_seq, <- list_fmap_compose.
    rewrite list_lookup_fmap, lookup_seq_lt by lia. reflexivity.
  - apply Hval. lia.
Qed.

Lemma range_sizes_nonneg (fs : Z) (fp : list Z) (cr : RangeTiles) :
  var_range_ok fs fp cr ->
  Forall (fun z => 0 <= z) (map (cell_var_size fs cr) (cells cr)).
Proof.
  intros Hok. apply Forall_lookup. intros k z Hz.
  assert (Hk : (k < length (cells cr))%nat).
  { apply lookup_lt_Some in Hz. rewrite length_map in Hz. exact Hz. }
  destruct (range_size_at fs fp cr k Hok Hk) as [Hs Hl]. rewrite Hs in Hz.
  injection Hz as <-. rewrite <- Hl. lia.
Qed.

Section Range.

Variables (b bv : loc) (fs : Z) (fp : list Z) (cr : RangeTiles) (t1 t2 : Z).

Hypothesis buffers_differ : b <> bv.
Hypothesis range_ok : var_range_ok fs fp cr.
Hypothesis t1_nonneg : 0 <= t1.
Hypothesis t2_nonneg : 0 <= t2.

Let N : nat := length (cells cr).
Let sizes : list Z := map (cell_var_size fs cr) (cells cr).
Let oo : list Z := map (fun i => u64 (t1 + cell_var_offset_size * Z.of_nat i)) (seq 0 N).
Let vo : list Z := map (fun i => u64 (t2 + sumZ (take i sizes))) (seq 0 N).

Hypothesis offsets_small : t1 + 8 * Z.of_nat N < u64_mod.
Hypothesis values_small : t2 + sumZ sizes < u64_mod.

Lemma copy_var_range_at (len : nat) :
  forall (k : nat) (m : Mem) (pre_o rest_o pre_v rest_v : list Z),
    (k + len = N)%nat ->
    bytes m !! b = Some (pre_o ++ rest_o) ->
    Z.of_nat (length pre_o) = t1 + 8 * Z.of_nat k ->
    bytes m !! bv = Some (pre_v ++ rest_v) ->
    Z.of_nat (length pre_v) = t2 + sumZ (take k sizes) ->
    8 * Z.of_nat len <= Z.of_nat (length rest_o) ->
    sumZ (drop k sizes) <= Z.of_nat (length rest_v) ->
    let m' := foldl (copy_var_cell b bv fs fp cr oo vo) m
                    (map (fun i => rt_start cr + Z.of_nat i) (seq k len)) in
    bytes m' !! b
    = Some ((pre_o ++ concat (map (fun i => le_bytes 8 (t2 + sumZ (take i sizes)))
                                  (seq k len)))
            ++ drop (8 * len) rest_o)
    /\ bytes m' !! bv
       = Some ((pre_v ++ concat (map (fun i => var_cell_value fs fp cr
                                                 (rt_start cr + Z.of_nat i))
                                     (seq k len)))
               ++ drop (Z.to_nat (sumZ (drop k sizes))) rest_v)
    /\ (forall b', b' <> b -> b' <> bv -> bytes m' !! b' = bytes m !! b')
    /\ ReaderModel.sizes m' = ReaderModel.sizes m.
Proof.
  pose proof (range_sizes_nonneg fs fp cr range_ok) as Hnn. fold sizes in Hnn.
  induction len as [|len IH]; intros k m pre_o rest_o pre_v rest_v Hk Hb Ho Hbv Hv Hco Hcv.
  - cbn [seq map foldl concat]. rewrite !app_nil_r.
    assert (Hd : drop k sizes = []).
    { apply drop_ge. unfold sizes. rewrite length_map. fold N. lia. }
    rewrite Hd. cbn. rewrite !drop_0. auto.
  - cbn [seq map foldl concat].
    destruct (range_size_at fs fp cr k range_ok ltac:(fold N; lia)) as [Hsz Hlen].
    fold sizes in Hsz.
    pose proof (sumZ_take_S k sizes _ Hsz) as HtS.
    pose proof (sumZ_drop_S k sizes _ Hsz) as HdS.
    pose proof (sumZ_take_drop k sizes) as Htd.
    pose proof (sumZ_take_drop (S k) sizes) as HtdS.
    assert (Hnn1 : 0 <= sumZ (take k sizes)) by (apply sumZ_nonneg, Forall_take, Hnn).
    assert (Hnn2 : 0 <= sumZ (drop (S k) sizes)) by (apply sumZ_nonneg, Forall_drop, Hnn).
    assert (Hnn3 : 0 <= cell_var_size fs cr (rt_start cr + Z.of_nat k)) by lia.
    pose proof (range_length cr) as HN. fold N in HN. destruct range_ok as (Hse & He & _).
    assert (Hidx : Z.to_nat (u64 (rt_start cr + Z.of_nat k - rt_start cr)) = k).
    { rewrite u64_small by lia. lia. }
    destruct (copy_var_cell_at b bv fs fp cr oo vo m (rt_start cr + Z.of_nat k)
                (t1 + 8 * Z.of_nat k) (t2 + sumZ (take k sizes))
                pre_o rest_o pre_v rest_v buffers_differ)
      as (Hb1 & Hbv1 & Hf1 & Hs1); try assumption; try lia.
    { rewrite Hidx. unfold oo. rewrite list_lookup_fmap, lookup_seq_lt by lia.
      cbn [fmap option_fmap option_map Nat.add]. unfold cell_var_offset_size.
      rewrite u64_small by lia. reflexivity. }
    { rewrite Hidx. unfold vo. rewrite list_lookup_fmap, lookup_seq_lt by lia.
      cbn [fmap option_fmap option_map Nat.add].
      rewrite u64_small by lia. reflexivity. }
    set (m1 := copy_var_cell b bv fs fp cr oo vo m (rt_start cr + Z.of_nat k)) in *.
    destruct (IH (S k) m1 _ _ _ _ ltac:(lia) Hb1 ltac:(rewrite length_app, length_le_bytes_8; lia)
                Hbv1 ltac:(rewrite length_app, Nat2Z.inj_add, Hlen; lia)
                ltac:(rewrite length_drop; lia) ltac:(rewrite length_drop; lia))
      as (R1 & R2 & R3 & R4).
    split; [|split; [|split]].
    + rewrite R1. f_equal. rewrite drop_drop, <- !app_assoc. repeat f_equal. lia.
    + rewrite R2. f_equal. rewrite drop_drop, <- !app_assoc. repeat f_equal. lia.
    + intros b' H1 H2. rewrite R3, Hf1 by assumption. reflexivity.
    + rewrite R4. exact Hs1.
Qed.

End Range.

Lemma length_concat_le_bytes_8 {A : Type} (f : A -> Z) (l : list A) :
  length (concat (map (fun i => le_bytes 8 (f i)) l)) = (8 * length l)%nat.
Proof.
  induction l as [|x l IH]; [reflexivity|].
  cbn [map concat]. rewrite length_app, IH, length_le_bytes_8. cbn [length]. lia.
Qed.

Lemma length_concat_values (fs : Z) (fp : list Z) (cr : RangeTiles) :
  var_range_ok fs fp cr ->
  Z.of_nat (length (concat (map (var_cell_value fs fp cr) (cells cr))))
  = sumZ (map (cell_var_size fs cr) (cells cr)).
Proof.
  intros (Hse & He & Hval).
  assert (Hall : Forall (fun idx => rt_start cr <= idx <= rt_end cr) (cells cr)).
  { apply Forall_forall. intros idx Hin. unfold cells in Hin.
    apply elem_of_seqZ in Hin. lia. }
  induction Hall as [|idx l Hidx _ IH]; [reflexivity|].
  cbn [map concat]. rewrite length_app, Nat2Z.inj_add, IH, (Hval idx Hidx).
  reflexivity.
Qed.

Lemma copy_var_whole_range_at (b bv : loc) (fs : Z) (fp : list Z) (cr : RangeTiles)
    (t1 t2 : Z) (m : Mem) (pre_o rest_o pre_v rest_v : list Z) :
  b <> bv -> var_range_ok fs fp cr -> 0 <= t1 -> 0 <= t2 ->
  t1 + 8 * Z.of_nat (length (cells cr)) < u64_mod ->
  t2 + sumZ (map (cell_var_size fs cr) (cells cr)) < u64_mod ->
  bytes m !! b = Some (pre_o ++ rest_o) -> Z.of_nat (length pre_o) = t1 ->
  bytes m !! bv = Some (pre_v ++ rest_v) -> Z.of_nat (length pre_v) = t2 ->
  8 * Z.of_nat (length (cells cr)) <= Z.of_nat (length rest_o) ->
  sumZ (map (cell_var_size fs cr) (cells cr)) <= Z.of_nat (length rest_v) ->
  forall m',
    m' = foldl (copy_var_cell b bv fs fp cr
                  (map (fun i => u64 (t1 + 8 * Z.of_nat i)) (seq 0 (length (cells cr))))
                  (map (fun i => u64 (t2 + sumZ (take i (map (cell_var_size fs cr)
                                                              (cells cr)))))
                       (seq 0 (length (cells cr)))))
               m (cells cr) ->
    bytes m' !! b
    = Some ((pre_o ++ concat (map (fun i => le_bytes 8
                                     (t2 + sumZ (take i (map (cell_var_size fs cr)
                                                             (cells cr)))))
                                  (seq 0 (length (cells cr)))))
            ++ drop (8 * length (cells cr)) rest_o)
    /\ bytes m' !! bv
       = Some ((pre_v ++ concat (map (var_cell_value fs fp cr) (cells cr)))
               ++ drop (Z.to_nat (sumZ (map (cell_var_size fs cr) (cells cr)))) rest_v)
    /\ (forall b', b' <> b -> b' <> bv -> bytes m' !! b' = bytes m !! b')
    /\ sizes m' = sizes m.
Proof.
  intros Hne Hok Ht1 Ht2 Hs1 Hs2 Hb Ho Hbv Hv Hco Hcv m' ->.
  destruct (copy_var_range_at b bv fs fp cr t1 t2 Hne Hok Ht1 Hs1 Hs2
              (length (cells cr)) 0%nat m pre_o rest_o pre_v rest_v eq_refl Hb
              ltac:(lia) Hbv
              ltac:(rewrite take_0; unfold sumZ; cbn [foldr]; lia) Hco
              ltac:(rewrite drop_0; exact Hcv))
    as (R1 & R2 & R3 & R4).
  unfold cell_var_offset_size in R1, R2, R3, R4.
  rewrite (cells_seq_length cr) in R1, R2, R3, R4. rewrite drop_0 in R2.
  split; [exact R1|]. split; [|split; [exact R3 | exact R4]].
  rewrite R2. do 3 f_equal.
  rewrite <- (cells_seq_length cr) at 2. rewrite map_map. reflexivity.
Qed.

Lemma var_cell_sizes_nonneg (fs : Z) (fp : list Z) (crs : list RangeTiles) :
  Forall (var_range_ok fs fp) crs -> Forall (fun z => 0 <= z) (var_cell_sizes fs crs).
Proof.
  induction 1 as [|cr crs Hcr _ IH]; [constructor|].
  rewrite var_cell_sizes_cons. apply Forall_app. split; [|exact IH].
  exact (range_sizes_nonneg fs fp cr Hcr).
Qed.

Lemma copy_var_ranges_at (b bv : loc) (fs : Z) (fp : list Z) (crs : list RangeTiles) :
  b <> bv -> Forall (var_range_ok fs fp) crs ->
  forall (t1 t2 : Z) (m : Mem) (pre_o rest_o pre_v rest_v : list Z),
    0 <= t1 -> 0 <= t2 ->
    t1 + 8 * Z.of_nat (length (var_cell_sizes fs crs)) < u64_mod ->
    t2 + sumZ (var_cell_sizes fs crs) < u64_mod ->
    bytes m !! b = Some (pre_o ++ rest_o) -> Z.of_nat (length pre_o) = t1 ->
    bytes m !! bv = Some (pre_v ++ rest_v) -> Z.of_nat (length pre_v) = t2 ->
    8 * Z.of_nat (length (var_cell_sizes fs crs)) <= Z.of_nat (length rest_o) ->
    sumZ (var_cell_sizes fs crs) <= Z.of_nat (length rest_v) ->
    exists ooo vvo,
      var_cell_destinations fs crs t1 t2
      = (ooo, vvo, t1 + 8 * Z.of_nat (length (var_cell_sizes fs crs)),
         t2 + sumZ (var_cell_sizes fs crs))
      /\ bytes (copy_var_ranges b bv fs fp m crs ooo vvo) !! b
         = Some ((pre_o ++ concat (map (fun i => le_bytes 8
                                          (t2 + sumZ (take i (var_cell_sizes fs crs))))
                                       (seq 0 (length (var_cell_sizes fs crs)))))
                 ++ drop (8 * length (var_cell_sizes fs crs)) rest_o)
      /\ bytes (copy_var_ranges b bv fs fp m crs ooo vvo) !! bv
         = Some ((pre_v ++ concat (var_values fs fp crs))
                 ++ drop (Z.to_nat (sumZ (var_cell_sizes fs crs))) rest_v)
      /\ (forall b', b' <> b -> b' <> bv ->
            bytes (copy_var_ranges b bv fs fp m crs ooo vvo) !! b' = bytes m !! b')
      /\ sizes (copy_var_ranges b bv fs fp m crs ooo vvo) = sizes m.
Proof.
  intros Hne Hall.
  induction Hall as [|cr crs Hcr Hall IH];
    intros t1 t2 m pre_o rest_o pre_v rest_v Ht1 Ht2 Hs1 Hs2 Hb Ho Hbv Hv Hco Hcv.
  - exists [], []. cbn. rewrite !app_nil_r, !drop_0, !Z.add_0_r. auto.
  - pose proof (range_sizes_nonneg fs fp cr Hcr) as Hnn1.
    pose proof (var_cell_sizes_nonneg fs fp crs Hall) as Hnn2.
    apply sumZ_nonneg in Hnn1, Hnn2.
    pose proof (length_concat_values fs fp cr Hcr) as Hlv.
    rewrite var_cell_sizes_cons in *. rewrite length_app, length_map in *.
    rewrite sumZ_app in *.
    cbn [var_cell_destinations].
    rewrite (cell_destinations_closed fs cr (cells cr) t1 t2)
      by (apply u64_small; lia).
    unfold cell_var_offset_size.
    rewrite (u64_small (t1 + 8 * Z.of_nat (length (cells cr)))) by lia.
    rewrite (u64_small (t2 + sumZ (map (cell_var_size fs cr) (cells cr)))) by lia.
    destruct (copy_var_whole_range_at b bv fs fp cr t1 t2 m pre_o rest_o pre_v rest_v
                Hne Hcr Ht1 Ht2 ltac:(lia) ltac:(lia) Hb Ho Hbv Hv ltac:(lia) ltac:(lia)
                _ eq_refl) as (R1 & R2 & R3 & R4).
    set (n1 := length (cells cr)) in *.
    set (sz1 := map (cell_var_size fs cr) (cells cr)) in *.
    set (rest := var_cell_sizes fs crs) in *.
    set (m1 := foldl _ m (cells cr)) in *.
    assert (Hn1 : length sz1 = n1) by (subst sz1 n1; apply length_map).
    assert (B1 : Z.of_nat (length (pre_o ++ concat (map (fun i => le_bytes 8
                               (t2 + sumZ (take i sz1))) (seq 0 n1))))
                 = t1 + 8 * Z.of_nat n1).
    { rewrite length_app, length_concat_le_bytes_8, length_seq. lia. }
    assert (B2 : Z.of_nat (length (pre_v ++ concat (map (var_cell_value fs fp cr) (cells cr))))
                 = t2 + sumZ sz1).
    { rewrite length_app, Nat2Z.inj_add, Hlv. lia. }
    destruct (IH (t1 + 8 * Z.of_nat n1) (t2 + sumZ sz1) m1 _ _ _ _
                ltac:(lia) ltac:(lia) ltac:(lia) ltac:(lia) R1 B1 R2 B2
                ltac:(rewrite length_drop; lia) ltac:(rewrite length_drop; lia))
      as (ooo & vvo & Heq & Q1 & Q2 & Q3 & Q4).
    fold rest in Heq, Q1, Q2. rewrite Heq.
    eexists _, _. split; [|split; [|split; [|split]]].
    + f_equal; [f_equal; lia | lia].
    + cbn [copy_var_ranges]. fold m1. rewrite Q1. f_equal.
      rewrite seq_app, map_app, concat_app, drop_drop, <- !app_assoc.
      f_equal. f_equal; [|f_equal].
      * f_equal. apply map_ext_in. intros i Hi%in_seq.
        rewrite take_app_le by lia. reflexivity.
      * f_equal. rewrite (map_seq_shift _ (0 + n1)). apply map_ext. intros i.
        rewrite take_app_ge by lia. rewrite sumZ_app.
        replace (0 + n1 + i - length sz1)%nat with i by lia.
        f_equal. lia.
      * f_equal. lia.
    + cbn [copy_var_ranges]. fold m1. rewrite Q2. f_equal.
      unfold var_values. cbn [map concat]. rewrite concat_app, drop_drop, <- !app_assoc.
      repeat f_equal. lia.
    + intros b' H1 H2. cbn [copy_var_ranges]. fold m1. rewrite Q3, R3 by assumption.
      reflexivity.
    + cbn [copy_var_ranges]. fold m1. rewrite Q4. exact R4.
Qed.

(** X22.  [copy_var_cells] delivers the var-sized cells and their
    offsets.  If the tiles of the ranges hold every cell in full, the
    offsets and the values of all cells fit the sizes declared for the two
    buffers, and the buffers (which differ) are at least that large, the
    call returns [Ok] without overflow: the offsets buffer starts with one
    [uint64_t] per cell, the sum of the sizes of the cells before it; the
    values buffer starts with the values of the cells back to back, in the
    order of the ranges and of the cells in each; the bytes after them are
    untouched; the two size objects hold the bytes written to each buffer;
    and no other buffer or size object changes. *)
Theorem copy_var_cells_content (E : Env) (r : Reader) (attr : string)
    (cell_ranges : list CellRange) (crs : list RangeTiles) (schema : ArraySchema)
    (ab : AttributeBuffer) (b bv p pv : loc) (old old_var : list Z) :
  let fs := datatype_size (type schema attr) in
  let fp := le_bytes 8 (env_fill_value E (type schema attr)) in
  let cell_sizes := var_cell_sizes fs crs in
  array_schema_ r = Some schema -> attr_buffers_ r !! attr = Some ab ->
  buffer_ ab = Some b -> buffer_var_ ab = Some bv ->
  buffer_size_ ab = Some p -> buffer_var_size_ ab = Some pv ->
  b <> bv -> p <> pv ->
  mapM (range_tiles attr) cell_ranges = Some crs ->
  env_fill_value E (type schema attr) <> 0 ->
  Forall (var_range_ok fs fp) crs ->
  bytes (mem_ r) !! b = Some old -> bytes (mem_ r) !! bv = Some old_var ->
  8 * Z.of_nat (length cell_sizes) <= load (mem_ r) p ->
  load (mem_ r) p <= Z.of_nat (length old) -> load (mem_ r) p < u64_mod ->
  sumZ cell_sizes <= load (mem_ r) pv ->
  load (mem_ r) pv <= Z.of_nat (length old_var) -> load (mem_ r) pv < u64_mod ->
  exists r',
    copy_var_cells E r attr cell_ranges = Ret (Ok, r')
    /\ bytes (mem_ r') !! b
       = Some (concat (map (le_bytes 8) (var_offsets cell_sizes))
               ++ drop (8 * length cell_sizes) old)
    /\ bytes (mem_ r') !! bv
       = Some (concat (var_values fs fp crs) ++ drop (Z.to_nat (sumZ cell_sizes)) old_var)
    /\ load (mem_ r') p = 8 * Z.of_nat (length cell_sizes)
    /\ load (mem_ r') pv = sumZ cell_sizes
    /\ (forall b', b' <> b -> b' <> bv -> bytes (mem_ r') !! b' = bytes (mem_ r) !! b')
    /\ (forall q, q <> p -> q <> pv -> load (mem_ r') q = load (mem_ r) q)
    /\ read_state_ r' = read_state_ r /\ read_state_2_ r' = read_state_2_ r.
Proof.
  intros fs fp cell_sizes Hs Hab Hbuf Hbufv Hsz Hszv Hne Hpne Hcrs Hfv Hall Hold Holdv
         Hfit Hcap Hsmall Hfitv Hcapv Hsmallv.
  pose proof (sumZ_nonneg _ (var_cell_sizes_nonneg fs fp crs Hall)) as Hnn.
  fold cell_sizes in Hnn.
  destruct (copy_var_ranges_at b bv fs fp crs Hne Hall 0 0 (mem_ r) [] old [] old_var
              ltac:(lia) ltac:(lia) ltac:(fold cell_sizes; lia) ltac:(fold cell_sizes; lia)
              Hold eq_refl Holdv eq_refl ltac:(fold cell_sizes; lia)
              ltac:(fold cell_sizes; lia))
    as (ooo & vvo & Heq & Hb & Hbv & Ho & Hsizes).
  fold cell_sizes in Heq, Hb, Hbv. rewrite !Z.add_0_l in Heq. cbn [app] in Hb, Hbv.
  unfold copy_var_cells. rewrite Hab, Hs. fold fs.
  replace (env_fill_value E (type schema attr) =? 0) with false
    by (symmetry; apply Z.eqb_neq; exact Hfv).
  rewrite andb_false_r, Hcrs, Hsz, Hszv.
  unfold compute_var_cell_destinations. fold fs. rewrite Heq.
  replace (load (mem_ r) p <? 8 * Z.of_nat (length cell_sizes)) with false
    by (symmetry; apply Z.ltb_ge; exact Hfit).
  replace (load (mem_ r) pv <? sumZ cell_sizes) with false
    by (symmetry; apply Z.ltb_ge; exact Hfitv).
  cbn [orb]. rewrite Hbuf, Hbufv. fold fp.
  eexists. split; [reflexivity|]. cbn [mem_ with_mem bytes store read_state_ read_state_2_].
  split; [|split; [exact Hbv|]].
  { rewrite Hb. do 3 f_equal. unfold var_offsets. rewrite map_map.
    apply map_ext. intros i. reflexivity. }
  split; [rewrite !load_store, decide_False, decide_True by congruence; reflexivity|].
  split; [rewrite load_store, decide_True by reflexivity; reflexivity|].
  split; [exact Ho|]. split; [|split; reflexivity].
  intros q Hq Hqv. rewrite !load_store, !decide_False by congruence.
  unfold load. rewrite Hsizes. reflexivity.
Qed.

Lemma copy_var_cells_content_witness :
  exists r',
    copy_var_cells (ex_env false) (ex_reader_var 16) "s" [mkCR (Some ex_var_tile) 1 2]
    = Ret (Ok, r')
    /\ bytes (mem_ r') !! 3%positive = Some (le_bytes 8 0 ++ le_bytes 8 8)
    /\ bytes (mem_ r') !! 5%positive
       = Some (map (fun i => 100 + i) (seqZ 4 12) ++ replicate 4 0)
    /\ load (mem_ r') 4%positive = 16
    /\ load (mem_ r') 6%positive = 12.
Proof.
  destruct (copy_var_cells_content (ex_env false) (ex_reader_var 16) "s"
              [mkCR (Some ex_var_tile) 1 2]
              [mkRT (Some (mkTile (le_bytes 8 0 ++ le_bytes 8 4 ++ le_bytes 8 12) 3,
                           mkTile (map (fun i => 100 + i) (seqZ 0 16)) 16)) 1 2]
              (ex_schema INT32)
              (mkBuf (Some 3%positive) (Some 5%positive) (Some 4%positive)
                     (Some 6%positive) 16 16)
              3%positive 5%positive 4%positive 6%positive
              (replicate 16 0) (replicate 16 0))
    as (r' & Hrun & Hb & Hbv & Hl & Hlv & _).
  - reflexivity.
  - reflexivity.
  - reflexivity.
  - reflexivity.
  - reflexivity.
  - reflexivity.
  - discriminate.
  - discriminate.
  - reflexivity.
  - discriminate.
  - constructor; [|constructor]. split; [cbn; lia|]. split; [vm_compute; reflexivity|].
    intros idx Hidx. cbn [rt_start rt_end] in Hidx.
    assert (Hcases : idx = 1 \/ idx = 2) by lia.
    destruct Hcases as [-> | ->]; vm_compute; reflexivity.
  - reflexivity.
  - reflexivity.
  - vm_compute. discriminate.
  - vm_compute. discriminate.
  - vm_compute. reflexivity.
  - vm_compute. discriminate.
  - vm_compute. discriminate.
  - vm_compute. reflexivity.
  - exists r'. split; [exact Hrun|].
    split; [etransitivity; [exact Hb | vm_compute; reflexivity]|].
    split; [etransitivity; [exact Hbv | vm_compute; reflexivity]|].
    split; [etransitivity; [exact Hl | vm_compute; reflexivity]|].
    etransitivity; [exact Hlv | vm_compute; reflexivity].
Defined.

End VarContentFacts.
